(** * govue: gradebook snapshots and their reconciliation

    A shallow embedding of the Go package [govue]: the gradebook model
    with its course-title decoder and current-period index, and the
    changeset engine in the revision whose CalcChangeset starts with the
    semester guard, together with the properties the specification states
    about them.

    Conventions of the embedding.
    - Go [int] is [Z]; Go [float64] is Rocq's primitive binary64 [float],
      whose subtraction and comparisons are the IEEE 754 ones Go uses.
    - Go [string] is [string], a sequence of bytes.
    - A Go [map] is a [gmap].  Go leaves the order in which [range] visits
      a map unspecified, so every [range] over a map takes a visit order
      from an [Order.t]: a function that rearranges the list of keys the
      map holds when the loop starts.  A key is processed only if the map
      still holds it when it is reached, as in Go.  Theorems about "every
      run" quantify over every [Order.t] whose components are permutations.
    - A pointer that may be nil is an [option]; dereferencing nil and
      indexing out of range are runtime panics, modelled by [None] in the
      panic monad ([option]) and by [Panicked] at the top level.  The
      elements of the decoded slices (courses, marks, assignments) and the
      current grading period are never nil in a decoded gradebook and are
      plain values. *)

From Stdlib Require Import ZArith Floats Ascii String List Permutation.
From stdpp Require Import gmap strings list fin_maps.

Local Open Scope Z_scope.
Local Open Scope string_scope.

(** ** The gradebook model (gradebook.go) *)

(** [GradebookDate] wraps a [time.Time]; no property below looks inside
    a date, so it is kept as a day number. *)
Definition GradebookDate := Z.

Module GradingPeriod.
Record t := mk {
  Index : Z;
  Name : string;
  StartDate : GradebookDate;
  EndDate : GradebookDate
}.
End GradingPeriod.

Module AssignmentScore.
Record t := mk {
  Graded : bool;
  Score : float;
  PossibleScore : float
}.
End AssignmentScore.

Module AssignmentPoints.
Record t := mk {
  Points : float;
  PossiblePoints : float
}.
End AssignmentPoints.

Module Assignment.
Record t := mk {
  GradebookID : string;
  Name : string;
  Type_ : string;
  Date : GradebookDate;
  DueDate : GradebookDate;
  Score : AssignmentScore.t;
  ScoreType : string;
  Points : AssignmentPoints.t;
  Notes : string
}.
End Assignment.

Module AssignmentGradeCalc.
Record t := mk {
  Type_ : string;
  Weight : float;
  Points : float;
  PointsPossible : float;
  WeightedPercentage : float;
  LetterGrade : string
}.
End AssignmentGradeCalc.

Module CourseMark.
Record t := mk {
  Name : string;
  LetterGrade : string;
  RawGradeScore : float;
  GradeSummaries : list AssignmentGradeCalc.t;
  Assignments : list Assignment.t
}.
End CourseMark.

Module CourseID.
Record t := mk {
  ID : string;
  Name : string
}.
End CourseID.

Module Course.
Record t := mk {
  Period : Z;
  ID : CourseID.t;
  Room : string;
  Teacher : string;
  TeacherEmail : string;
  Marks : list CourseMark.t;
  (* *CourseMark, nil until the decoder sets it *)
  CurrentMark : option CourseMark.t
}.

Definition setCurrentMark (c : t) (m : option CourseMark.t) : t :=
  mk (Period c) (ID c) (Room c) (Teacher c) (TeacherEmail c) (Marks c) m.
End Course.

Module Gradebook.
Record t := mk {
  GradingPeriods : list GradingPeriod.t;
  (* *GradingPeriod, taken as set: the guard and CurrentGradingPeriodIndex
     read its Name before anything else *)
  CurrentGradingPeriod : GradingPeriod.t;
  Courses : list Course.t
}.
End Gradebook.

(** The stable identifier of a course, [c.ID.ID]. *)
Definition courseKey (c : Course.t) : string := CourseID.ID (Course.ID c).

(** ** strings.Contains *)

(** [Contains s sub] reports whether [sub] occurs in [s]: some suffix of
    [s] starts with [sub]. *)
Fixpoint Contains (s sub : string) : bool :=
  String.prefix sub s ||
  match s with
  | EmptyString => false
  | String _ s' => Contains s' sub
  end.

(** ** The semester guard (changeset.go) *)

Inductive SemesterMismatchError :=
  mkSemesterMismatchError (aSemester bSemester : Z).

Definition firstSemesterLabel (l : string) : bool :=
  Contains l "Q1" || Contains l "Q2".

Definition secondSemesterLabel (l : string) : bool :=
  Contains l "Q3" || Contains l "Q4".

Definition gradebookSemestersMatch (a b : Gradebook.t) : Z * Z * bool :=
  let aGradePeriod := GradingPeriod.Name (Gradebook.CurrentGradingPeriod a) in
  let bGradePeriod := GradingPeriod.Name (Gradebook.CurrentGradingPeriod b) in
  if Contains aGradePeriod "Q1" || Contains aGradePeriod "Q2" then
    if Contains bGradePeriod "Q3" || Contains bGradePeriod "Q4"
    then (1, 2, false)
    else (0, 0, true)
  else if Contains aGradePeriod "Q3" || Contains aGradePeriod "Q4" then
    if Contains bGradePeriod "Q1" || Contains bGradePeriod "Q2"
    then (2, 1, false)
    else (0, 0, true)
  else (0, 0, true).

(** ** Gradebook.CurrentGradingPeriodIndex and the CurrentMark selection *)

Fixpoint currentIndexFrom (gradePeriod : string) (ps : list GradingPeriod.t) : Z :=
  match ps with
  | [] => 0
  | p :: ps' =>
      if String.eqb (GradingPeriod.Name p) gradePeriod
      then Z.quot (GradingPeriod.Index p) 2
      else currentIndexFrom gradePeriod ps'
  end.

Definition CurrentGradingPeriodIndex (g : Gradebook.t) : Z :=
  currentIndexFrom (GradingPeriod.Name (Gradebook.CurrentGradingPeriod g))
                   (Gradebook.GradingPeriods g).

(** Indexing a slice with a Go [int]: out of range (negative included)
    panics. *)
Definition sliceAt {A : Type} (l : list A) (i : Z) : option A :=
  if (0 <=? i)%Z then l !! Z.to_nat i else None.

(** The loop that ends [decodeStudentGrades]:
    [c.CurrentMark = c.Marks[gb.CurrentGradingPeriodIndex()]] for every
    course of the decoded gradebook. *)
Fixpoint setCurrentMarks (idx : Z) (cs : list Course.t) : option (list Course.t) :=
  match cs with
  | [] => Some []
  | c :: cs' =>
      m ← sliceAt (Course.Marks c) idx;
      rest ← setCurrentMarks idx cs';
      Some (Course.setCurrentMark c (Some m) :: rest)
  end.

Definition selectCurrentMarks (gb : Gradebook.t) : option Gradebook.t :=
  cs ← setCurrentMarks (CurrentGradingPeriodIndex gb) (Gradebook.Courses gb);
  Some (Gradebook.mk (Gradebook.GradingPeriods gb)
                     (Gradebook.CurrentGradingPeriod gb) cs).

(** ** The changeset (changeset.go) *)

Module CourseSwitch.
Record t := mk {
  Before : Course.t;
  After : Course.t;
  BeforePeriod : Z;
  AfterPeriod : Z
}.
End CourseSwitch.

Module CourseGradeChange.
Record t := mk {
  GradeIncrease : bool;
  PreviousLetterGrade : string;
  NewLetterGrade : string;
  PreviousGradePct : float;
  NewGradePct : float;
  DeltaPct : float
}.
End CourseGradeChange.

Module CourseAssignmentChange.
Record t := mk {
  Before : Assignment.t;
  After : Assignment.t;
  NameChange : bool;
  ScoreChange : bool;
  PointsChange : bool;
  ScoreIncrease : bool;
  PossibleScoreChange : bool;
  PointsIncrease : bool;
  PossiblePointsIncrease : bool;
  PreviousScore : AssignmentScore.t;
  NewScore : AssignmentScore.t;
  PreviousPoints : AssignmentPoints.t;
  NewPoints : AssignmentPoints.t
}.
End CourseAssignmentChange.

Module CourseChange.
Record t := mk {
  Course : Course.t;
  GradeChange : option CourseGradeChange.t;
  AssignmentChanges : list CourseAssignmentChange.t;
  AssignmentAdditions : list Assignment.t;
  AssignmentRemovals : list Assignment.t
}.

(** [&CourseChange{Course: ac}] *)
Definition new (ac : Course.t) : t := mk ac None [] [] [].

Definition addChange (cc : t) (ca : CourseAssignmentChange.t) : t :=
  mk (Course cc) (GradeChange cc) (AssignmentChanges cc ++ [ca])
     (AssignmentAdditions cc) (AssignmentRemovals cc).

Definition addAddition (cc : t) (b : Assignment.t) : t :=
  mk (Course cc) (GradeChange cc) (AssignmentChanges cc)
     (AssignmentAdditions cc ++ [b]) (AssignmentRemovals cc).

Definition addRemoval (cc : t) (a : Assignment.t) : t :=
  mk (Course cc) (GradeChange cc) (AssignmentChanges cc)
     (AssignmentAdditions cc) (AssignmentRemovals cc ++ [a]).

Definition setGradeChange (cc : t) (g : CourseGradeChange.t) : t :=
  mk (Course cc) (Some g) (AssignmentChanges cc)
     (AssignmentAdditions cc) (AssignmentRemovals cc).
End CourseChange.

Module Changeset.
Record t := mk {
  a : Gradebook.t;
  b : Gradebook.t;
  aMap : gmap Z Course.t;
  bMap : gmap Z Course.t;
  CourseSwitches : list CourseSwitch.t;
  CourseAdditions : list Course.t;
  CourseDrops : list Course.t;
  CourseChanges : list CourseChange.t
}.

Definition setAMap (cs : t) (m : gmap Z Course.t) : t :=
  mk (a cs) (b cs) m (bMap cs) (CourseSwitches cs) (CourseAdditions cs)
     (CourseDrops cs) (CourseChanges cs).

Definition setBMap (cs : t) (m : gmap Z Course.t) : t :=
  mk (a cs) (b cs) (aMap cs) m (CourseSwitches cs) (CourseAdditions cs)
     (CourseDrops cs) (CourseChanges cs).

Definition addSwitch (cs : t) (sw : CourseSwitch.t) : t :=
  mk (a cs) (b cs) (aMap cs) (bMap cs) (CourseSwitches cs ++ [sw])
     (CourseAdditions cs) (CourseDrops cs) (CourseChanges cs).

Definition addAddition (cs : t) (c : Course.t) : t :=
  mk (a cs) (b cs) (aMap cs) (bMap cs) (CourseSwitches cs)
     (CourseAdditions cs ++ [c]) (CourseDrops cs) (CourseChanges cs).

Definition addDrop (cs : t) (c : Course.t) : t :=
  mk (a cs) (b cs) (aMap cs) (bMap cs) (CourseSwitches cs)
     (CourseAdditions cs) (CourseDrops cs ++ [c]) (CourseChanges cs).

Definition addChange (cs : t) (cc : CourseChange.t) : t :=
  mk (a cs) (b cs) (aMap cs) (bMap cs) (CourseSwitches cs)
     (CourseAdditions cs) (CourseDrops cs) (CourseChanges cs ++ [cc]).
End Changeset.

(** ** Visit orders of the [range] loops over maps *)

Module Order.
Record t := mk {
  (* for p, ac := range aMap, first loop of diffCourseSets *)
  dropsLoop : list Z → list Z;
  (* findCourse(bMap, _) called while period p of aMap is processed *)
  findInB : Z → list Z → list Z;
  (* for p, bc := range bMap, second loop of diffCourseSets *)
  additionsLoop : list Z → list Z;
  (* findCourse(aMap, _) called while period p of bMap is processed *)
  findInA : Z → list Z → list Z;
  (* for p, ac := range aMap in diffCourseAssignments *)
  coursesLoop : list Z → list Z;
  (* for gid, a := range notFoundAAssignments, for the course at p *)
  notFoundALoop : Z → list string → list string;
  (* for _, b := range notFoundBAssignments, for the course at p *)
  notFoundBLoop : Z → list string → list string
}.

(** Every loop visits each key of its map once. *)
Record valid (o : t) : Prop := mkValid {
  dropsLoop_perm : ∀ l, dropsLoop o l ≡ₚ l;
  findInB_perm : ∀ p l, findInB o p l ≡ₚ l;
  additionsLoop_perm : ∀ l, additionsLoop o l ≡ₚ l;
  findInA_perm : ∀ p l, findInA o p l ≡ₚ l;
  coursesLoop_perm : ∀ l, coursesLoop o l ≡ₚ l;
  notFoundALoop_perm : ∀ p l, notFoundALoop o p l ≡ₚ l;
  notFoundBLoop_perm : ∀ p l, notFoundBLoop o p l ≡ₚ l
}.

(** The order in which [gmap] lists its keys. *)
Definition inKeyOrder : t :=
  mk (λ l, l) (λ _ l, l) (λ l, l) (λ _ l, l) (λ l, l) (λ _ l, l) (λ _ l, l).

(** The opposite order everywhere. *)
Definition reversed : t :=
  mk (@rev Z) (λ _, @rev Z) (@rev Z) (λ _, @rev Z) (@rev Z)
     (λ _, @rev string) (λ _, @rev string).
End Order.

(** The keys a [range] over [m] visits, in the order [perm] gives them. *)
Definition rangeKeys {K V : Type} `{Countable K}
    (perm : list K → list K) (m : gmap K V) : list K :=
  perm ((map_to_list m).*1).

(** ** coursesAsMap *)

Definition byPeriod (cs : list Course.t) : gmap Z Course.t :=
  foldl (λ m c, <[Course.Period c := c]> m) ∅ cs.

Definition coursesAsMap (acs bcs : list Course.t)
    : gmap Z Course.t * gmap Z Course.t :=
  (byPeriod acs, byPeriod bcs).

(** ** findCourse *)

Fixpoint findCourseIn (courses : gmap Z Course.t) (id : string) (ks : list Z)
    : option (Course.t * Z) :=
  match ks with
  | [] => None
  | k :: ks' =>
      match courses !! k with
      | Some c => if String.eqb (courseKey c) id then Some (c, k)
                  else findCourseIn courses id ks'
      | None => findCourseIn courses id ks'
      end
  end.

(** [findCourse] returns the first course with the given ID that the
    [range] meets; [None] stands for [(nil, 0, false)]. *)
Definition findCourse (perm : list Z → list Z)
    (courses : gmap Z Course.t) (id : string) : option (Course.t * Z) :=
  findCourseIn courses id (rangeKeys perm courses).

(** ** diffCourseSets *)

(** The state of [diffCourseSets]: the changeset, whose [aMap] and [bMap]
    the local variables [aMap] and [bMap] alias, and the local
    [normalizedBMap]. *)
Definition SetsState : Type := Changeset.t * gmap Z Course.t.

(** The closure [findCourseSwitch]. *)
Definition findCourseSwitch (o : Order.t) (p : Z) (ac : Course.t)
    (st : SetsState) : SetsState * bool :=
  let '(cs, normalizedBMap) := st in
  match findCourse (Order.findInB o p) (Changeset.bMap cs) (courseKey ac) with
  | Some (c, k) =>
      let cswitch := CourseSwitch.mk ac c (Course.Period ac) (Course.Period c) in
      let cs := Changeset.addSwitch cs cswitch in
      let cs := Changeset.setBMap cs (delete k (Changeset.bMap cs)) in
      ((cs, <[p := c]> normalizedBMap), true)
  | None => (st, false)
  end.

(** One iteration of [for p, ac := range aMap]. *)
Definition dropsStep (o : Order.t) (st : SetsState) (p : Z) : SetsState :=
  let '(cs, normalizedBMap) := st in
  match Changeset.aMap cs !! p with
  | None => st
  | Some ac =>
      match Changeset.bMap cs !! p with
      | Some bc =>
          if String.eqb (courseKey ac) (courseKey bc) then
            (Changeset.setBMap cs (delete p (Changeset.bMap cs)),
             <[p := bc]> normalizedBMap)
          else
            fst (findCourseSwitch o p ac st)
      | None =>
          let '(st', found) := findCourseSwitch o p ac st in
          if found then st'
          else
            let '(cs', normalizedBMap') := st' in
            let cs' := Changeset.addDrop cs' ac in
            (Changeset.setAMap cs' (delete p (Changeset.aMap cs')),
             normalizedBMap')
      end
  end.

(** One iteration of [for p, bc := range bMap]. *)
Definition additionsStep (o : Order.t) (st : SetsState) (p : Z) : SetsState :=
  let '(cs, normalizedBMap) := st in
  match Changeset.bMap cs !! p with
  | None => st
  | Some bc =>
      let '(cs, normalizedBMap) :=
        match findCourse (Order.findInA o p) (Changeset.aMap cs) (courseKey bc) with
        | Some (c, k) => (cs, <[k := c]> normalizedBMap)
        | None => (Changeset.addAddition cs bc, normalizedBMap)
        end in
      (Changeset.setBMap cs (delete p (Changeset.bMap cs)), normalizedBMap)
  end.

Definition diffCourseSets (o : Order.t) (cs : Changeset.t) : Changeset.t :=
  let st := (cs, (∅ : gmap Z Course.t)) in
  let st := foldl (dropsStep o) st
                  (rangeKeys (Order.dropsLoop o) (Changeset.aMap cs)) in
  let st := foldl (additionsStep o) st
                  (rangeKeys (Order.additionsLoop o) (Changeset.bMap (fst st))) in
  let '(cs, normalizedBMap) := st in
  Changeset.setBMap cs normalizedBMap.

(** ** CourseChange.diffAssignments *)

(** Go's [x != 0] and [x > 0] on a [float64]. *)
Definition nonZero (x : float) : bool := negb (PrimFloat.eqb x 0).
Definition aboveZero (x : float) : bool := PrimFloat.ltb 0 x.

Definition diffAssignments (cc : CourseChange.t) (a b : Assignment.t)
    : CourseChange.t :=
  let aScore := Assignment.Score a in
  let bScore := Assignment.Score b in
  let aPoints := Assignment.Points a in
  let bPoints := Assignment.Points b in
  let nameChange := negb (String.eqb (Assignment.Name a) (Assignment.Name b)) in
  let scoreChange :=
    nonZero (AssignmentScore.Score bScore - AssignmentScore.Score aScore) in
  let possibleScoreChange :=
    nonZero (AssignmentScore.PossibleScore bScore
             - AssignmentScore.PossibleScore aScore) in
  let pointsChange :=
    nonZero (AssignmentPoints.Points bPoints - AssignmentPoints.Points aPoints) in
  let possiblePointsChange :=
    nonZero (AssignmentPoints.PossiblePoints bPoints
             - AssignmentPoints.PossiblePoints aPoints) in
  if negb nameChange && negb scoreChange && negb possibleScoreChange
     && negb pointsChange && negb possiblePointsChange
  then cc
  else
    let scoreIncrease :=
      aboveZero (AssignmentScore.Score bScore - AssignmentScore.Score aScore) in
    let pointsIncrease :=
      aboveZero (AssignmentPoints.Points bPoints - AssignmentPoints.Points aPoints) in
    let ca := {|
      CourseAssignmentChange.Before := a;
      CourseAssignmentChange.After := b;
      CourseAssignmentChange.NameChange := nameChange;
      CourseAssignmentChange.ScoreChange := scoreChange;
      CourseAssignmentChange.PointsChange := pointsChange;
      CourseAssignmentChange.ScoreIncrease := scoreIncrease;
      CourseAssignmentChange.PossibleScoreChange := possibleScoreChange;
      CourseAssignmentChange.PointsIncrease := pointsIncrease;
      CourseAssignmentChange.PossiblePointsIncrease := possiblePointsChange;
      CourseAssignmentChange.PreviousScore := aScore;
      CourseAssignmentChange.NewScore := bScore;
      CourseAssignmentChange.PreviousPoints := aPoints;
      CourseAssignmentChange.NewPoints := bPoints
    |} in
    CourseChange.addChange cc ca.

(** ** diffCourseAssignments *)

(** The locals of one iteration of the loop over the paired courses. *)
Module Frame.
Record t := mk {
  cc : CourseChange.t;
  (* the copy of bm.Assignments; a consumed slot is set to nil *)
  bAssignments : list (option Assignment.t);
  notFoundAAssignments : gmap string Assignment.t;
  notFoundBAssignments : gmap string Assignment.t
}.
End Frame.

(** Pass 1, one iteration of [for k, a := range am.Assignments]. *)
Definition positionalStep (aCount bCount : Z) (k : nat) (a : Assignment.t)
    (f : Frame.t) : option Frame.t :=
  let '(Frame.mk cc bAs nfA nfB) := f in
  if (bCount <? aCount)%Z && (bCount <=? Z.of_nat k)%Z then
    Some (Frame.mk cc bAs (<[Assignment.GradebookID a := a]> nfA) nfB)
  else
    slot ← bAs !! k;
    let bAs := <[k := None]> bAs in
    b ← slot;
    if String.eqb (Assignment.GradebookID a) (Assignment.GradebookID b) then
      Some (Frame.mk (diffAssignments cc a b) bAs nfA nfB)
    else
      Some (Frame.mk cc bAs
                     (<[Assignment.GradebookID a := a]> nfA)
                     (<[Assignment.GradebookID b := b]> nfB)).

Fixpoint positionalPass (aCount bCount : Z) (k : nat) (as_ : list Assignment.t)
    (f : Frame.t) : option Frame.t :=
  match as_ with
  | [] => Some f
  | a :: rest =>
      f' ← positionalStep aCount bCount k a f;
      positionalPass aCount bCount (S k) rest f'
  end.

(** Pass 2, one iteration of [for k, b := range bAssignments]. *)
Definition lookupStep (f : Frame.t) (k : nat) : Frame.t :=
  let '(Frame.mk cc bAs nfA nfB) := f in
  match bAs !! k with
  | Some (Some b) =>
      let gid := Assignment.GradebookID b in
      match nfA !! gid with
      | Some a =>
          Frame.mk (diffAssignments cc a b) (<[k := None]> bAs)
                   (delete gid nfA) nfB
      | None => Frame.mk cc bAs nfA (<[gid := b]> nfB)
      end
  | _ => f
  end.

(** Pass 3, one iteration of [for gid, a := range notFoundAAssignments]. *)
Definition leftoverStep (f : Frame.t) (gid : string) : Frame.t :=
  let '(Frame.mk cc bAs nfA nfB) := f in
  match nfA !! gid with
  | None => f
  | Some a =>
      match nfB !! gid with
      | Some b =>
          Frame.mk (diffAssignments cc a b) bAs (delete gid nfA) (delete gid nfB)
      | None => Frame.mk (CourseChange.addRemoval cc a) bAs nfA nfB
      end
  end.

(** One iteration of [for _, b := range notFoundBAssignments]. *)
Definition additionStep (f : Frame.t) (gid : string) : Frame.t :=
  let '(Frame.mk cc bAs nfA nfB) := f in
  match nfB !! gid with
  | None => f
  | Some b => Frame.mk (CourseChange.addAddition cc b) bAs nfA nfB
  end.

(** The three passes over the assignments of the two current marks. *)
Definition reconcileAssignments (o : Order.t) (p : Z) (ac : Course.t)
    (am bm : CourseMark.t) : option CourseChange.t :=
  let cc := CourseChange.new ac in
  let bAssignments := Some <$> CourseMark.Assignments bm in
  let aCount := Z.of_nat (length (CourseMark.Assignments am)) in
  let bCount := Z.of_nat (length bAssignments) in
  f ← positionalPass aCount bCount 0 (CourseMark.Assignments am)
                     (Frame.mk cc bAssignments ∅ ∅);
  let f := foldl lookupStep f (seq 0 (length bAssignments)) in
  let f := foldl leftoverStep f
                 (rangeKeys (Order.notFoundALoop o p) (Frame.notFoundAAssignments f)) in
  let f := foldl additionStep f
                 (rangeKeys (Order.notFoundBLoop o p) (Frame.notFoundBAssignments f)) in
  Some (Frame.cc f).

(** The grade comparison of the two current marks. *)
Definition gradeChange (cc : CourseChange.t) (am bm : CourseMark.t)
    : CourseChange.t :=
  let ps := CourseMark.RawGradeScore am in
  let ns := CourseMark.RawGradeScore bm in
  if nonZero (ns - ps) then
    let change := (ns - ps)%float in
    CourseChange.setGradeChange cc {|
      CourseGradeChange.DeltaPct := change;
      CourseGradeChange.GradeIncrease := aboveZero change;
      CourseGradeChange.NewGradePct := ns;
      CourseGradeChange.NewLetterGrade := CourseMark.LetterGrade bm;
      CourseGradeChange.PreviousGradePct := ps;
      CourseGradeChange.PreviousLetterGrade := CourseMark.LetterGrade am
    |}
  else cc.

(** [cc.GradeChange != nil || changed > 0], with
    [changed := len(additions) | len(changes) | len(removals)]. *)
Definition worthReporting (cc : CourseChange.t) : bool :=
  let changed :=
    Z.lor (Z.lor (Z.of_nat (length (CourseChange.AssignmentAdditions cc)))
                 (Z.of_nat (length (CourseChange.AssignmentChanges cc))))
          (Z.of_nat (length (CourseChange.AssignmentRemovals cc))) in
  bool_decide (is_Some (CourseChange.GradeChange cc)) || (0 <? changed)%Z.

(** The body of the loop for the course [ac] at period [p], paired with
    [bc], the entry of the normalized map at [p] (nil when absent). *)
Definition diffCoursePair (o : Order.t) (p : Z) (ac : Course.t)
    (bc : option Course.t) : option CourseChange.t :=
  let am := Course.CurrentMark ac in
  bc ← bc;
  let bm := Course.CurrentMark bc in
  bm ← bm;
  am ← am;
  cc ← reconcileAssignments o p ac am bm;
  Some (gradeChange cc am bm).

(** One iteration of [for p, ac := range aMap]. *)
Definition coursesStep (o : Order.t) (cs : Changeset.t) (p : Z)
    : option Changeset.t :=
  match Changeset.aMap cs !! p with
  | None => Some cs
  | Some ac =>
      cc ← diffCoursePair o p ac (Changeset.bMap cs !! p);
      Some (if worthReporting cc then Changeset.addChange cs cc else cs)
  end.

Fixpoint forEach {K S : Type} (body : S → K → option S) (s : S) (ks : list K)
    : option S :=
  match ks with
  | [] => Some s
  | k :: ks' => s' ← body s k; forEach body s' ks'
  end.

Definition diffCourseAssignments (o : Order.t) (cs : Changeset.t)
    : option Changeset.t :=
  forEach (coursesStep o) cs
          (rangeKeys (Order.coursesLoop o) (Changeset.aMap cs)).

(** ** CalcChangeset *)

Inductive CalcResult :=
| Returned (cs : Changeset.t)            (* return cs, nil *)
| Failed (err : SemesterMismatchError)   (* return nil, err *)
| Panicked.                              (* a runtime panic *)

(** What follows the guard: the two diffing stages. *)
Definition diffStages (o : Order.t) (a b : Gradebook.t) : CalcResult :=
  let '(aMap, bMap) := coursesAsMap (Gradebook.Courses a) (Gradebook.Courses b) in
  let cs := Changeset.mk a b aMap bMap [] [] [] [] in
  let cs := diffCourseSets o cs in
  match diffCourseAssignments o cs with
  | Some cs => Returned cs
  | None => Panicked
  end.

Definition CalcChangeset (o : Order.t) (a b : Gradebook.t) : CalcResult :=
  let '(as_, bs, ok) := gradebookSemestersMatch a b in
  if negb ok then Failed (mkSemesterMismatchError as_ bs)
  else diffStages o a b.

(** ** Regular expressions, as [regexp.FindStringSubmatch] runs them

    Go matches leftmost-first: the match starts as early as possible and
    is the one a backtracking search finds first.  The matcher below is
    that backtracking search for the constructs the patterns of
    gradebook.go use.  It reads bytes: the delimiters of the patterns are
    ASCII, so a byte-wise search finds the same groups as a rune-wise one. *)

Inductive charClass :=
| AnyChar               (* .   any character but a newline *)
| Space                 (* \s  one of \t \n \f \r and the blank *)
| Lit (c : ascii).      (* a literal character *)

Inductive regex :=
| One (c : charClass)
| LazyPlus (c : charClass)      (* c+? *)
| GreedyStar (c : charClass)    (* c*  *)
| Then (r1 r2 : regex)
| Group (r : regex).            (* ( r ), capturing *)

Definition newline : ascii := ascii_of_nat 10.

Definition isSpace (x : ascii) : bool :=
  let n := nat_of_ascii x in
  (n =? 9)%nat || (n =? 10)%nat || (n =? 12)%nat || (n =? 13)%nat || (n =? 32)%nat.

Definition inClass (c : charClass) (x : ascii) : bool :=
  match c with
  | AnyChar => negb (Ascii.eqb x newline)
  | Space => isSpace x
  | Lit y => Ascii.eqb x y
  end.

(** The text between the input [s] and what is left of it, [rest]. *)
Definition consumed (s rest : string) : string :=
  substring 0 (String.length s - String.length rest) s.

Section Matcher.
Context {R : Type}.
(* what to do with the groups captured so far and the rest of the input *)
Let cont : Type := list string → string → option R.

Fixpoint lazyPlus (c : charClass) (k : cont) (caps : list string)
    (s : string) : option R :=
  match s with
  | EmptyString => None
  | String x s' =>
      if inClass c x then
        match k caps s' with
        | Some r => Some r
        | None => lazyPlus c k caps s'
        end
      else None
  end.

Fixpoint greedyStar (c : charClass) (k : cont) (caps : list string)
    (s : string) : option R :=
  match s with
  | EmptyString => k caps s
  | String x s' =>
      if inClass c x then
        match greedyStar c k caps s' with
        | Some r => Some r
        | None => k caps s
        end
      else k caps s
  end.

(** Groups are numbered as they close, which is the order in which they
    open when no group lies inside another. *)
Fixpoint matchRe (r : regex) (k : cont) (caps : list string) (s : string)
    : option R :=
  match r with
  | One c =>
      match s with
      | EmptyString => None
      | String x s' => if inClass c x then k caps s' else None
      end
  | LazyPlus c => lazyPlus c k caps s
  | GreedyStar c => greedyStar c k caps s
  | Then r1 r2 => matchRe r1 (λ caps' s', matchRe r2 k caps' s') caps s
  | Group r1 => matchRe r1 (λ caps' s', k (caps' ++ [consumed s s'])%list s') caps s
  end.
End Matcher.

(** [FindStringSubmatch]: the whole match followed by the groups, for the
    leftmost start that matches; [None] is the nil slice. *)
Fixpoint FindStringSubmatch (r : regex) (s : string) : option (list string) :=
  match matchRe r (λ caps rest, Some (consumed s rest :: caps)) [] s with
  | Some m => Some m
  | None =>
      match s with
      | EmptyString => None
      | String _ s' => FindStringSubmatch r s'
      end
  end.

(** ** CourseID.UnmarshalXMLAttr *)

(** ["(.+?)\\s*(\\(.+?\\))"] *)
Definition nameRegex : regex :=
  Then (Group (LazyPlus AnyChar))
       (Then (GreedyStar Space)
             (Group (Then (One (Lit "(")) (Then (LazyPlus AnyChar) (One (Lit ")")))))).

Inductive AttrResult (A : Type) :=
| Decoded (a : A)      (* the receiver is set, nil error *)
| FormatError          (* fmt.Errorf(...) *)
| AttrPanic.           (* index out of range *)
Arguments Decoded {A} a.
Arguments FormatError {A}.
Arguments AttrPanic {A}.

Definition lastChar (g : string) : option ascii :=
  String.get (String.length g - 1) g.

(** The loop [for i, g := range name[1:]], from position [i] on: the
    first group that opens and closes with a parenthesis gives the ID, and
    [name[i]] the course name. *)
Fixpoint pickGroup (name : list string) (i : nat) (gs : list string)
    : AttrResult (string * string) :=
  match gs with
  | [] => Decoded (EmptyString, EmptyString)
  | g :: gs' =>
      match String.get 0 g, lastChar g with
      | Some first, Some last =>
          if Ascii.eqb first "(" && Ascii.eqb last ")" then
            match name !! i with
            | Some cname => Decoded (substring 1 (String.length g - 2) g, cname)
            | None => AttrPanic
            end
          else pickGroup name (S i) gs'
      | _, _ => AttrPanic
      end
  end.

Definition UnmarshalCourseID (value : string) : AttrResult CourseID.t :=
  match FindStringSubmatch nameRegex value with
  | None => FormatError
  | Some name =>
      if negb (length name =? 3)%nat then FormatError
      else
        match pickGroup name 0 (tail name) with
        | Decoded (id, cname) =>
            if String.eqb id EmptyString then FormatError
            else Decoded (CourseID.mk id cname)
        | FormatError => FormatError
        | AttrPanic => AttrPanic
        end
  end.

(** ** Vocabulary of the specification *)

(** The label of the current grading period. *)
Definition label (g : Gradebook.t) : string :=
  GradingPeriod.Name (Gradebook.CurrentGradingPeriod g).

(** The two labels fall in different halves of the school year. *)
Definition differentHalves (a b : Gradebook.t) : bool :=
  (firstSemesterLabel (label a) && secondSemesterLabel (label b))
  || (secondSemesterLabel (label a) && firstSemesterLabel (label b)).

(** The label holds none of "Q1", "Q2", "Q3", "Q4". *)
Definition noQuarterMarker (l : string) : bool :=
  negb (Contains l "Q1") && negb (Contains l "Q2")
  && negb (Contains l "Q3") && negb (Contains l "Q4").

(** What the guard may look at: the four markers of a label. *)
Definition markers (l : string) : bool * bool * bool * bool :=
  (Contains l "Q1", Contains l "Q2", Contains l "Q3", Contains l "Q4").

(** A numeric field changed: the difference new minus old is not zero. *)
Definition differs (old new : float) : bool := nonZero (new - old).

(** At least one of the five compared fields of an assignment changed. *)
Definition assignmentChanged (a b : Assignment.t) : bool :=
  negb (String.eqb (Assignment.Name a) (Assignment.Name b))
  || differs (AssignmentScore.Score (Assignment.Score a))
             (AssignmentScore.Score (Assignment.Score b))
  || differs (AssignmentScore.PossibleScore (Assignment.Score a))
             (AssignmentScore.PossibleScore (Assignment.Score b))
  || differs (AssignmentPoints.Points (Assignment.Points a))
             (AssignmentPoints.Points (Assignment.Points b))
  || differs (AssignmentPoints.PossiblePoints (Assignment.Points a))
             (AssignmentPoints.PossiblePoints (Assignment.Points b)).

(** Go's [!=] between the five compared fields of two assignments. *)
Definition fieldsDiffer (a b : Assignment.t) : bool :=
  negb (String.eqb (Assignment.Name a) (Assignment.Name b))
  || negb (PrimFloat.eqb (AssignmentScore.Score (Assignment.Score a))
                         (AssignmentScore.Score (Assignment.Score b)))
  || negb (PrimFloat.eqb (AssignmentScore.PossibleScore (Assignment.Score a))
                         (AssignmentScore.PossibleScore (Assignment.Score b)))
  || negb (PrimFloat.eqb (AssignmentPoints.Points (Assignment.Points a))
                         (AssignmentPoints.Points (Assignment.Points b)))
  || negb (PrimFloat.eqb (AssignmentPoints.PossiblePoints (Assignment.Points a))
                         (AssignmentPoints.PossiblePoints (Assignment.Points b))).

(** ** Pass 1 over the two lists side by side

    Position by position, pass 1 reads the slot of [bAssignments] it has
    not touched yet, so its effect on the change record and on the two
    pools is a walk over the two assignment lists in step. *)

Fixpoint sideBySide (la lb : list Assignment.t) (cc : CourseChange.t)
    (nfA nfB : gmap string Assignment.t)
    : CourseChange.t * gmap string Assignment.t * gmap string Assignment.t :=
  match la, lb with
  | [], _ => (cc, nfA, nfB)
  | a :: la', [] =>
      sideBySide la' [] cc (<[Assignment.GradebookID a := a]> nfA) nfB
  | a :: la', b :: lb' =>
      if String.eqb (Assignment.GradebookID a) (Assignment.GradebookID b)
      then sideBySide la' lb' (diffAssignments cc a b) nfA nfB
      else sideBySide la' lb' cc (<[Assignment.GradebookID a := a]> nfA)
                                 (<[Assignment.GradebookID b := b]> nfB)
  end.

(** The slots of [bAssignments] after pass 1: consumed where both lists
    have an element, untouched beyond the older list. *)
Fixpoint slotsAfter (la lb : list Assignment.t) : list (option Assignment.t) :=
  match la, lb with
  | [], _ => Some <$> lb
  | _ :: _, [] => []
  | _ :: la', _ :: lb' => None :: slotsAfter la' lb'
  end.

(** The GradebookIDs of a list of assignments. *)
Definition gradebookIDs (l : list Assignment.t) : list string :=
  Assignment.GradebookID <$> l.

(** The IDs pass 1 stages on each side, and the IDs it matches in place. *)
Fixpoint stagedA (la lb : list Assignment.t) : list string :=
  match la, lb with
  | [], _ => []
  | a :: la', [] => Assignment.GradebookID a :: stagedA la' []
  | a :: la', b :: lb' =>
      if String.eqb (Assignment.GradebookID a) (Assignment.GradebookID b)
      then stagedA la' lb'
      else Assignment.GradebookID a :: stagedA la' lb'
  end.

Fixpoint stagedB (la lb : list Assignment.t) : list string :=
  match la, lb with
  | a :: la', b :: lb' =>
      if String.eqb (Assignment.GradebookID a) (Assignment.GradebookID b)
      then stagedB la' lb'
      else Assignment.GradebookID b :: stagedB la' lb'
  | _, _ => []
  end.

Fixpoint matchedInPlace (la lb : list Assignment.t) : list string :=
  match la, lb with
  | a :: la', b :: lb' =>
      if String.eqb (Assignment.GradebookID a) (Assignment.GradebookID b)
      then Assignment.GradebookID a :: matchedInPlace la' lb'
      else matchedInPlace la' lb'
  | _, _ => []
  end.

(** Every entry of a pool is filed under its own GradebookID. *)
Definition filedByID (m : gmap string Assignment.t) : Prop :=
  ∀ g a, m !! g = Some a → Assignment.GradebookID a = g.

(** Every change record pairs two assignments with the same GradebookID. *)
Definition pairsByID (cc : CourseChange.t) : Prop :=
  Forall (λ ca, Assignment.GradebookID (CourseAssignmentChange.Before ca)
                = Assignment.GradebookID (CourseAssignmentChange.After ca))
         (CourseChange.AssignmentChanges cc).

(** Two change records of the same course with the same grade change. *)
Definition sameHead (cc cc' : CourseChange.t) : Prop :=
  CourseChange.Course cc' = CourseChange.Course cc
  ∧ CourseChange.GradeChange cc' = CourseChange.GradeChange cc.

(** Two change records with the same additions and removals. *)
Definition sameEnds (cc cc' : CourseChange.t) : Prop :=
  CourseChange.AssignmentAdditions cc' = CourseChange.AssignmentAdditions cc
  ∧ CourseChange.AssignmentRemovals cc' = CourseChange.AssignmentRemovals cc.

(** ** Finite numbers

    A [float64] is finite when it is neither a NaN nor an infinity. *)

Definition finiteAssignment (a : Assignment.t) : bool :=
  is_finite (AssignmentScore.Score (Assignment.Score a))
  && is_finite (AssignmentScore.PossibleScore (Assignment.Score a))
  && is_finite (AssignmentPoints.Points (Assignment.Points a))
  && is_finite (AssignmentPoints.PossiblePoints (Assignment.Points a)).

Definition finiteMark (m : CourseMark.t) : bool :=
  is_finite (CourseMark.RawGradeScore m)
  && forallb finiteAssignment (CourseMark.Assignments m).

(** A course as the decoder leaves it: CurrentMark is set, and the numbers
    of the current mark are finite. *)
Definition readyCourse (c : Course.t) : bool :=
  match Course.CurrentMark c with
  | Some m => finiteMark m
  | None => false
  end.

(** The label holds markers of both halves of the year. *)
Definition mixedLabel (l : string) : bool :=
  firstSemesterLabel l && secondSemesterLabel l.

(** The four lists of a changeset are empty. *)
Definition noChanges (cs : Changeset.t) : Prop :=
  Changeset.CourseSwitches cs = [] ∧ Changeset.CourseAdditions cs = []
  ∧ Changeset.CourseDrops cs = [] ∧ Changeset.CourseChanges cs = [].

(** ** Shapes of course titles *)

Fixpoint allChars (p : ascii → bool) (s : string) : bool :=
  match s with
  | EmptyString => true
  | String c s' => p c && allChars p s'
  end.

(** A character a name may hold before its first group, and a character
    a group may hold: no newline, and no parenthesis that would open a
    group or close it early. *)
Definition nameChar (c : ascii) : bool :=
  negb (Ascii.eqb c "(") && negb (Ascii.eqb c newline).

Definition idChar (c : ascii) : bool :=
  negb (Ascii.eqb c ")") && negb (Ascii.eqb c newline).

(** The string is not empty and does not end in white space. *)
Fixpoint endsNonSpace (s : string) : bool :=
  match s with
  | EmptyString => false
  | String c EmptyString => negb (isSpace c)
  | String _ s' => endsNonSpace s'
  end.

(** Some "(" of the string is followed, anywhere later, by a ")". *)
Fixpoint hasGroup (s : string) : bool :=
  match s with
  | EmptyString => false
  | String c s' =>
      (Ascii.eqb c "(" && negb (allChars (λ x, negb (Ascii.eqb x ")")) s'))
      || hasGroup s'
  end.

(** The reading of the specification: [value] ends in the group "(id)",
    its last one, and [name] is the text before it, white space apart. *)
Definition lastGroup (value name id : string) : Prop :=
  ∃ ws rest,
    value = name ++ ws ++ "(" ++ id ++ ")" ++ rest
    ∧ allChars isSpace ws = true
    ∧ id ≠ EmptyString
    ∧ allChars (λ x, negb (Ascii.eqb x "(") && negb (Ascii.eqb x ")")) id = true
    ∧ hasGroup rest = false.

(** ** Sample snapshots *)

Module Sample.
Definition period (i : Z) (name : string) : GradingPeriod.t :=
  GradingPeriod.mk i name 0 0.

Definition assignment (gid name : string) (score possible : float)
    : Assignment.t :=
  Assignment.mk gid name "Homework" 0 0
                (AssignmentScore.mk true score possible) "Raw Score"
                (AssignmentPoints.mk score possible) "".

Definition mark (letter : string) (raw : float) (l : list Assignment.t)
    : CourseMark.t :=
  CourseMark.mk "Q1" letter raw [] l.

Definition course (p : Z) (id : string) (m : CourseMark.t) : Course.t :=
  Course.mk p (CourseID.mk id id) "101" "Staff" "staff@school" [m] (Some m).

Definition gradebook (lbl : string) (cs : list Course.t) : Gradebook.t :=
  Gradebook.mk [period 0 lbl] (period 0 lbl) cs.

Definition g1 := assignment "g1" "Quiz 1" 8 10.
Definition g1' := assignment "g1" "Quiz 1" 9 10.
Definition g2 := assignment "g2" "Essay" 18 20.

Definition algebra := course 1 "ALG2-01" (mark "B+" 88 [g1; g2]).
Definition algebra' := course 1 "ALG2-01" (mark "B" 85.5 [g2; g1']).
Definition biology := course 1 "BIO-07" (mark "A" 93 []).
Definition shuffled := course 1 "ALG2-01" (mark "B+" 88 [g2; g1]).

(** A course whose grade is not a number, as the attribute
    CalculatedScoreRaw="NaN" decodes. *)
Definition ungraded := course 2 "ART-03" (mark "N/A" nan []).
Definition ungraded' := course 2 "ART-03" (mark "C" 71.25 [g2]).

(** The changeset after the course-set diff of [algebra] against
    [algebra']: one pair, at period 1. *)
Definition paired : Changeset.t :=
  Changeset.mk (gradebook "Q1" [algebra]) (gradebook "Q1" [algebra'])
               {[ 1 := algebra ]} {[ 1 := algebra' ]} [] [] [] [].
End Sample.

(** ** Vocabulary of the further properties *)

(** The two numbers of a guard result swapped. *)
Definition swapSemesters (r : Z * Z * bool) : Z * Z * bool :=
  let '(s1, s2, ok) := r in (s2, s1, ok).

(** The courses of a slice that sit at period [p], in slice order. *)
Definition atPeriod (p : Z) (cs : list Course.t) : list Course.t :=
  filter (λ c, Course.Period c = p) cs.

(** No two entries of a map of courses carry the same ID. *)
Definition distinctIDs (m : gmap Z Course.t) : Prop :=
  ∀ p p' c c', m !! p = Some c → m !! p' = Some c' →
               courseKey c = courseKey c' → p = p'.

(** No course of the map carries the ID [id]. *)
Definition lacksID (m : gmap Z Course.t) (id : string) : Prop :=
  ∀ k c, m !! k = Some c → courseKey c ≠ id.

(** A switch record as diffCourseSets builds them from the maps [A] and
    [B]: a course of [A], a course of [B] with the same ID, and their own
    periods. *)
Definition soundSwitch (A B : gmap Z Course.t) (sw : CourseSwitch.t) : Prop :=
  (∃ p k, A !! p = Some (CourseSwitch.Before sw)
          ∧ B !! k = Some (CourseSwitch.After sw) ∧ p ≠ k)
  ∧ courseKey (CourseSwitch.Before sw) = courseKey (CourseSwitch.After sw)
  ∧ CourseSwitch.BeforePeriod sw = Course.Period (CourseSwitch.Before sw)
  ∧ CourseSwitch.AfterPeriod sw = Course.Period (CourseSwitch.After sw).

(** The changeset CalcChangeset hands to diffCourseSets. *)
Definition freshChangeset (a b : Gradebook.t) (A B : gmap Z Course.t)
    : Changeset.t :=
  Changeset.mk a b A B [] [] [] [].

(** What the first loop of diffCourseSets keeps true of the changeset
    [cs] and of [normalizedBMap], here [nb], when it starts from the maps
    [A] and [B] with nothing recorded yet. *)
Record poolInv (A B : gmap Z Course.t) (cs : Changeset.t)
    (nb : gmap Z Course.t) : Prop := mkPoolInv {
  (* aMap only loses entries *)
  inv_kept : ∀ p c, Changeset.aMap cs !! p = Some c → A !! p = Some c;
  (* the entries it lost are the drops *)
  inv_drops : ∀ c, c ∈ Changeset.CourseDrops cs
                   ↔ ∃ p, A !! p = Some c ∧ Changeset.aMap cs !! p = None;
  (* the pool only loses entries *)
  inv_pool : ∀ k c, Changeset.bMap cs !! k = Some c → B !! k = Some c;
  (* the entries it lost are paired *)
  inv_consumed : ∀ k c, B !! k = Some c → Changeset.bMap cs !! k = None →
                        ∃ p, nb !! p = Some c;
  (* a pairing joins a kept course and a course with the same ID *)
  inv_pairs : ∀ p bc, nb !! p = Some bc →
                ∃ ac, Changeset.aMap cs !! p = Some ac
                      ∧ courseKey ac = courseKey bc
                      ∧ ((∃ k, B !! k = Some bc) ∨ bc = ac);
  inv_switches : Forall (soundSwitch A B) (Changeset.CourseSwitches cs);
  (* no course left in the pool carries the ID of a dropped course *)
  inv_drop_ids : ∀ c, c ∈ Changeset.CourseDrops cs →
                      lacksID (Changeset.bMap cs) (courseKey c);
  (* a course whose ID the older snapshot lacks never leaves the pool *)
  inv_unmatched : ∀ k bc, B !! k = Some bc → lacksID A (courseKey bc) →
                          Changeset.bMap cs !! k = Some bc;
  inv_additions : Changeset.CourseAdditions cs = [];
  inv_changes : Changeset.CourseChanges cs = []
}.

(** The state of diffCourseSets between its two loops. *)
Definition afterDropsLoop (o : Order.t) (cs : Changeset.t) : SetsState :=
  foldl (dropsStep o) (cs, ∅) (rangeKeys (Order.dropsLoop o) (Changeset.aMap cs)).

(** What the second loop of diffCourseSets keeps true, when it starts
    from the changeset [cs1] and the pairings [nb1] the first loop left. *)
Record leftoverInv (cs1 : Changeset.t) (nb1 : gmap Z Course.t)
    (cs : Changeset.t) (nb : gmap Z Course.t) : Prop := mkLeftoverInv {
  left_aMap : Changeset.aMap cs = Changeset.aMap cs1;
  left_drops : Changeset.CourseDrops cs = Changeset.CourseDrops cs1;
  left_switches : Changeset.CourseSwitches cs = Changeset.CourseSwitches cs1;
  left_changes : Changeset.CourseChanges cs = Changeset.CourseChanges cs1;
  left_pool : ∀ k c, Changeset.bMap cs !! k = Some c →
                     Changeset.bMap cs1 !! k = Some c;
  (* the additions are the visited courses whose ID aMap lacks *)
  left_additions : ∀ bc, bc ∈ Changeset.CourseAdditions cs
      ↔ ∃ k, Changeset.bMap cs1 !! k = Some bc ∧ Changeset.bMap cs !! k = None
             ∧ lacksID (Changeset.aMap cs1) (courseKey bc);
  (* a pairing is left as it was, or replaced by the older course itself *)
  left_pairs : ∀ p, nb !! p = nb1 !! p
      ∨ ∃ ac k bc, nb !! p = Some ac ∧ Changeset.aMap cs1 !! p = Some ac
                   ∧ Changeset.bMap cs1 !! k = Some bc
                   ∧ courseKey bc = courseKey ac
}.

(** Every course of the map sits at the key that is its own period, as
    in the maps coursesAsMap builds. *)
Definition keyedByPeriod (m : gmap Z Course.t) : Prop :=
  ∀ p c, m !! p = Some c → Course.Period c = p.

(** Every course of [A] has its ID carried by some course of [B]. *)
Definition coveredBy (A B : gmap Z Course.t) : Prop :=
  ∀ p ac, A !! p = Some ac → ∃ q bc, B !! q = Some bc ∧ courseKey ac = courseKey bc.

(** Every course of the map has its CurrentMark set. *)
Definition marksSet (m : gmap Z Course.t) : Prop :=
  ∀ p c, m !! p = Some c → is_Some (Course.CurrentMark c).

(** The algebra course of the samples moved to period 3, and a gradebook
    without courses. *)
Definition movedAlgebra : Course.t :=
  Sample.course 3 "ALG2-01" (Sample.mark "B" 85.5 [Sample.g2; Sample.g1']).
Definition emptyBook : Gradebook.t := Sample.gradebook "Q1" [].

(** Two changesets that differ at most in CourseChanges. *)
Definition sameSets (cs cs' : Changeset.t) : Prop :=
  Changeset.a cs' = Changeset.a cs
  ∧ Changeset.b cs' = Changeset.b cs
  ∧ Changeset.aMap cs' = Changeset.aMap cs
  ∧ Changeset.bMap cs' = Changeset.bMap cs
  ∧ Changeset.CourseSwitches cs' = Changeset.CourseSwitches cs
  ∧ Changeset.CourseAdditions cs' = Changeset.CourseAdditions cs
  ∧ Changeset.CourseDrops cs' = Changeset.CourseDrops cs.

(** [cc] is the change record the loop of diffCourseAssignments builds
    at period [p] of [cs], and the loop appends it. *)
Definition reportedAt (o : Order.t) (cs : Changeset.t) (p : Z)
    (cc : CourseChange.t) : Prop :=
  ∃ ac bc, Changeset.aMap cs !! p = Some ac
           ∧ Changeset.bMap cs !! p = Some bc
           ∧ diffCoursePair o p ac (Some bc) = Some cc
           ∧ worthReporting cc = true.

(** A change record that says something. *)
Definition nonEmptyChange (cc : CourseChange.t) : Prop :=
  CourseChange.GradeChange cc ≠ None
  ∨ CourseChange.AssignmentAdditions cc ≠ []
  ∨ CourseChange.AssignmentChanges cc ≠ []
  ∨ CourseChange.AssignmentRemovals cc ≠ [].

(** ** Vocabulary of the assignment reconciliation *)

(** [ca] is the change record diffAssignments appends for the pair
    [(x, y)]. *)
Definition recorded (x y : Assignment.t) (ca : CourseAssignmentChange.t) : Prop :=
  ∀ cc, diffAssignments cc x y = CourseChange.addChange cc ca.

(** No assignment of [l] carries the GradebookID of [a]. *)
Definition freshFor (l : list Assignment.t) (a : Assignment.t) : Prop :=
  ∀ x, x ∈ l → Assignment.GradebookID x ≠ Assignment.GradebookID a.

(** The assignments of [l] are told apart by their GradebookIDs. *)
Definition oneByID (l : list Assignment.t) : Prop :=
  ∀ x x', x ∈ l → x' ∈ l →
          Assignment.GradebookID x = Assignment.GradebookID x' → x = x'.

(** What the passes of the reconciliation keep true: [da] and [db] are
    the assignments of the two lists met so far, [nfA] and [nfB] the two
    pools.  An assignment met so far is either waiting in its pool or has
    been compared with the assignment of the other list that carries its
    GradebookID; the change records are those of the compared pairs. *)
Record matchInv (da db : list Assignment.t) (cc : CourseChange.t)
    (nfA nfB : gmap string Assignment.t) : Prop := mkMatchInv {
  mi_A : ∀ g x, nfA !! g = Some x → x ∈ da ∧ Assignment.GradebookID x = g;
  mi_B : ∀ g y, nfB !! g = Some y → y ∈ db ∧ Assignment.GradebookID y = g;
  mi_doneA : ∀ x, x ∈ da → nfA !! Assignment.GradebookID x = None →
     ∃ y, y ∈ db ∧ Assignment.GradebookID y = Assignment.GradebookID x
          ∧ nfB !! Assignment.GradebookID y = None;
  mi_doneB : ∀ y, y ∈ db → nfB !! Assignment.GradebookID y = None →
     ∃ x, x ∈ da ∧ Assignment.GradebookID x = Assignment.GradebookID y
          ∧ nfA !! Assignment.GradebookID x = None;
  mi_changes : ∀ ca, ca ∈ CourseChange.AssignmentChanges cc
     ↔ ∃ x y, x ∈ da ∧ y ∈ db
              ∧ Assignment.GradebookID x = Assignment.GradebookID y
              ∧ nfA !! Assignment.GradebookID x = None
              ∧ nfB !! Assignment.GradebookID y = None
              ∧ recorded x y ca
}.

(** A visit order whose first loop of diffCourseSets visits period [p]
    before the others, every other loop taking the keys as [gmap] lists
    them. *)
Definition startingAt (p : Z) : Order.t :=
  Order.mk (λ l, (filter (λ k, k = p) l ++ filter (λ k, k ≠ p) l)%list)
           (λ _ l, l) (λ l, l) (λ _ l, l) (λ l, l) (λ _ l, l) (λ _ l, l).

(** The loop of diffCourseAssignments cannot get past period [p] of
    [cs]: the course of aMap there has no pairing, or no CurrentMark, or a
    pairing without CurrentMark. *)
Definition blocked (cs : Changeset.t) (p : Z) : Prop :=
  ∃ ac, Changeset.aMap cs !! p = Some ac
        ∧ (Changeset.bMap cs !! p = None
           ∨ Course.CurrentMark ac = None
           ∨ ∃ bc, Changeset.bMap cs !! p = Some bc ∧ Course.CurrentMark bc = None).

(** ** What a match is

    [Matches r u gs]: the regular expression [r] matches exactly the text
    [u], its groups capturing the texts [gs] in order. *)
Inductive Matches : regex → string → list string → Prop :=
| Matches_One (c : charClass) (x : ascii) :
    inClass c x = true → Matches (One c) (String x "") []
| Matches_LazyPlus (c : charClass) (u : string) :
    u ≠ "" → allChars (inClass c) u = true → Matches (LazyPlus c) u []
| Matches_GreedyStar (c : charClass) (u : string) :
    allChars (inClass c) u = true → Matches (GreedyStar c) u []
| Matches_Then (r1 r2 : regex) (u1 u2 : string) (g1 g2 : list string) :
    Matches r1 u1 g1 → Matches r2 u2 g2 →
    Matches (Then r1 r2) (u1 ++ u2) (g1 ++ g2)%list
| Matches_Group (r : regex) (u : string) (g : list string) :
    Matches r u g → Matches (Group r) u (g ++ [u])%list.

(** ** Percentage.UnmarshalXMLAttr *)

Inductive PercentageResult :=
| PercentageDecoded (f : float)   (* the receiver is set, nil error *)
| PercentageFormatError           (* fmt.Errorf(...): no trailing % *)
| PercentageParseError            (* the error of strconv.ParseFloat *)
| PercentagePanic.                (* index out of range *)

Section Percentage.
(* strconv.ParseFloat(s, 64): the number, or an error *)
Variable ParseFloat : string → option float.

Definition UnmarshalPercentage (pct : string) : PercentageResult :=
  match String.get (String.length pct - 1) pct with
  | None => PercentagePanic
  | Some last =>
      if negb (Ascii.eqb last "%") then PercentageFormatError
      else
        match ParseFloat (substring 0 (String.length pct - 1) pct) with
        | Some f => PercentageDecoded f
        | None => PercentageParseError
        end
  end.
End Percentage.

(** A gradebook with two grading periods and two courses of two marks
    each, as the decoder reads it, before the current marks are chosen. *)
Definition rawBook : Gradebook.t :=
  Gradebook.mk [Sample.period 0 "Q1"; Sample.period 2 "Q2"] (Sample.period 2 "Q2")
    [Course.mk 1 (CourseID.mk "ALG2-01" "Algebra II") "101" "Staff" "staff@school"
               [Sample.mark "B+" 88 []; Sample.mark "B" 85.5 [Sample.g1]] None;
     Course.mk 2 (CourseID.mk "ART-03" "Art") "102" "Staff" "staff@school"
               [Sample.mark "A" 93 []; Sample.mark "C" 71.25 []] None].


(** * Properties *)

#[local] Set Warnings "-clear-no-such-hyp".

(** ** Binary64 subtraction

    The facts about [float64] subtraction the diff relies on, from the
    IEEE 754 specification of the primitive floats: rounding a non-zero
    difference never gives zero, so on finite numbers "new minus old is
    not zero" says that the two numbers differ. *)

Import SpecFloat.

Lemma digits2_pos_xO (q : positive) :
  Zpos (digits2_pos q~0) = Zpos (digits2_pos q) + 1.
Proof. simpl. lia. Qed.

Lemma digits2_pos_xI (q : positive) :
  Zpos (digits2_pos q~1) = Zpos (digits2_pos q) + 1.
Proof. simpl. lia. Qed.

Lemma shr_1_pos (m : positive) (r s : bool) :
  1 < Zpos (digits2_pos m) →
  ∃ m' r' s', shr_1 (Build_shr_record (Zpos m) r s) = Build_shr_record (Zpos m') r' s'
    ∧ Zpos (digits2_pos m') = Zpos (digits2_pos m) - 1.
Proof.
  intros H. destruct m as [q|q|]; [| |simpl in H; lia];
    eexists _, _, _; (split; [reflexivity|]);
    [rewrite digits2_pos_xI | rewrite digits2_pos_xO]; lia.
Qed.

Lemma iter_shr_1_pos (p m : positive) (r s : bool) :
  Zpos p < Zpos (digits2_pos m) →
  ∃ m' r' s', iter_pos shr_1 p (Build_shr_record (Zpos m) r s)
              = Build_shr_record (Zpos m') r' s'
    ∧ Zpos (digits2_pos m') = Zpos (digits2_pos m) - Zpos p.
Proof.
  revert m r s. induction p as [p IH|p IH|]; intros m r s Hlt; cbn [iter_pos].
  - destruct (shr_1_pos m r s) as (m0 & r0 & s0 & -> & H0); [lia|].
    destruct (IH m0 r0 s0) as (m1 & r1 & s1 & -> & H1); [lia|].
    destruct (IH m1 r1 s1) as (m2 & r2 & s2 & -> & H2); [lia|].
    eexists _, _, _. split; [reflexivity|lia].
  - destruct (IH m r s) as (m1 & r1 & s1 & -> & H1); [lia|].
    destruct (IH m1 r1 s1) as (m2 & r2 & s2 & -> & H2); [lia|].
    eexists _, _, _. split; [reflexivity|lia].
  - apply shr_1_pos. lia.
Qed.

Lemma shr_fexp_pos (m : positive) (e : Z) (l : location) :
  SpecFloat.emin prec emax <= e →
  ∃ m' r' s' e', shr_fexp prec emax (Zpos m) e l = (Build_shr_record (Zpos m') r' s', e')
    ∧ SpecFloat.emin prec emax <= e'.
Proof.
  intros He. unfold shr_fexp, shr, fexp. simpl Zdigits2.
  assert (∃ r s, shr_record_of_loc (Zpos m) l = Build_shr_record (Zpos m) r s)
    as (r & s & ->) by (destruct l as [|[]]; simpl; eauto).
  destruct (Z.max (Zpos (digits2_pos m) + e - prec) (SpecFloat.emin prec emax) - e) as [|p|p] eqn:Hn.
  - eexists _, _, _, _. eauto.
  - destruct (iter_shr_1_pos p m r s) as (m' & r' & s' & -> & _).
    { unfold prec in *. lia. }
    eexists _, _, _, _. split; [reflexivity|]. lia.
  - eexists _, _, _, _. eauto.
Qed.

Lemma binary_round_aux_not_zero (sx : bool) (m : positive) (e : Z) (z : bool) :
  SpecFloat.emin prec emax <= e →
  binary_round_aux prec emax sx (Zpos m) e loc_Exact ≠ S754_zero z.
Proof.
  intros He. unfold binary_round_aux.
  destruct (shr_fexp_pos m e loc_Exact He) as (m1 & r1 & s1 & e1 & -> & He1).
  assert (∃ m2, round_nearest_even (shr_m (Build_shr_record (Zpos m1) r1 s1))
                  (loc_of_shr_record (Build_shr_record (Zpos m1) r1 s1)) = Zpos m2)
    as [m2 ->].
  { destruct r1, s1; simpl; eauto. destruct m1; simpl; eauto. }
  destruct (shr_fexp_pos m2 e1 loc_Exact He1) as (m3 & r3 & s3 & e3 & -> & _).
  cbn [shr_m]. by destruct (_ <=? _)%Z.
Qed.

Lemma binary_round_not_zero (sx : bool) (m : positive) (e : Z) (z : bool) :
  SpecFloat.emin prec emax <= e → binary_round prec emax sx m e ≠ S754_zero z.
Proof.
  intros He. unfold binary_round, shl_align.
  destruct (fexp prec emax (Zpos (digits2_pos m) + e) - e) as [|p|p] eqn:Hn;
    apply binary_round_aux_not_zero; try done.
  unfold fexp in *. lia.
Qed.

Lemma digits2_pos_iter_xO (m d : positive) :
  Zpos (digits2_pos (Pos.iter xO m d)) = Zpos (digits2_pos m) + Zpos d.
Proof.
  induction d as [|d IH] using Pos.peano_ind.
  - simpl. lia.
  - rewrite Pos.iter_succ, digits2_pos_xO, IH. lia.
Qed.

Lemma canonical_exponent (m : positive) (e : Z) :
  bounded prec emax m e = true →
  Z.max (Zpos (digits2_pos m) + e - prec) (SpecFloat.emin prec emax) = e.
Proof.
  unfold bounded, canonical_mantissa, fexp.
  intros [H _]%andb_true_iff. by apply Z.eqb_eq.
Qed.

Lemma SFeqb_finite (sx sy : bool) (mx my : positive) (ex ey : Z) :
  SFeqb (S754_finite sx mx ex) (S754_finite sy my ey) = true
  ↔ sx = sy ∧ mx = my ∧ ex = ey.
Proof.
  unfold SFeqb, SFcompare.
  destruct sx, sy; try (split; [done | by intros [? _]]);
    destruct (Z.compare_spec ex ey) as [->|Hlt|Hgt];
    try (split; [done | intros (_ & _ & ?); lia]);
    change (Pos.compare_cont Eq mx my) with (Pos.compare mx my);
    destruct (Pos.compare_spec mx my) as [->|Hlt|Hgt]; simpl;
    try (split; [done | intros (_ & ? & _); lia]); done.
Qed.

(** The difference of two finite binary64 numbers is a zero only if the
    two numbers are the same. *)
Lemma SFsub_finite_zero (sx sy : bool) (mx my : positive) (ex ey : Z) (z : bool) :
  bounded prec emax mx ex = true → bounded prec emax my ey = true →
  SFsub prec emax (S754_finite sy my ey) (S754_finite sx mx ex) = S754_zero z →
  sx = sy ∧ mx = my ∧ ex = ey.
Proof.
  intros Hx%canonical_exponent Hy%canonical_exponent. unfold SFsub.
  assert (SpecFloat.emin prec emax <= Z.min ey ex) as Hmin by lia.
  cbn zeta.
  destruct (cond_Zopp sy _ - cond_Zopp sx _) as [|d|d] eqn:Hd; cbn [binary_normalize].
  - intros _. unfold shl_align in Hd.
    pose proof (digits2_pos_iter_xO mx) as Hix.
    pose proof (digits2_pos_iter_xO my) as Hiy.
    destruct (Z.min ey ex - ey) as [|py|py] eqn:Hey;
      destruct (Z.min ey ex - ex) as [|px|px] eqn:Hex; try lia;
      cbn [fst] in Hd; destruct sx, sy; cbn [cond_Zopp] in Hd; try lia.
    all: try (assert (mx = my) by lia; assert (ex = ey) by lia; done).
    all: try (specialize (Hix px); specialize (Hiy px);
              assert (my = Pos.iter xO mx px) as Heq by lia; subst my; lia).
    all: try (specialize (Hix py); specialize (Hiy py);
              assert (mx = Pos.iter xO my py) as Heq by lia; subst mx; lia).
  - intros H. by apply binary_round_not_zero in H.
  - intros H. by apply binary_round_not_zero in H.
Qed.

Lemma finite_cases (x : float) :
  is_finite x = true →
  (∃ s, Prim2SF x = S754_zero s)
  ∨ (∃ s m e, Prim2SF x = S754_finite s m e ∧ bounded prec emax m e = true).
Proof.
  pose proof (Prim2SF_valid x) as Hvalid.
  unfold is_finite, is_nan, is_infinity.
  rewrite !FloatAxioms.eqb_spec, abs_spec.
  change (Prim2SF infinity) with (S754_infinity false).
  destruct (Prim2SF x) as [s|s| |s m e]; cbn.
  - eauto.
  - destruct s; discriminate.
  - discriminate.
  - right. eauto 10.
Qed.

Lemma SFeqb_zero_r (r : spec_float) :
  SFeqb r (S754_zero false) = true ↔ ∃ z, r = S754_zero z.
Proof.
  destruct r as [s|s| |s m e]; cbn.
  - split; eauto.
  - destruct s; split; try done; by intros [? ?].
  - split; try done; by intros [? ?].
  - destruct s; split; try done; by intros [? ?].
Qed.

(** On finite numbers, "new minus old is not zero" is [old != new]. *)
Lemma sub_nonzero_finite (x y : float) :
  is_finite x = true → is_finite y = true →
  nonZero (y - x) = negb (PrimFloat.eqb x y).
Proof.
  intros Hx Hy. unfold nonZero. f_equal.
  rewrite !FloatAxioms.eqb_spec, sub_spec.
  change (Prim2SF 0) with (S754_zero false).
  apply eq_true_iff_eq. rewrite SFeqb_zero_r.
  destruct (finite_cases x Hx) as [[sx ->] | (sx & mx & ex & -> & Hbx)];
    destruct (finite_cases y Hy) as [[sy ->] | (sy & my & ey & -> & Hby)].
  - split; [done|]. intros _. destruct sx, sy; cbn; eauto.
  - split; [by intros [? ?] | by destruct sy].
  - split; [by intros [? ?] | by destruct sx].
  - rewrite SFeqb_finite. split.
    + intros [z Hz]. by eapply SFsub_finite_zero.
    + intros (-> & -> & ->). exists false.
      unfold SF64sub, SFsub. cbn. by rewrite Z.sub_diag.
Qed.








(** ** strings.Contains is the substring test *)

Lemma append_String (c : ascii) (s r : string) :
  String c s ++ r = String c (s ++ r).
Proof. reflexivity. Qed.

Lemma append_Empty (r : string) : "" ++ r = r.
Proof. reflexivity. Qed.

Lemma prefix_app (sub s : string) :
  String.prefix sub s = true ↔ ∃ r, s = sub ++ r.
Proof.
  revert s. induction sub as [|c sub IH]; intros s.
  - destruct s; simpl; (split; [intros _; by eexists | done]).
  - destruct s as [|d s]; simpl.
    + split; [done | intros [r Hr]; discriminate].
    + setoid_rewrite append_String.
      destruct (Ascii.ascii_dec c d) as [->|Hne].
      * rewrite IH. split; intros [r Hr]; exists r; congruence.
      * split; [done | intros [r Hr]; congruence].
Qed.

Lemma Contains_nil (sub : string) : Contains "" sub = String.prefix sub "".
Proof. unfold Contains. apply orb_false_r. Qed.

Lemma Contains_cons (c : ascii) (s sub : string) :
  Contains (String c s) sub = String.prefix sub (String c s) || Contains s sub.
Proof. reflexivity. Qed.

Lemma Contains_spec (s sub : string) :
  Contains s sub = true ↔ ∃ l r, s = l ++ sub ++ r.
Proof.
  induction s as [|c s IH]; [rewrite Contains_nil | rewrite Contains_cons].
  - rewrite prefix_app. split.
    + intros [r Hr]. by exists "", r.
    + intros (l & r & H). destruct l; [by exists r | discriminate].
  - rewrite orb_true_iff, prefix_app, IH. split.
    + intros [[r Hr] | (l & r & Hr)].
      * by exists "", r.
      * exists (String c l), r. by rewrite append_String, Hr.
    + intros (l & r & H). destruct l as [|d l].
      * left. by exists r.
      * right. exists l, r. rewrite append_String in H. congruence.
Qed.

(** ** The semester guard *)

Lemma diffStages_not_Failed o a b e : diffStages o a b ≠ Failed e.
Proof.
  unfold diffStages. destruct (coursesAsMap _ _) as [aMap bMap].
  by destruct (diffCourseAssignments _ _).
Qed.

(** C1, as stated, fails: the label "Q1/Q3" holds a marker of the second
    half and "Q2" one of the first half, so the pair is one the claim
    speaks of, yet the guard lets it through (it tests the older label
    for a first-half marker before anything else) and a changeset comes
    back. *)
Lemma semester_guard_misses_mixed_label :
  differentHalves (Sample.gradebook "Q1/Q3" []) (Sample.gradebook "Q2" []) = true
  ∧ ∃ cs, CalcChangeset Order.inKeyOrder (Sample.gradebook "Q1/Q3" [])
                        (Sample.gradebook "Q2" []) = Returned cs.
Proof. split; [reflexivity | eexists; vm_compute; reflexivity]. Qed.

(** C1, amended: when the older label holds "Q1" or "Q2" and the newer
    "Q3" or "Q4", CalcChangeset returns the mismatch error carrying
    semesters 1 and 2; when the older label holds neither "Q1" nor "Q2"
    but "Q3" or "Q4", and the newer "Q1" or "Q2", it returns the error
    carrying 2 and 1.  No changeset is produced, and the courses play no
    part: the result is the same whatever the two course lists hold. *)
Theorem semester_mismatch_fails_fast (o : Order.t) (a b : Gradebook.t) :
  (firstSemesterLabel (label a) = true ∧ secondSemesterLabel (label b) = true)
  ∨ (firstSemesterLabel (label a) = false ∧ secondSemesterLabel (label a) = true
     ∧ firstSemesterLabel (label b) = true) →
  CalcChangeset o a b
  = Failed (if firstSemesterLabel (label a)
            then mkSemesterMismatchError 1 2
            else mkSemesterMismatchError 2 1)
  ∧ ∀ o' ca cb,
      CalcChangeset o' (Gradebook.mk (Gradebook.GradingPeriods a)
                                     (Gradebook.CurrentGradingPeriod a) ca)
                       (Gradebook.mk (Gradebook.GradingPeriods b)
                                     (Gradebook.CurrentGradingPeriod b) cb)
      = CalcChangeset o a b.
Proof.
  unfold CalcChangeset, gradebookSemestersMatch, firstSemesterLabel,
    secondSemesterLabel, label. simpl.
  intros [[Ha Hb] | (Ha & Ha' & Hb)]; rewrite Ha; [|rewrite Ha']; rewrite Hb;
    simpl; done.
Qed.

Lemma semester_mismatch_fails_fast_witness :
  CalcChangeset Order.inKeyOrder
    (Sample.gradebook "Q2 Progress" [Sample.algebra])
    (Sample.gradebook "Q3 Progress" [Sample.biology])
  = Failed (mkSemesterMismatchError 1 2).
Proof.
  apply (semester_mismatch_fails_fast Order.inKeyOrder
           (Sample.gradebook "Q2 Progress" [Sample.algebra])
           (Sample.gradebook "Q3 Progress" [Sample.biology])).
  left. split; reflexivity.
Defined.

(** C10: if either label holds none of "Q1", "Q2", "Q3", "Q4", the guard
    passes: CalcChangeset returns no mismatch error, whatever the other
    label is, and its result is that of the two diffing stages.  The
    guard depends on the two labels only through these four markers. *)
Theorem unmarked_label_passes_guard (o : Order.t) (a b : Gradebook.t) :
  noQuarterMarker (label a) = true ∨ noQuarterMarker (label b) = true →
  gradebookSemestersMatch a b = (0, 0, true)
  ∧ CalcChangeset o a b = diffStages o a b
  ∧ (∀ e, CalcChangeset o a b ≠ Failed e)
  ∧ (∀ a' b', markers (label a') = markers (label a) →
              markers (label b') = markers (label b) →
              gradebookSemestersMatch a' b' = gradebookSemestersMatch a b).
Proof.
  intros Hnone.
  assert (Hguard : gradebookSemestersMatch a b = (0, 0, true)).
  { unfold gradebookSemestersMatch. fold (label a) (label b).
    unfold noQuarterMarker in Hnone.
    destruct (Contains (label a) "Q1"), (Contains (label a) "Q2"),
      (Contains (label a) "Q3"), (Contains (label a) "Q4"),
      (Contains (label b) "Q1"), (Contains (label b) "Q2"),
      (Contains (label b) "Q3"), (Contains (label b) "Q4");
      simpl in *; destruct Hnone; done. }
  assert (Hcalc : CalcChangeset o a b = diffStages o a b).
  { unfold CalcChangeset. by rewrite Hguard. }
  split_and!; [done | done | |].
  - intros e. rewrite Hcalc. apply diffStages_not_Failed.
  - intros a' b' Ha Hb. unfold markers in Ha, Hb.
    injection Ha as Ha1 Ha2 Ha3 Ha4. injection Hb as Hb1 Hb2 Hb3 Hb4.
    unfold gradebookSemestersMatch. fold (label a) (label b) (label a') (label b').
    by rewrite Ha1, Ha2, Ha3, Ha4, Hb1, Hb2, Hb3, Hb4.
Qed.

Lemma unmarked_label_passes_guard_witness :
  gradebookSemestersMatch (Sample.gradebook "Semester 1" [Sample.algebra])
                          (Sample.gradebook "Q4" [Sample.algebra'])
  = (0, 0, true).
Proof.
  refine (proj1 (unmarked_label_passes_guard Order.inKeyOrder
                   (Sample.gradebook "Semester 1" [Sample.algebra])
                   (Sample.gradebook "Q4" [Sample.algebra']) _)).
  left. reflexivity.
Defined.

(** ** The current grading period *)

Lemma currentIndexFrom_find (name : string) (ps : list GradingPeriod.t) :
  currentIndexFrom name ps
  = match List.find (λ p, String.eqb (GradingPeriod.Name p) name) ps with
    | Some p => Z.quot (GradingPeriod.Index p) 2
    | None => 0
    end.
Proof.
  induction ps as [|p ps IH]; simpl; [done|].
  by destruct (String.eqb (GradingPeriod.Name p) name).
Qed.

Lemma setCurrentMarks_Some (idx : Z) (cs cs' : list Course.t) :
  setCurrentMarks idx cs = Some cs'
  ↔ Forall (λ c, is_Some (sliceAt (Course.Marks c) idx)) cs
    ∧ cs' = map (λ c, Course.setCurrentMark c (sliceAt (Course.Marks c) idx)) cs.
Proof.
  revert cs'. induction cs as [|c cs IH]; intros cs'; simpl.
  - split; [intros [= <-]; by split | by intros [_ ->]].
  - destruct (sliceAt (Course.Marks c) idx) as [m|] eqn:Hm; simpl.
    + destruct (setCurrentMarks idx cs) as [rest|] eqn:Hrest; simpl.
      * destruct (proj1 (IH rest) eq_refl) as [Hall ->]. split.
        -- intros [= <-]. split; [|done]. constructor; [by rewrite Hm | done].
        -- by intros [_ ->].
      * split; [done|]. intros [Hall _]. apply Forall_cons in Hall as [_ Hall].
        by pose proof (proj2 (IH _) (conj Hall eq_refl)).
    + split; [done|]. intros [Hall _]. apply Forall_cons in Hall as [Hc _].
      rewrite Hm in Hc. by destruct Hc.
Qed.

(** C9: the index that selects every course's CurrentMark is Index / 2,
    the quotient of Go's integer division, of the first grading period
    whose name equals the name of the current grading period, and 0 when
    no grading period has that name.  The decoder sets each CurrentMark to
    the mark at that index.  On a snapshot whose current period "Q3" is
    listed with Index 5 the index is 2; on one whose current period is
    not listed it is 0. *)
Theorem current_index_halves_matching_period (g : Gradebook.t) :
  CurrentGradingPeriodIndex g
  = match List.find (λ p, String.eqb (GradingPeriod.Name p) (label g))
                    (Gradebook.GradingPeriods g) with
    | Some p => Z.quot (GradingPeriod.Index p) 2
    | None => 0
    end
  ∧ (∀ pre p post,
       Gradebook.GradingPeriods g = (pre ++ p :: post)%list →
       Forall (λ q, GradingPeriod.Name q ≠ label g) pre →
       GradingPeriod.Name p = label g →
       CurrentGradingPeriodIndex g = Z.quot (GradingPeriod.Index p) 2)
  ∧ (Forall (λ q, GradingPeriod.Name q ≠ label g) (Gradebook.GradingPeriods g) →
     CurrentGradingPeriodIndex g = 0)
  ∧ (∀ g', selectCurrentMarks g = Some g' ↔
       Forall (λ c, is_Some (sliceAt (Course.Marks c) (CurrentGradingPeriodIndex g)))
              (Gradebook.Courses g)
       ∧ g' = Gradebook.mk (Gradebook.GradingPeriods g)
                (Gradebook.CurrentGradingPeriod g)
                (map (λ c, Course.setCurrentMark c
                             (sliceAt (Course.Marks c) (CurrentGradingPeriodIndex g)))
                     (Gradebook.Courses g)))
  ∧ CurrentGradingPeriodIndex
      (Gradebook.mk [Sample.period 4 "Q2"; Sample.period 5 "Q3"; Sample.period 6 "Q3"]
                    (Sample.period 0 "Q3") []) = 2
  ∧ CurrentGradingPeriodIndex
      (Gradebook.mk [Sample.period 4 "Q2"; Sample.period 5 "Q3"]
                    (Sample.period 7 "Q4") []) = 0.
Proof.
  split_and!; [apply currentIndexFrom_find | | | | reflexivity | reflexivity].
  - unfold CurrentGradingPeriodIndex. fold (label g).
    intros pre p post -> Hpre Hp. induction Hpre as [|q pre Hq _ IH]; simpl.
    + rewrite Hp. by rewrite String.eqb_refl.
    + by rewrite (proj2 (String.eqb_neq _ _) Hq).
  - unfold CurrentGradingPeriodIndex. fold (label g).
    induction 1 as [|q ps Hq _ IH]; simpl; [done|].
    by rewrite (proj2 (String.eqb_neq _ _) Hq).
  - intros g'. unfold selectCurrentMarks.
    destruct (setCurrentMarks _ _) as [cs|] eqn:Hcs; simpl.
    + apply setCurrentMarks_Some in Hcs as [Hall ->]. split.
      * by intros [= <-].
      * by intros [_ ->].
    + split; [done|]. intros [Hall _].
      pose proof (proj2 (setCurrentMarks_Some _ _ _) (conj Hall eq_refl)) as H.
      congruence.
Qed.

(** ** The pairwise diff of two assignments *)

(** C6: for a matched pair (a, b), diffAssignments adds a change record
    exactly when at least one of Name, Score.Score, Score.PossibleScore,
    Points.Points, Points.PossiblePoints changed; otherwise it adds
    nothing.  A numeric field changed when new minus old is not zero,
    which on finite numbers (the only ones the score and points decoders
    produce) is Go's [a != b].  The record holds both assignments, both
    Score and both Points structures, and ScoreIncrease =
    (b.Score.Score - a.Score.Score > 0), PointsIncrease =
    (b.Points.Points - a.Points.Points > 0).  For 8 out of 10 against 9
    out of 10 the record has ScoreIncrease and ScoreChange set and
    PossibleScoreChange clear. *)
Theorem diffAssignments_records_changes (cc : CourseChange.t) (a b : Assignment.t) :
  (assignmentChanged a b = false → diffAssignments cc a b = cc)
  ∧ (assignmentChanged a b = true →
     ∃ ca, diffAssignments cc a b = CourseChange.addChange cc ca
       ∧ CourseAssignmentChange.Before ca = a
       ∧ CourseAssignmentChange.After ca = b
       ∧ CourseAssignmentChange.PreviousScore ca = Assignment.Score a
       ∧ CourseAssignmentChange.NewScore ca = Assignment.Score b
       ∧ CourseAssignmentChange.PreviousPoints ca = Assignment.Points a
       ∧ CourseAssignmentChange.NewPoints ca = Assignment.Points b
       ∧ CourseAssignmentChange.ScoreIncrease ca
         = aboveZero (AssignmentScore.Score (Assignment.Score b)
                      - AssignmentScore.Score (Assignment.Score a))
       ∧ CourseAssignmentChange.PointsIncrease ca
         = aboveZero (AssignmentPoints.Points (Assignment.Points b)
                      - AssignmentPoints.Points (Assignment.Points a))
       ∧ CourseAssignmentChange.NameChange ca
         = negb (String.eqb (Assignment.Name a) (Assignment.Name b))
       ∧ CourseAssignmentChange.ScoreChange ca
         = differs (AssignmentScore.Score (Assignment.Score a))
                   (AssignmentScore.Score (Assignment.Score b))
       ∧ CourseAssignmentChange.PossibleScoreChange ca
         = differs (AssignmentScore.PossibleScore (Assignment.Score a))
                   (AssignmentScore.PossibleScore (Assignment.Score b))
       ∧ CourseAssignmentChange.PointsChange ca
         = differs (AssignmentPoints.Points (Assignment.Points a))
                   (AssignmentPoints.Points (Assignment.Points b)))
  ∧ (finiteAssignment a = true → finiteAssignment b = true →
     assignmentChanged a b = fieldsDiffer a b)
  ∧ (∃ ca, CourseChange.AssignmentChanges
             (diffAssignments (CourseChange.new Sample.algebra) Sample.g1 Sample.g1')
           = [ca]
       ∧ CourseAssignmentChange.ScoreIncrease ca = true
       ∧ CourseAssignmentChange.ScoreChange ca = true
       ∧ CourseAssignmentChange.PossibleScoreChange ca = false).
Proof.
  split_and!.
  - unfold assignmentChanged, diffAssignments, differs. intros H.
    repeat (apply orb_false_elim in H as [H ?]).
    repeat match goal with Hx : _ = false |- _ => rewrite Hx; clear Hx end.
    reflexivity.
  - unfold assignmentChanged, diffAssignments, differs.
    destruct (negb (String.eqb (Assignment.Name a) (Assignment.Name b))),
      (nonZero (AssignmentScore.Score (Assignment.Score b)
                - AssignmentScore.Score (Assignment.Score a))),
      (nonZero (AssignmentScore.PossibleScore (Assignment.Score b)
                - AssignmentScore.PossibleScore (Assignment.Score a))),
      (nonZero (AssignmentPoints.Points (Assignment.Points b)
                - AssignmentPoints.Points (Assignment.Points a))),
      (nonZero (AssignmentPoints.PossiblePoints (Assignment.Points b)
                - AssignmentPoints.PossiblePoints (Assignment.Points a)));
      simpl; intros H; try discriminate H;
      (eexists; split; [reflexivity|]; by split_and!).
  - unfold finiteAssignment, assignmentChanged, fieldsDiffer, differs.
    rewrite !andb_true_iff. intros [[[? ?] ?] ?] [[[? ?] ?] ?].
    by rewrite !sub_nonzero_finite.
  - eexists. split; [vm_compute; reflexivity|]. by split_and!.
Qed.

(** ** The three passes never panic *)

Lemma positionalPass_exhausted (la : list Assignment.t) (aC bC : Z) (k : nat)
    (cc : CourseChange.t) (bAs : list (option Assignment.t))
    (nfA nfB : gmap string Assignment.t) :
  (bC < aC)%Z → (bC ≤ Z.of_nat k)%Z →
  positionalPass aC bC k la (Frame.mk cc bAs nfA nfB)
  = let '(cc', nfA', nfB') := sideBySide la [] cc nfA nfB in
    Some (Frame.mk cc' bAs nfA' nfB').
Proof.
  intros Hlt. revert k nfA. induction la as [|a la IH]; intros k nfA Hk; [done|].
  simpl. rewrite (proj2 (Z.ltb_lt _ _) Hlt), (proj2 (Z.leb_le _ _) Hk). simpl.
  apply IH. lia.
Qed.

Lemma positionalPass_sideBySide (la lb : list Assignment.t)
    (pre : list (option Assignment.t)) (cc : CourseChange.t)
    (nfA nfB : gmap string Assignment.t) (aC bC : Z) :
  aC = Z.of_nat (length pre + length la) →
  bC = Z.of_nat (length pre + length lb) →
  positionalPass aC bC (length pre) la (Frame.mk cc (pre ++ (Some <$> lb)) nfA nfB)
  = let '(cc', nfA', nfB') := sideBySide la lb cc nfA nfB in
    Some (Frame.mk cc' (pre ++ slotsAfter la lb) nfA' nfB').
Proof.
  revert lb pre cc nfA nfB.
  induction la as [|a la IH]; intros lb pre cc nfA nfB HaC HbC; [done|].
  destruct lb as [|b lb].
  - apply positionalPass_exhausted; simpl in *; lia.
  - cbn [positionalPass positionalStep].
    assert ((bC <=? Z.of_nat (length pre))%Z = false) as ->
      by (apply Z.leb_gt; simpl in *; lia).
    rewrite andb_false_r. cbn [fmap list_fmap].
    rewrite list_lookup_middle by done. cbn [mbind option_bind].
    replace (<[length pre := None]> (pre ++ Some b :: (Some <$> lb))%list)
      with ((pre ++ [None]) ++ (Some <$> lb))%list.
    2:{ rewrite <- app_assoc.
        pose proof (insert_app_r pre (Some b :: (Some <$> lb)) 0 None) as Hins.
        rewrite Nat.add_0_r in Hins. by rewrite Hins. }
    assert (S (length pre) = length (pre ++ [None])%list) as Hlen
      by (rewrite length_app; simpl; lia).
    cbn [sideBySide slotsAfter].
    destruct (String.eqb _ _); cbn [mbind option_bind]; rewrite Hlen, IH;
      try (rewrite length_app; simpl in *; lia);
      destruct (sideBySide _ _ _ _ _) as [[cc' nfA'] nfB'];
      by rewrite <- app_assoc.
Qed.

Lemma lookupStep_no_live (ks : list nat) (f : Frame.t) :
  (∀ k b, Frame.bAssignments f !! k ≠ Some (Some b)) →
  foldl lookupStep f ks = f.
Proof.
  intros Hdead. induction ks as [|k ks IH]; [done|]. simpl.
  replace (lookupStep f k) with f; [done|].
  destruct f as [cc bAs nfA nfB]. simpl in *.
  destruct (bAs !! k) as [[b|]|] eqn:Hk; [by destruct (Hdead k b) | done | done].
Qed.

Lemma slotsAfter_no_live (la lb : list Assignment.t) :
  (length lb ≤ length la)%nat → ∀ k b, slotsAfter la lb !! k ≠ Some (Some b).
Proof.
  revert lb. induction la as [|a la IH]; intros [|b' lb] Hlen k b;
    simpl in *; try done; try lia.
  destruct k as [|k]; [done|]. simpl. apply IH. lia.
Qed.

(** Given the two current marks, the reconciliation of their assignment
    lists returns: no slot is read out of range and no consumed slot is
    dereferenced, whatever the lengths of the two lists. *)
Lemma reconcileAssignments_returns (o : Order.t) (p : Z) (ac : Course.t)
    (am bm : CourseMark.t) :
  is_Some (reconcileAssignments o p ac am bm).
Proof.
  unfold reconcileAssignments. rewrite length_fmap.
  rewrite (positionalPass_sideBySide _ (CourseMark.Assignments bm) [] _ ∅ ∅) by done.
  destruct (sideBySide _ _ _ _ _) as [[cc' nfA'] nfB']. by eexists.
Qed.

Lemma diffCoursePair_returns (o : Order.t) (p : Z) (ac bc : Course.t) :
  is_Some (Course.CurrentMark ac) → is_Some (Course.CurrentMark bc) →
  is_Some (diffCoursePair o p ac (Some bc)).
Proof.
  intros [am Ham] [bm Hbm]. unfold diffCoursePair. simpl. rewrite Ham, Hbm. simpl.
  destruct (reconcileAssignments_returns o p ac am bm) as [cc ->]. by eexists.
Qed.

(** ** What the passes leave alone *)

Lemma foldl_preserves {S K : Type} (P : S → Prop) (step : S → K → S)
    (ks : list K) (s : S) :
  (∀ s k, P s → P (step s k)) → P s → P (foldl step s ks).
Proof. intros Hstep. revert s. induction ks; simpl; auto. Qed.

Lemma diffAssignments_sameHead cc a b : sameHead cc (diffAssignments cc a b).
Proof. unfold diffAssignments. by destruct (_ && _). Qed.

Lemma diffAssignments_sameEnds cc a b : sameEnds cc (diffAssignments cc a b).
Proof. unfold diffAssignments. by destruct (_ && _). Qed.

Lemma sameHead_trans cc1 cc2 cc3 :
  sameHead cc1 cc2 → sameHead cc2 cc3 → sameHead cc1 cc3.
Proof. unfold sameHead. intros [-> ->] [-> ->]. done. Qed.

Lemma sameEnds_trans cc1 cc2 cc3 :
  sameEnds cc1 cc2 → sameEnds cc2 cc3 → sameEnds cc1 cc3.
Proof. unfold sameEnds. intros [-> ->] [-> ->]. done. Qed.

Lemma sideBySide_same la lb cc nfA nfB :
  sameHead cc (sideBySide la lb cc nfA nfB).1.1
  ∧ sameEnds cc (sideBySide la lb cc nfA nfB).1.1.
Proof.
  revert lb cc nfA nfB. induction la as [|a la IH]; intros lb cc nfA nfB; [done|].
  destruct lb as [|b lb]; simpl; [apply IH|].
  destruct (String.eqb _ _); [|apply IH].
  destruct (IH lb (diffAssignments cc a b) nfA nfB) as [Hh He]. split.
  - eapply sameHead_trans; [apply diffAssignments_sameHead | done].
  - eapply sameEnds_trans; [apply diffAssignments_sameEnds | done].
Qed.

Lemma lookupStep_same cc0 f k :
  sameHead cc0 (Frame.cc f) → sameHead cc0 (Frame.cc (lookupStep f k)).
Proof.
  destruct f as [cc bAs nfA nfB]. simpl.
  destruct (bAs !! k) as [[b|]|]; try done.
  destruct (nfA !! _); [|done]. simpl. intros H.
  eapply sameHead_trans; [done | apply diffAssignments_sameHead].
Qed.

Lemma leftoverStep_sameHead cc0 f gid :
  sameHead cc0 (Frame.cc f) → sameHead cc0 (Frame.cc (leftoverStep f gid)).
Proof.
  destruct f as [cc bAs nfA nfB]. simpl.
  destruct (nfA !! gid); [|done]. destruct (nfB !! gid); [|done]. simpl.
  intros H. eapply sameHead_trans; [done | apply diffAssignments_sameHead].
Qed.

Lemma additionStep_sameHead cc0 f gid :
  sameHead cc0 (Frame.cc f) → sameHead cc0 (Frame.cc (additionStep f gid)).
Proof.
  destruct f as [cc bAs nfA nfB]. simpl. by destruct (nfB !! gid).
Qed.

Lemma reconcileAssignments_head o p ac am bm cc :
  reconcileAssignments o p ac am bm = Some cc →
  CourseChange.Course cc = ac ∧ CourseChange.GradeChange cc = None.
Proof.
  unfold reconcileAssignments. rewrite length_fmap.
  rewrite (positionalPass_sideBySide _ (CourseMark.Assignments bm) [] _ ∅ ∅) by done.
  pose proof (sideBySide_same (CourseMark.Assignments am) (CourseMark.Assignments bm)
                (CourseChange.new ac) ∅ ∅) as [Hhead _].
  destruct (sideBySide _ _ _ _ _) as [[cc' nfA'] nfB']. simpl in *.
  intros [= <-].
  apply (foldl_preserves (λ f, sameHead (CourseChange.new ac) (Frame.cc f)));
    [apply additionStep_sameHead|].
  apply (foldl_preserves (λ f, sameHead (CourseChange.new ac) (Frame.cc f)));
    [apply leftoverStep_sameHead|].
  apply (foldl_preserves (λ f, sameHead (CourseChange.new ac) (Frame.cc f)));
    [apply lookupStep_same|].
  done.
Qed.

(** ** Grade-change detection *)



(** ** Visit orders *)

Lemma inKeyOrder_valid : Order.valid Order.inKeyOrder.
Proof. by constructor. Qed.

Lemma reversed_valid : Order.valid Order.reversed.
Proof. constructor; intros; simpl; symmetry; apply Permutation_rev. Qed.

Lemma elem_of_rangeKeys {K V : Type} `{Countable K}
    (perm : list K → list K) (m : gmap K V) (k : K) :
  (∀ l, perm l ≡ₚ l) → k ∈ rangeKeys perm m ↔ is_Some (m !! k).
Proof.
  intros Hperm. unfold rangeKeys. rewrite (Hperm _), list_elem_of_fmap. split.
  - intros ([k' v] & -> & Hin). apply elem_of_map_to_list in Hin. by eexists.
  - intros [v Hv]. exists (k, v). split; [done|]. by apply elem_of_map_to_list.
Qed.

Lemma NoDup_rangeKeys {K V : Type} `{Countable K}
    (perm : list K → list K) (m : gmap K V) :
  (∀ l, perm l ≡ₚ l) → NoDup (rangeKeys perm m).
Proof.
  intros Hperm. unfold rangeKeys. rewrite (Hperm _). apply NoDup_fst_map_to_list.
Qed.

(** ** Reordered assignments *)

Lemma staged_split (la lb : list Assignment.t) :
  length la = length lb →
  gradebookIDs la ≡ₚ (matchedInPlace la lb ++ stagedA la lb)%list
  ∧ gradebookIDs lb ≡ₚ (matchedInPlace la lb ++ stagedB la lb)%list.
Proof.
  revert lb. induction la as [|a la IH]; intros [|b lb] Hlen; try done.
  injection Hlen as Hlen. destruct (IH lb Hlen) as [HA HB]. simpl.
  destruct (String.eqb_spec (Assignment.GradebookID a) (Assignment.GradebookID b))
    as [Heq|Hne]; simpl.
  - rewrite <- Heq. split; by constructor.
  - split; (etrans; [apply perm_skip; eassumption|]); apply Permutation_middle.
Qed.

Lemma staged_same_IDs (la lb : list Assignment.t) :
  gradebookIDs lb ≡ₚ gradebookIDs la → stagedA la lb ≡ₚ stagedB la lb.
Proof.
  intros Hperm.
  assert (length la = length lb) as Hlen.
  { apply Permutation_length in Hperm. unfold gradebookIDs in Hperm.
    by rewrite !length_fmap in Hperm. }
  destruct (staged_split la lb Hlen) as [HA HB].
  apply (Permutation_app_inv_l (matchedInPlace la lb)).
  by rewrite <- HA, <- HB.
Qed.

Lemma diffAssignments_pairsByID cc a b :
  Assignment.GradebookID a = Assignment.GradebookID b →
  pairsByID cc → pairsByID (diffAssignments cc a b).
Proof.
  intros Hid Hcc. unfold diffAssignments. destruct (_ && _); [done|].
  unfold pairsByID. simpl. apply Forall_app. split; [done|]. by constructor.
Qed.

Lemma filedByID_insert (m : gmap string Assignment.t) (a : Assignment.t) :
  filedByID m → filedByID (<[Assignment.GradebookID a := a]> m).
Proof.
  intros Hm g a'. rewrite lookup_insert. case_decide; [naive_solver | apply Hm].
Qed.

Lemma filedByID_delete (m : gmap string Assignment.t) (g : string) :
  filedByID m → filedByID (delete g m).
Proof.
  intros Hm g' a'. rewrite lookup_delete. case_decide; [done | apply Hm].
Qed.

Lemma sideBySide_pools (la lb : list Assignment.t) (cc : CourseChange.t)
    (nfA nfB : gmap string Assignment.t) :
  length la = length lb → filedByID nfA → filedByID nfB → pairsByID cc →
  let '(cc', nfA', nfB') := sideBySide la lb cc nfA nfB in
  dom nfA' = dom nfA ∪ list_to_set (stagedA la lb)
  ∧ dom nfB' = dom nfB ∪ list_to_set (stagedB la lb)
  ∧ filedByID nfA' ∧ filedByID nfB' ∧ pairsByID cc'.
Proof.
  revert lb cc nfA nfB.
  induction la as [|a la IH]; intros [|b lb] cc nfA nfB Hlen HfA HfB Hcc;
    try done; simpl.
  - split_and!; [set_solver | set_solver | done..].
  - injection Hlen as Hlen.
    destruct (String.eqb_spec (Assignment.GradebookID a) (Assignment.GradebookID b))
      as [Heq|Hne].
    + apply IH; [done..|]. by apply diffAssignments_pairsByID.
    + specialize (IH lb cc (<[Assignment.GradebookID a := a]> nfA)
                    (<[Assignment.GradebookID b := b]> nfB) Hlen
                    (filedByID_insert _ _ HfA) (filedByID_insert _ _ HfB) Hcc).
      destruct (sideBySide _ _ _ _ _) as [[cc' nfA'] nfB'].
      destruct IH as (HdA & HdB & ? & ? & ?).
      rewrite HdA, HdB, !dom_insert_L. split_and!; [set_solver | set_solver | done..].
Qed.

(** Pass 3 when both pools hold the same IDs: every leftover of the older
    snapshot finds its counterpart, nothing is reported as removed, and
    the visited IDs leave both pools. *)
Lemma leftoverLoop_same_IDs (ks : list string) (f : Frame.t) (cc0 : CourseChange.t) :
  dom (Frame.notFoundAAssignments f) = dom (Frame.notFoundBAssignments f) →
  filedByID (Frame.notFoundAAssignments f) →
  filedByID (Frame.notFoundBAssignments f) →
  sameEnds cc0 (Frame.cc f) → pairsByID (Frame.cc f) →
  let f' := foldl leftoverStep f ks in
  dom (Frame.notFoundAAssignments f') = dom (Frame.notFoundBAssignments f')
  ∧ dom (Frame.notFoundAAssignments f')
    = dom (Frame.notFoundAAssignments f) ∖ list_to_set ks
  ∧ sameEnds cc0 (Frame.cc f') ∧ pairsByID (Frame.cc f').
Proof.
  revert f. induction ks as [|k ks IH]; intros f Hdom HfA HfB Hends Hpairs.
  { simpl. split_and!; [done | set_solver | done..]. }
  cbn [foldl]. cbn zeta.
  assert (dom (Frame.notFoundAAssignments (leftoverStep f k))
          = dom (Frame.notFoundBAssignments (leftoverStep f k))
          ∧ dom (Frame.notFoundAAssignments (leftoverStep f k))
            = dom (Frame.notFoundAAssignments f) ∖ {[k]}
          ∧ filedByID (Frame.notFoundAAssignments (leftoverStep f k))
          ∧ filedByID (Frame.notFoundBAssignments (leftoverStep f k))
          ∧ sameEnds cc0 (Frame.cc (leftoverStep f k))
          ∧ pairsByID (Frame.cc (leftoverStep f k))) as (H1 & H2 & H3 & H4 & H5 & H6).
  { destruct f as [cc bAs nfA nfB]. simpl in *.
    destruct (nfA !! k) as [a|] eqn:Ha.
    - assert (is_Some (nfB !! k)) as [b Hb].
      { apply elem_of_dom. rewrite <- Hdom. apply elem_of_dom. by eexists. }
      rewrite Hb. simpl. rewrite !dom_delete_L, Hdom.
      split_and!; [done | done | by apply filedByID_delete
                   | by apply filedByID_delete | |].
      + eapply sameEnds_trans; [done | apply diffAssignments_sameEnds].
      + apply diffAssignments_pairsByID; [|done].
        by rewrite (HfA _ _ Ha), (HfB _ _ Hb).
    - simpl. split_and!; try done.
      apply not_elem_of_dom in Ha. set_solver. }
  destruct (IH _ H1 H3 H4 H5 H6) as (I1 & I2 & I3 & I4).
  split_and!; [done | | done | done].
  rewrite I2, H2. set_solver.
Qed.

Lemma additionStep_empty_pool (ks : list string) (f : Frame.t) :
  Frame.notFoundBAssignments f = ∅ → foldl additionStep f ks = f.
Proof.
  intros Hempty. induction ks as [|k ks IH]; [done|]. simpl.
  replace (additionStep f k) with f; [done|].
  destruct f as [cc bAs nfA nfB]. simpl in *. by rewrite Hempty, lookup_empty.
Qed.

(** The reconciliation of two lists holding the same GradebookIDs, in any
    two orders. *)
Lemma reconcile_same_IDs (o : Order.t) (p : Z) (ac : Course.t)
    (am bm : CourseMark.t) :
  Order.valid o →
  gradebookIDs (CourseMark.Assignments bm) ≡ₚ gradebookIDs (CourseMark.Assignments am) →
  ∃ cc, reconcileAssignments o p ac am bm = Some cc
    ∧ CourseChange.AssignmentAdditions cc = []
    ∧ CourseChange.AssignmentRemovals cc = []
    ∧ pairsByID cc.
Proof.
  intros Ho Hperm. unfold reconcileAssignments. rewrite length_fmap.
  rewrite (positionalPass_sideBySide _ (CourseMark.Assignments bm) [] _ ∅ ∅) by done.
  assert (length (CourseMark.Assignments am) = length (CourseMark.Assignments bm))
    as Hlen.
  { apply Permutation_length in Hperm. unfold gradebookIDs in Hperm.
    by rewrite !length_fmap in Hperm. }
  pose proof (sideBySide_pools (CourseMark.Assignments am) (CourseMark.Assignments bm)
                (CourseChange.new ac) ∅ ∅ Hlen) as Hpools.
  pose proof (sideBySide_same (CourseMark.Assignments am) (CourseMark.Assignments bm)
                (CourseChange.new ac) ∅ ∅) as [_ Hends].
  destruct (sideBySide _ _ _ _ _) as [[cc1 nfA1] nfB1]. simpl in Hends.
  destruct Hpools as (HdA & HdB & HfA & HfB & Hpairs);
    [done | done | by constructor |].
  cbn [mbind option_bind]. eexists. split; [reflexivity|].
  rewrite lookupStep_no_live
    by (simpl; apply slotsAfter_no_live; lia).
  set (f1 := Frame.mk cc1 _ nfA1 nfB1).
  assert (dom nfA1 = dom nfB1) as Hdom.
  { rewrite HdA, HdB. f_equal. apply set_eq. intros g.
    rewrite !elem_of_list_to_set. by rewrite (staged_same_IDs _ _ Hperm). }
  destruct (leftoverLoop_same_IDs
              (rangeKeys (Order.notFoundALoop o p) nfA1) f1 (CourseChange.new ac))
    as (Hdom' & Hgone & Hends' & Hpairs'); [done..|].
  set (f2 := foldl leftoverStep f1 _) in *.
  assert (Frame.notFoundBAssignments f2 = ∅) as Hempty.
  { apply dom_empty_iff_L. rewrite <- Hdom', Hgone. apply set_eq. intros g.
    rewrite elem_of_difference, elem_of_list_to_set, elem_of_rangeKeys
      by apply (Order.notFoundALoop_perm o Ho).
    rewrite elem_of_dom. set_solver. }
  rewrite additionStep_empty_pool by done.
  destruct Hends' as [-> ->]. done.
Qed.

(** C5: when the two current marks of a paired course hold the same
    assignments, with distinct GradebookIDs, in different orders, the
    reconciliation reports no addition and no removal: every assignment is
    compared with the assignment of the same GradebookID, wherever it
    stands (every change record pairs two assignments with one ID). *)
Theorem reordered_assignments_match_by_id (o : Order.t) (p : Z)
    (ac bc : Course.t) (am bm : CourseMark.t) :
  Order.valid o →
  Course.CurrentMark ac = Some am →
  Course.CurrentMark bc = Some bm →
  NoDup (gradebookIDs (CourseMark.Assignments am)) →
  CourseMark.Assignments bm ≡ₚ CourseMark.Assignments am →
  ∃ cc, diffCoursePair o p ac (Some bc) = Some cc
    ∧ CourseChange.AssignmentAdditions cc = []
    ∧ CourseChange.AssignmentRemovals cc = []
    ∧ pairsByID cc.
Proof.
  intros Ho Ham Hbm _ Hperm.
  destruct (reconcile_same_IDs o p ac am bm Ho) as (cc & Hcc & Hadd & Hrem & Hpairs).
  { unfold gradebookIDs. by rewrite Hperm. }
  unfold diffCoursePair. simpl. rewrite Ham, Hbm. simpl. rewrite Hcc. simpl.
  eexists. split; [reflexivity|].
  unfold gradeChange, pairsByID in *. by destruct (nonZero _).
Qed.

(** [g1, g2] in the older snapshot against [g2, g1] in the newer one. *)
Lemma reordered_assignments_match_by_id_witness :
  ∃ cc, diffCoursePair Order.reversed 1 Sample.algebra (Some Sample.shuffled) = Some cc
    ∧ CourseChange.AssignmentAdditions cc = []
    ∧ CourseChange.AssignmentRemovals cc = []
    ∧ pairsByID cc.
Proof.
  refine (reordered_assignments_match_by_id Order.reversed 1 Sample.algebra
            Sample.shuffled _ _ reversed_valid eq_refl eq_refl _ _).
  - apply (bool_decide_unpack _). vm_compute. reflexivity.
  - apply perm_swap.
Defined.

(** ** A snapshot against itself *)

Lemma sub_self_finite (x : float) : is_finite x = true → nonZero (x - x) = false.
Proof.
  unfold nonZero, is_finite, is_nan, is_infinity.
  rewrite !FloatAxioms.eqb_spec, FloatAxioms.sub_spec, FloatAxioms.abs_spec.
  change (Prim2SF 0) with (SpecFloat.S754_zero false).
  change (Prim2SF infinity) with (SpecFloat.S754_infinity false).
  destruct (Prim2SF x) as [s|s| |s m e]; cbn.
  - destruct s; reflexivity.
  - destruct s; discriminate.
  - discriminate.
  - intros _. unfold SF64sub, SpecFloat.SFsub. cbn. rewrite Z.sub_diag. reflexivity.
Qed.

Lemma diffAssignments_self (cc : CourseChange.t) (a : Assignment.t) :
  finiteAssignment a = true → diffAssignments cc a a = cc.
Proof.
  unfold finiteAssignment. rewrite !andb_true_iff. intros [[[H1 H2] H3] H4].
  unfold diffAssignments.
  by rewrite String.eqb_refl, !sub_self_finite.
Qed.

Lemma sideBySide_self (l : list Assignment.t) (cc : CourseChange.t)
    (nfA nfB : gmap string Assignment.t) :
  forallb finiteAssignment l = true → sideBySide l l cc nfA nfB = (cc, nfA, nfB).
Proof.
  induction l as [|a l IH]; [done|]. simpl. rewrite andb_true_iff. intros [Ha Hl].
  by rewrite String.eqb_refl, diffAssignments_self, IH.
Qed.

Lemma worthReporting_new (ac : Course.t) : worthReporting (CourseChange.new ac) = false.
Proof.
  reflexivity.
Qed.

(** A course paired with itself yields the empty change record. *)
Lemma diffCoursePair_self (o : Order.t) (p : Z) (ac : Course.t) :
  readyCourse ac = true →
  diffCoursePair o p ac (Some ac) = Some (CourseChange.new ac).
Proof.
  unfold readyCourse, finiteMark, diffCoursePair. simpl.
  destruct (Course.CurrentMark ac) as [m|]; [|done].
  rewrite andb_true_iff. intros [Hraw Hall]. simpl.
  unfold reconcileAssignments. rewrite length_fmap.
  rewrite (positionalPass_sideBySide _ (CourseMark.Assignments m) [] _ ∅ ∅) by done.
  rewrite sideBySide_self by done. cbn [mbind option_bind].
  rewrite lookupStep_no_live by (simpl; apply slotsAfter_no_live; lia).
  assert (∀ (ks : list string) f, Frame.notFoundAAssignments f = ∅ →
            foldl leftoverStep f ks = f) as Hleft.
  { intros ks f Hf. induction ks as [|k ks IH]; [done|]. simpl.
    replace (leftoverStep f k) with f; [done|].
    destruct f as [cc bAs nfA nfB]. simpl in *. by rewrite Hf, lookup_empty. }
  rewrite Hleft by done. rewrite additionStep_empty_pool by done. simpl.
  unfold gradeChange. by rewrite sub_self_finite.
Qed.

Lemma setBMap_setBMap (cs : Changeset.t) (m1 m2 : gmap Z Course.t) :
  Changeset.setBMap (Changeset.setBMap cs m1) m2 = Changeset.setBMap cs m2.
Proof. by destruct cs. Qed.

(** The first loop of diffCourseSets when the newer map holds, at every
    period to visit, the very course of the older map: each period is
    paired in place and leaves the pool. *)
Lemma dropsLoop_in_place (o : Order.t) (ks : list Z) (cs : Changeset.t)
    (nb : gmap Z Course.t) :
  NoDup ks →
  (∀ k, k ∈ ks → is_Some (Changeset.aMap cs !! k)
                 ∧ Changeset.bMap cs !! k = Changeset.aMap cs !! k) →
  ∃ bm' nb',
    foldl (dropsStep o) (cs, nb) ks = (Changeset.setBMap cs bm', nb')
    ∧ (∀ k, bm' !! k = if decide (k ∈ ks) then None else Changeset.bMap cs !! k)
    ∧ (∀ k, nb' !! k = if decide (k ∈ ks) then Changeset.aMap cs !! k else nb !! k).
Proof.
  revert cs nb. induction ks as [|k ks IH]; intros cs nb Hnd Hks.
  { exists (Changeset.bMap cs), nb. split; [by destruct cs | done]. }
  apply NoDup_cons in Hnd as [Hk Hnd].
  destruct (Hks k) as [[ac Hac] Hbc]; [by left|]. rewrite Hac in Hbc.
  cbn [foldl]. unfold dropsStep at 2. rewrite Hac, Hbc, String.eqb_refl.
  destruct (IH (Changeset.setBMap cs (delete k (Changeset.bMap cs))) (<[k := ac]> nb) Hnd)
    as (bm' & nb' & Hrun & Hbm & Hnb).
  { intros j Hj. assert (j ≠ k) by (intros ->; done).
    destruct cs; simpl in *. rewrite lookup_delete_ne by done. apply Hks. by right. }
  exists bm', nb'. rewrite Hrun, setBMap_setBMap. split; [done|]. split; intros j.
  - rewrite Hbm. destruct cs; simpl.
    destruct (decide (j = k)) as [->|Hne].
    + rewrite lookup_delete_eq. rewrite (decide_True (P := k ∈ k :: ks)) by left.
      by case_decide.
    + rewrite lookup_delete_ne by done.
      repeat case_decide; try done; set_solver.
  - rewrite Hnb. destruct cs; simpl in *.
    destruct (decide (j = k)) as [->|Hne].
    + rewrite (decide_False (P := k ∈ ks)) by done.
      rewrite (decide_True (P := k ∈ k :: ks)) by left.
      by rewrite lookup_insert_eq.
    + rewrite lookup_insert_ne by done.
      repeat case_decide; try done; set_solver.
Qed.

Lemma additionsStep_empty_pool (o : Order.t) (ks : list Z) (cs : Changeset.t)
    (nb : gmap Z Course.t) :
  Changeset.bMap cs = ∅ → foldl (additionsStep o) (cs, nb) ks = (cs, nb).
Proof.
  intros Hempty. induction ks as [|k ks IH]; [done|]. simpl.
  by rewrite Hempty, lookup_empty.
Qed.

(** The course-set diff of a map against itself changes nothing. *)
Lemma diffCourseSets_self (o : Order.t) (a b : Gradebook.t) (m : gmap Z Course.t) :
  Order.valid o →
  diffCourseSets o (Changeset.mk a b m m [] [] [] [])
  = Changeset.mk a b m m [] [] [] [].
Proof.
  intros Ho. unfold diffCourseSets.
  set (cs0 := Changeset.mk a b m m [] [] [] []).
  destruct (dropsLoop_in_place o (rangeKeys (Order.dropsLoop o) (Changeset.aMap cs0))
              cs0 ∅) as (bm' & nb' & Hrun & Hbm & Hnb).
  { apply NoDup_rangeKeys, Ho. }
  { intros k Hk. split; [|done].
    by apply (elem_of_rangeKeys (Order.dropsLoop o)); [apply Ho|]. }
  rewrite Hrun.
  assert (bm' = ∅) as ->.
  { apply map_empty. intros k. rewrite Hbm. case_decide as Hin; [done|].
    simpl. apply eq_None_not_Some. intros Hsome. apply Hin.
    by apply (elem_of_rangeKeys (Order.dropsLoop o)); [apply Ho|]. }
  assert (nb' = m) as ->.
  { apply map_eq. intros k. rewrite Hnb. case_decide as Hin; [done|].
    rewrite lookup_empty. symmetry. apply eq_None_not_Some. intros Hsome. apply Hin.
    by apply (elem_of_rangeKeys (Order.dropsLoop o)); [apply Ho|]. }
  by rewrite additionsStep_empty_pool.
Qed.

Lemma byPeriod_lookup (cs : list Course.t) (p : Z) (c : Course.t) :
  byPeriod cs !! p = Some c → c ∈ cs.
Proof.
  unfold byPeriod.
  assert (∀ m : gmap Z Course.t,
            foldl (λ m c, <[Course.Period c := c]> m) m cs !! p = Some c →
               c ∈ cs ∨ m !! p = Some c) as Hgen.
  { induction cs as [|c' cs IH]; intros m Hm; [by right|]. simpl in Hm.
    destruct (IH _ Hm) as [Hin | Hm']; [left; by right|].
    rewrite lookup_insert in Hm'. case_decide; [|by right].
    left. injection Hm' as ->. by left. }
  intros H. by destruct (Hgen ∅ H) as [? | ?].
Qed.

Lemma diffCourseAssignments_self (o : Order.t) (a b : Gradebook.t)
    (m : gmap Z Course.t) (ks : list Z) :
  (∀ p c, m !! p = Some c → readyCourse c = true) →
  forEach (coursesStep o) (Changeset.mk a b m m [] [] [] []) ks
  = Some (Changeset.mk a b m m [] [] [] []).
Proof.
  intros Hready. induction ks as [|k ks IH]; [done|].
  cbn [forEach].
  assert (coursesStep o (Changeset.mk a b m m [] [] [] []) k
          = Some (Changeset.mk a b m m [] [] [] [])) as ->; [|done].
  unfold coursesStep. simpl.
  destruct (m !! k) as [ac|] eqn:Hk; [|done].
  rewrite diffCoursePair_self by eauto. cbn [mbind option_bind].
  by rewrite worthReporting_new.
Qed.

(** C2, as stated, fails twice.  A snapshot whose label holds markers of
    both halves ("Q1/Q3") is refused against itself by the semester guard;
    and a course whose RawGradeScore is not a number is reported as
    changed, since NaN - NaN is not zero. *)
Lemma self_diff_not_always_empty :
  (forallb (λ c, bool_decide (is_Some (Course.CurrentMark c))) [Sample.algebra] = true
   ∧ CalcChangeset Order.inKeyOrder (Sample.gradebook "Q1/Q3" [Sample.algebra])
                   (Sample.gradebook "Q1/Q3" [Sample.algebra])
     = Failed (mkSemesterMismatchError 1 2))
  ∧ (forallb (λ c, bool_decide (is_Some (Course.CurrentMark c))) [Sample.ungraded] = true
     ∧ ∃ cs cc, CalcChangeset Order.inKeyOrder (Sample.gradebook "Q1" [Sample.ungraded])
                              (Sample.gradebook "Q1" [Sample.ungraded])
                = Returned cs
              ∧ Changeset.CourseChanges cs = [cc]).
Proof.
  split; (split; [vm_compute; reflexivity|]).
  - vm_compute. reflexivity.
  - eexists _, _. split; vm_compute; reflexivity.
Qed.

(** C2, amended: for every snapshot S whose label does not hold markers of
    both halves of the year, with CurrentMark set on each course and only
    finite numbers in the current marks (grades, scores and points),
    CalcChangeset(S, S) returns a changeset whose CourseSwitches,
    CourseAdditions, CourseDrops and CourseChanges are all empty, in every
    order the maps are visited. *)
Theorem self_diff_is_empty (o : Order.t) (S : Gradebook.t) :
  Order.valid o →
  mixedLabel (label S) = false →
  forallb readyCourse (Gradebook.Courses S) = true →
  ∃ cs, CalcChangeset o S S = Returned cs ∧ noChanges cs.
Proof.
  intros Ho Hlabel Hready.
  assert (gradebookSemestersMatch S S = (0, 0, true)) as Hguard.
  { unfold gradebookSemestersMatch. fold (label S).
    unfold mixedLabel, firstSemesterLabel, secondSemesterLabel in Hlabel.
    destruct (Contains (label S) "Q1" || Contains (label S) "Q2"),
      (Contains (label S) "Q3" || Contains (label S) "Q4"); done. }
  unfold CalcChangeset. rewrite Hguard. simpl.
  unfold diffStages, coursesAsMap. rewrite diffCourseSets_self by done.
  unfold diffCourseAssignments. rewrite diffCourseAssignments_self.
  - eexists. split; [reflexivity|]. by repeat split.
  - intros p c Hc. apply byPeriod_lookup in Hc.
    rewrite forallb_forall in Hready. apply Hready. by apply list_elem_of_In.
Qed.

Lemma self_diff_is_empty_witness :
  ∃ cs, CalcChangeset Order.reversed
          (Sample.gradebook "Q2 Progress" [Sample.algebra; Sample.ungraded'])
          (Sample.gradebook "Q2 Progress" [Sample.algebra; Sample.ungraded'])
        = Returned cs
      ∧ noChanges cs.
Proof.
  apply (self_diff_is_empty Order.reversed
           (Sample.gradebook "Q2 Progress" [Sample.algebra; Sample.ungraded'])
           reversed_valid); reflexivity.
Defined.

(** ** A course whose period is taken by another course *)

Lemma findCourseIn_none (courses : gmap Z Course.t) (id : string) (ks : list Z) :
  (∀ k c, courses !! k = Some c → courseKey c ≠ id) →
  findCourseIn courses id ks = None.
Proof.
  intros Hnone. induction ks as [|k ks IH]; [done|]. simpl.
  destruct (courses !! k) as [c|] eqn:Hk; [|done].
  by rewrite (proj2 (String.eqb_neq _ _) (Hnone k c Hk)).
Qed.

Lemma rangeKeys_singleton {V : Type} (perm : list Z → list Z) (k : Z) (v : V) :
  (∀ l, perm l ≡ₚ l) → rangeKeys perm ({[k := v]} : gmap Z V) = [k].
Proof.
  intros Hperm. unfold rangeKeys. rewrite map_to_list_singleton. simpl.
  by apply Permutation_singleton_r.
Qed.

(** The iteration of the first loop for a course whose period holds a
    course with another ID, when no course of the pool has its ID: the
    result of findCourseSwitch is discarded and the state is left as it
    was. *)
Lemma dropsStep_discards_not_found (o : Order.t) (cs : Changeset.t)
    (nb : gmap Z Course.t) (p : Z) (ac bc : Course.t) :
  Changeset.aMap cs !! p = Some ac →
  Changeset.bMap cs !! p = Some bc →
  courseKey ac ≠ courseKey bc →
  (∀ k c, Changeset.bMap cs !! k = Some c → courseKey c ≠ courseKey ac) →
  dropsStep o (cs, nb) p = (cs, nb).
Proof.
  intros Ha Hb Hne Hnone. unfold dropsStep. rewrite Ha, Hb.
  rewrite (proj2 (String.eqb_neq _ _) Hne).
  unfold findCourseSwitch, findCourse. by rewrite findCourseIn_none.
Qed.

(** The sibling iteration, for a course whose period is free in the pool:
    not found means dropped. *)
Lemma dropsStep_drops_not_found (o : Order.t) (cs : Changeset.t)
    (nb : gmap Z Course.t) (p : Z) (ac : Course.t) :
  Changeset.aMap cs !! p = Some ac →
  Changeset.bMap cs !! p = None →
  (∀ k c, Changeset.bMap cs !! k = Some c → courseKey c ≠ courseKey ac) →
  dropsStep o (cs, nb) p
  = (Changeset.setAMap (Changeset.addDrop cs ac) (delete p (Changeset.aMap cs)), nb).
Proof.
  intros Ha Hb Hnone. unfold dropsStep. rewrite Ha, Hb.
  unfold findCourseSwitch, findCourse. by rewrite findCourseIn_none.
Qed.

(** Found, in either branch: one switch is appended, the match leaves the
    pool and becomes the pairing of the period. *)
Lemma dropsStep_switches_found (o : Order.t) (cs : Changeset.t)
    (nb : gmap Z Course.t) (p k : Z) (ac c : Course.t) :
  Changeset.aMap cs !! p = Some ac →
  (∀ bc, Changeset.bMap cs !! p = Some bc → courseKey ac ≠ courseKey bc) →
  findCourse (Order.findInB o p) (Changeset.bMap cs) (courseKey ac) = Some (c, k) →
  dropsStep o (cs, nb) p
  = (Changeset.setBMap
       (Changeset.addSwitch cs (CourseSwitch.mk ac c (Course.Period ac) (Course.Period c)))
       (delete k (Changeset.bMap cs)),
     <[p := c]> nb).
Proof.
  intros Ha Hb Hfound. unfold dropsStep. rewrite Ha.
  destruct (Changeset.bMap cs !! p) as [bc|] eqn:Hbc.
  - rewrite (proj2 (String.eqb_neq _ _) (Hb bc eq_refl)).
    unfold findCourseSwitch. rewrite Hfound. by destruct cs.
  - unfold findCourseSwitch. rewrite Hfound. by destruct cs.
Qed.

(** The course-set diff of one course against one course at the same
    period with another ID. *)
Lemma diffCourseSets_period_taken (o : Order.t) (a b : Gradebook.t)
    (ca cb : Course.t) :
  Order.valid o →
  Course.Period ca = Course.Period cb →
  courseKey ca ≠ courseKey cb →
  diffCourseSets o (Changeset.mk a b {[Course.Period ca := ca]}
                                 {[Course.Period cb := cb]} [] [] [] [])
  = Changeset.mk a b {[Course.Period ca := ca]} ∅ [] [cb] [] [].
Proof.
  intros Ho Hp Hne. unfold diffCourseSets. rewrite <- Hp.
  cbn [Changeset.aMap].
  rewrite rangeKeys_singleton by apply Ho. cbn [foldl].
  rewrite (dropsStep_discards_not_found o _ _ _ ca cb); cbn [Changeset.aMap Changeset.bMap].
  - cbn [fst Changeset.bMap]. rewrite rangeKeys_singleton by apply Ho. cbn [foldl].
    unfold additionsStep. cbn [Changeset.aMap Changeset.bMap].
    rewrite lookup_singleton_eq. unfold findCourse.
    rewrite findCourseIn_none.
    + unfold Changeset.addAddition, Changeset.setBMap. simpl. done.
    + by intros k c [_ <-]%lookup_singleton_Some.
  - apply lookup_singleton_eq.
  - apply lookup_singleton_eq.
  - done.
  - intros k c [_ <-]%lookup_singleton_Some. by intros Heq; apply Hne.
Qed.

Lemma byPeriod_single (c : Course.t) : byPeriod [c] = {[Course.Period c := c]}.
Proof. unfold byPeriod. simpl. apply insert_empty. Qed.

(** C3 fails on the code: a course of the older snapshot whose period
    holds a course with another ID in the newer snapshot, and whose ID no
    course of the pool has, is not dropped.  The iteration leaves the
    state as it was (the sibling branch, for a free period, is the one
    that appends to CourseDrops), so that for one course against one
    course at the same period CourseDrops and CourseSwitches stay empty,
    the older course stays in aMap and has no pairing. *)
Theorem taken_period_course_is_not_dropped (o : Order.t) (a b : Gradebook.t)
    (ca cb : Course.t) :
  Order.valid o →
  Course.Period ca = Course.Period cb →
  courseKey ca ≠ courseKey cb →
  let cs := diffCourseSets o (Changeset.mk a b (byPeriod [ca]) (byPeriod [cb])
                                           [] [] [] []) in
  Changeset.CourseDrops cs = []
  ∧ Changeset.CourseSwitches cs = []
  ∧ Changeset.CourseAdditions cs = [cb]
  ∧ Changeset.aMap cs !! Course.Period ca = Some ca
  ∧ Changeset.bMap cs !! Course.Period ca = None
  ∧ dropsStep o (Changeset.mk a b (byPeriod [ca]) (byPeriod [cb]) [] [] [] [], ∅)
              (Course.Period ca)
    = (Changeset.mk a b (byPeriod [ca]) (byPeriod [cb]) [] [] [] [], ∅).
Proof.
  intros Ho Hp Hne. cbn zeta. rewrite !byPeriod_single.
  rewrite diffCourseSets_period_taken by done.
  split_and!; [done | done | done | apply lookup_singleton_eq | done |].
  - apply (dropsStep_discards_not_found o _ _ _ ca cb); simpl.
    + apply lookup_singleton_eq.
    + rewrite Hp. apply lookup_singleton_eq.
    + done.
    + intros k c [_ <-]%lookup_singleton_Some. by intros Heq; apply Hne.
Qed.

Lemma taken_period_course_is_not_dropped_witness :
  let cs := diffCourseSets Order.inKeyOrder
              (Changeset.mk (Sample.gradebook "Q1" [Sample.algebra])
                            (Sample.gradebook "Q1" [Sample.biology])
                            (byPeriod [Sample.algebra]) (byPeriod [Sample.biology])
                            [] [] [] []) in
  Changeset.CourseDrops cs = []
  ∧ Changeset.CourseSwitches cs = []
  ∧ Changeset.CourseAdditions cs = [Sample.biology]
  ∧ Changeset.aMap cs !! 1 = Some Sample.algebra
  ∧ Changeset.bMap cs !! 1 = None
  ∧ dropsStep Order.inKeyOrder
      (Changeset.mk (Sample.gradebook "Q1" [Sample.algebra])
                    (Sample.gradebook "Q1" [Sample.biology])
                    (byPeriod [Sample.algebra]) (byPeriod [Sample.biology])
                    [] [] [] [], ∅) 1
    = (Changeset.mk (Sample.gradebook "Q1" [Sample.algebra])
                    (Sample.gradebook "Q1" [Sample.biology])
                    (byPeriod [Sample.algebra]) (byPeriod [Sample.biology])
                    [] [] [] [], ∅).
Proof.
  apply (taken_period_course_is_not_dropped Order.inKeyOrder
           (Sample.gradebook "Q1" [Sample.algebra])
           (Sample.gradebook "Q1" [Sample.biology])
           Sample.algebra Sample.biology inKeyOrder_valid eq_refl).
  discriminate.
Defined.

Lemma coursesStep_maps (o : Order.t) (cs cs' : Changeset.t) (p : Z) :
  coursesStep o cs p = Some cs' →
  Changeset.aMap cs' = Changeset.aMap cs ∧ Changeset.bMap cs' = Changeset.bMap cs.
Proof.
  unfold coursesStep. destruct (Changeset.aMap cs !! p); [|by intros [= <-]].
  destruct (diffCoursePair _ _ _ _) as [cc|]; [|done]. simpl.
  intros [= <-]. by destruct (worthReporting cc), cs.
Qed.

(** The assignment stage panics as soon as one course left in aMap has no
    pairing, in whatever order the courses are visited. *)
Lemma unpaired_course_panics (o : Order.t) (cs : Changeset.t) (p : Z)
    (ac : Course.t) :
  Order.valid o →
  Changeset.aMap cs !! p = Some ac →
  Changeset.bMap cs !! p = None →
  diffCourseAssignments o cs = None.
Proof.
  intros Ho Ha Hb. unfold diffCourseAssignments.
  assert (p ∈ rangeKeys (Order.coursesLoop o) (Changeset.aMap cs)) as Hin
    by (apply elem_of_rangeKeys; [apply Ho | by eexists]).
  revert Hin. generalize (rangeKeys (Order.coursesLoop o) (Changeset.aMap cs)).
  intros ks. revert cs Ha Hb. induction ks as [|k ks IH]; intros cs Ha Hb Hin.
  { by apply elem_of_nil in Hin. }
  cbn [forEach]. destruct (coursesStep o cs k) as [cs'|] eqn:Hstep; [|done].
  cbn [mbind option_bind].
  destruct (coursesStep_maps _ _ _ _ Hstep) as [HA HB].
  apply elem_of_cons in Hin as [->|Hin].
  - unfold coursesStep in Hstep. by rewrite Ha, Hb in Hstep.
  - apply IH; [by rewrite HA | by rewrite HB | done].
Qed.

(** It returns when every course left in aMap is paired and both courses
    of each pair have their current mark. *)
Lemma paired_courses_return (o : Order.t) (cs : Changeset.t) :
  (∀ p ac, Changeset.aMap cs !! p = Some ac →
     is_Some (Course.CurrentMark ac)
     ∧ ∃ bc, Changeset.bMap cs !! p = Some bc ∧ is_Some (Course.CurrentMark bc)) →
  is_Some (diffCourseAssignments o cs).
Proof.
  intros Hpaired. unfold diffCourseAssignments.
  generalize (rangeKeys (Order.coursesLoop o) (Changeset.aMap cs)).
  intros ks. revert cs Hpaired. induction ks as [|k ks IH]; intros cs Hpaired.
  { by eexists. }
  cbn [forEach].
  assert (is_Some (coursesStep o cs k)) as [cs' Hstep].
  { unfold coursesStep. destruct (Changeset.aMap cs !! k) as [ac|] eqn:Hk; [|by eexists].
    destruct (Hpaired k ac Hk) as [Hac (bc & -> & Hbc)].
    destruct (diffCoursePair_returns o k ac bc Hac Hbc) as [cc ->]. by eexists. }
  rewrite Hstep. cbn [mbind option_bind].
  destruct (coursesStep_maps _ _ _ _ Hstep) as [HA HB].
  apply IH. intros p ac. rewrite HA, HB. apply Hpaired.
Qed.

(** C4 fails on the code: CalcChangeset is not total.  For two snapshots
    that pass the semester guard, one course each, at the same period with
    different IDs, the course-set diff records no pairing for the older
    course and leaves it in aMap, and the assignment stage dereferences
    the absent pairing: the call panics, in every order of visit. *)
Theorem taken_period_panics (o : Order.t) (a b : Gradebook.t) (ca cb : Course.t) :
  Order.valid o →
  gradebookSemestersMatch a b = (0, 0, true) →
  Gradebook.Courses a = [ca] →
  Gradebook.Courses b = [cb] →
  Course.Period ca = Course.Period cb →
  courseKey ca ≠ courseKey cb →
  CalcChangeset o a b = Panicked.
Proof.
  intros Ho Hguard Ha Hb Hp Hne. unfold CalcChangeset. rewrite Hguard. simpl.
  unfold diffStages, coursesAsMap. rewrite Ha, Hb, !byPeriod_single.
  rewrite diffCourseSets_period_taken by done.
  rewrite (unpaired_course_panics o _ (Course.Period ca) ca); [done | done | |].
  - apply lookup_singleton_eq.
  - apply lookup_empty.
Qed.

Lemma taken_period_panics_witness :
  CalcChangeset Order.reversed (Sample.gradebook "Q1" [Sample.algebra])
                (Sample.gradebook "Q1" [Sample.biology])
  = Panicked.
Proof.
  apply (taken_period_panics Order.reversed
           (Sample.gradebook "Q1" [Sample.algebra])
           (Sample.gradebook "Q1" [Sample.biology])
           Sample.algebra Sample.biology
           reversed_valid eq_refl eq_refl eq_refl eq_refl).
  discriminate.
Defined.

(** ** The course-title decoder *)

Lemma length_append (a b : string) :
  String.length (a ++ b) = (String.length a + String.length b)%nat.
Proof. induction a as [|c a IH]; [done|]. rewrite append_String. simpl. by rewrite IH. Qed.

Lemma substring_prefix (a b : string) : substring 0 (String.length a) (a ++ b) = a.
Proof.
  induction a as [|c a IH]; [by destruct b|].
  rewrite append_String. simpl. by rewrite IH.
Qed.

Lemma consumed_app (a b : string) : consumed (a ++ b) b = a.
Proof.
  unfold consumed. rewrite length_append.
  replace (String.length a + String.length b - String.length b)%nat
    with (String.length a) by lia.
  apply substring_prefix.
Qed.

Lemma append_assoc (a b c : string) : (a ++ b) ++ c = a ++ (b ++ c).
Proof. induction a as [|x a IH]; [done|]. by rewrite !append_String, IH. Qed.

Lemma get_length_append (s r : string) (c : ascii) :
  String.get (String.length s) (s ++ String c r) = Some c.
Proof. induction s as [|x s IH]; [done|]. rewrite append_String. simpl. apply IH. Qed.

Lemma lastChar_snoc (s : string) (c : ascii) : lastChar (s ++ String c "") = Some c.
Proof.
  unfold lastChar. rewrite length_append. simpl.
  replace (String.length s + 1 - 1)%nat with (String.length s) by lia.
  apply get_length_append.
Qed.

Lemma lastChar_nonempty (x : ascii) (s : string) : is_Some (lastChar (String x s)).
Proof.
  unfold lastChar. simpl. rewrite Nat.sub_0_r.
  revert x. induction s as [|y s IH]; intros x; [by eexists|]. simpl. apply IH.
Qed.

(** A lazy [c+?] stops at the first place where the rest of the pattern
    matches. *)
Lemma lazyPlus_first {R : Type} (c : charClass)
    (k : list string → string → option R) (caps : list string)
    (u t : string) (r : R) :
  u ≠ "" → allChars (inClass c) u = true →
  (∀ u1 u2, u = u1 ++ u2 → u1 ≠ "" → u2 ≠ "" → k caps (u2 ++ t) = None) →
  k caps t = Some r →
  lazyPlus c k caps (u ++ t) = Some r.
Proof.
  intros Hu Hall Hearly Hk. induction u as [|x u IH]; [done|].
  rewrite append_String. simpl in *. apply andb_true_iff in Hall as [-> Hall].
  destruct u as [|y u].
  - by rewrite append_Empty, Hk.
  - rewrite (Hearly (String x "") (String y u)) by done.
    apply IH; [done | done |]. intros u1 u2 Heq Hu1 Hu2.
    apply (Hearly (String x u1) u2); [by rewrite append_String, Heq | done | done].
Qed.

Lemma lazyPlus_fails {R : Type} (P : string → Prop) (c : charClass)
    (k : list string → string → option R) (caps : list string) :
  (∀ x s, P (String x s) → P s) →
  (∀ s, P s → k caps s = None) →
  ∀ s, P s → lazyPlus c k caps s = None.
Proof.
  intros Htail Hk s. induction s as [|x s IH]; intros Hs; [done|]. simpl.
  destruct (inClass c x); [|done].
  rewrite Hk by eauto. eauto.
Qed.

Lemma greedyStar_fails {R : Type} (P : string → Prop) (c : charClass)
    (k : list string → string → option R) (caps : list string) :
  (∀ x s, P (String x s) → P s) →
  (∀ s, P s → k caps s = None) →
  ∀ s, P s → greedyStar c k caps s = None.
Proof.
  intros Htail Hk s. induction s as [|x s IH]; intros Hs; simpl; [eauto|].
  destruct (inClass c x); [|eauto].
  rewrite IH by eauto. eauto.
Qed.

(** A greedy [c*] takes the whole run when the rest of the pattern
    matches after it. *)
Lemma greedyStar_all {R : Type} (c : charClass)
    (k : list string → string → option R) (caps : list string)
    (w t : string) (r : R) :
  allChars (inClass c) w = true →
  match t with EmptyString => True | String y _ => inClass c y = false end →
  k caps t = Some r →
  greedyStar c k caps (w ++ t) = Some r.
Proof.
  intros Hall Hstop Hk. induction w as [|x w IH].
  - rewrite append_Empty. destruct t as [|y t]; simpl; [done|]. by rewrite Hstop.
  - rewrite append_String. simpl in *. apply andb_true_iff in Hall as [-> Hall].
    by rewrite IH.
Qed.

(** After any run of white space, what is left of a text that ends in a
    name character starts with a character of the text. *)
Lemma skip_space_in_name (w u t r : string) :
  u ++ t = w ++ r → allChars isSpace w = true →
  endsNonSpace u = true → allChars nameChar u = true →
  ∃ y r', r = String y r' ∧ nameChar y = true.
Proof.
  revert u. induction w as [|x w IH]; intros u Heq Hw Hends Hu.
  - rewrite append_Empty in Heq. subst r. destruct u as [|y u]; [done|].
    rewrite append_String. simpl in Hu. apply andb_true_iff in Hu as [Hy _]. eauto.
  - destruct u as [|y u]; [done|]. rewrite !append_String in Heq.
    injection Heq as -> Heq. simpl in Hw, Hu.
    apply andb_true_iff in Hw as [Hx Hw]. apply andb_true_iff in Hu as [_ Hu].
    destruct u as [|z u].
    + simpl in Hends. by rewrite Hx in Hends.
    + by apply (IH (String z u)).
Qed.

Lemma endsNonSpace_suffix (u1 u2 : string) :
  endsNonSpace (u1 ++ u2) = true → u2 ≠ "" → endsNonSpace u2 = true.
Proof.
  intros H Hu2. induction u1 as [|x u1 IH]; [done|].
  rewrite append_String in H. apply IH. simpl in H.
  destruct (u1 ++ u2) eqn:Heq; [|done].
  destruct u1; [by rewrite append_Empty in Heq | by rewrite append_String in Heq].
Qed.

Lemma allChars_app (p : ascii → bool) (u1 u2 : string) :
  allChars p (u1 ++ u2) = allChars p u1 && allChars p u2.
Proof.
  induction u1 as [|x u1 IH]; [done|]. rewrite append_String. simpl.
  by rewrite IH, andb_assoc.
Qed.

Lemma greedyStar_none {R : Type} (c : charClass)
    (k : list string → string → option R) (caps : list string) (s : string) :
  (∀ w r, s = w ++ r → allChars (inClass c) w = true → k caps r = None) →
  greedyStar c k caps s = None.
Proof.
  induction s as [|x s IH]; intros Hsplit; simpl.
  - by apply (Hsplit "" "").
  - assert (k caps (String x s) = None) as Hhere by by apply (Hsplit "" (String x s)).
    destruct (inClass c x) eqn:Hx; [|done].
    rewrite IH; [done|]. intros w r -> Hw.
    apply (Hsplit (String x w) r); [by rewrite append_String|].
    simpl. by rewrite Hx.
Qed.

Lemma allChars_impl (p q : ascii → bool) (s : string) :
  (∀ c, p c = true → q c = true) → allChars p s = true → allChars q s = true.
Proof.
  intros Hpq. induction s as [|x s IH]; [done|]. simpl.
  rewrite !andb_true_iff. intros [Hx Hs]. auto.
Qed.

Lemma FindStringSubmatch_here (r : regex) (s : string) (m : list string) :
  matchRe r (λ caps rest, Some (consumed s rest :: caps)) [] s = Some m →
  FindStringSubmatch r s = Some m.
Proof. intros H. destruct s; simpl; by rewrite H. Qed.

(** The groups of a title made of a name, white space, and a first
    parenthesized group. *)
Lemma FindStringSubmatch_title (name ws id rest : string) :
  endsNonSpace name = true → allChars nameChar name = true →
  allChars isSpace ws = true →
  id ≠ "" → allChars idChar id = true →
  FindStringSubmatch nameRegex (name ++ ws ++ "(" ++ id ++ ")" ++ rest)
  = Some [name ++ ws ++ "(" ++ id ++ ")"; name; "(" ++ id ++ ")"].
Proof.
  intros Hends Hname Hws Hid Hidc.
  change ("(" ++ id ++ ")" ++ rest) with (String "(" (id ++ String ")" rest)).
  set (t2 := String "(" (id ++ String ")" rest)).
  set (s := name ++ ws ++ t2).
  assert (consumed s rest = name ++ ws ++ "(" ++ id ++ ")") as Hwhole.
  { replace s with ((name ++ ws ++ "(" ++ id ++ ")") ++ rest);
      [apply consumed_app|].
    unfold s, t2. rewrite !append_assoc. reflexivity. }
  assert (consumed t2 rest = "(" ++ id ++ ")") as Hgroup.
  { replace t2 with (("(" ++ id ++ ")") ++ rest); [apply consumed_app|].
    unfold t2. rewrite !append_assoc. reflexivity. }
  apply FindStringSubmatch_here. unfold nameRegex. cbn [matchRe].
  apply lazyPlus_first.
  - by destruct name.
  - revert Hname. apply allChars_impl. intros c. unfold nameChar. simpl.
    by intros [_ ?]%andb_true_iff.
  - intros u1 u2 -> Hu1 Hu2. apply greedyStar_none. intros w r Heq Hw.
    rewrite allChars_app in Hname. apply andb_true_iff in Hname as [_ Hname].
    destruct (skip_space_in_name w u2 _ r Heq Hw) as (y & r' & -> & Hy);
      [by eapply endsNonSpace_suffix | done |].
    unfold nameChar in Hy. apply andb_true_iff in Hy as [Hy _].
    simpl. by destruct (Ascii.eqb y "(").
  - replace (consumed s (ws ++ t2)) with name by (symmetry; apply consumed_app).
    apply greedyStar_all; [done | done |].
    unfold t2 at 1. cbn [inClass]. rewrite Ascii.eqb_refl.
    apply lazyPlus_first.
    + done.
    + revert Hidc. apply allChars_impl. intros c. unfold idChar. simpl.
      by intros [_ ?]%andb_true_iff.
    + intros u1 u2 -> Hu1 Hu2.
      rewrite allChars_app in Hidc. apply andb_true_iff in Hidc as [_ Hidc].
      destruct u2 as [|y u2]; [done|]. rewrite append_String. simpl in *.
      apply andb_true_iff in Hidc as [Hy _]. unfold idChar in Hy.
      apply andb_true_iff in Hy as [Hy _]. by destruct (Ascii.eqb y ")").
    + simpl. by rewrite Hwhole, Hgroup.
Qed.

Lemma hasGroup_tail (x : ascii) (s : string) :
  hasGroup (String x s) = false → hasGroup s = false.
Proof. simpl. by intros [_ ?]%orb_false_iff. Qed.

Lemma matchRe_nameRegex_none {R : Type} (k : list string → string → option R)
    (caps : list string) (s : string) :
  hasGroup s = false → matchRe nameRegex k caps s = None.
Proof.
  unfold nameRegex. cbn [matchRe].
  apply (lazyPlus_fails (λ s, hasGroup s = false)); [apply hasGroup_tail|].
  intros s1 Hs1.
  apply (greedyStar_fails (λ s, hasGroup s = false)); [apply hasGroup_tail| |done].
  intros [|x s2] Hs2; [done|]. simpl in *.
  destruct (Ascii.eqb x "("); [|done]. simpl in Hs2.
  apply orb_false_iff in Hs2 as [Hclose%negb_false_iff _].
  apply (lazyPlus_fails (λ s, allChars (λ x, negb (Ascii.eqb x ")")) s = true));
    [| |done].
  - intros y s3. simpl. by intros [_ ?]%andb_true_iff.
  - intros [|y s3]; [done|]. simpl. intros [Hy _]%andb_true_iff.
    by destruct (Ascii.eqb y ")").
Qed.

Lemma FindStringSubmatch_unfold (r : regex) (s : string) :
  FindStringSubmatch r s
  = match matchRe r (λ caps rest, Some (consumed s rest :: caps)) [] s with
    | Some m => Some m
    | None => match s with
              | EmptyString => None
              | String _ s' => FindStringSubmatch r s'
              end
    end.
Proof. by destruct s. Qed.

Lemma FindStringSubmatch_none (s : string) :
  hasGroup s = false → FindStringSubmatch nameRegex s = None.
Proof.
  induction s as [|x s IH]; intros Hs; rewrite FindStringSubmatch_unfold;
    rewrite matchRe_nameRegex_none by done; [done|].
  apply IH. by eapply hasGroup_tail.
Qed.

(** C8, as stated, fails: the decoder takes the first parenthesized group,
    not the last.  "AP Calculus (AB) (MATH-101)" ends in the group
    "(MATH-101)" with "AP Calculus (AB)" before it, yet it decodes to ID
    "AB" and Name "AP Calculus"; and "(ALG2-01)", which holds a
    parenthesized group, is a format error, because the pattern wants a
    character before the group. *)
Lemma title_decoder_takes_first_group :
  lastGroup "AP Calculus (AB) (MATH-101)" "AP Calculus (AB)" "MATH-101"
  ∧ UnmarshalCourseID "AP Calculus (AB) (MATH-101)"
    = Decoded (CourseID.mk "AB" "AP Calculus")
  ∧ hasGroup "(ALG2-01)" = true
  ∧ UnmarshalCourseID "(ALG2-01)" = FormatError.
Proof.
  split_and!; try (vm_compute; reflexivity).
  exists " ", "". by split_and!.
Qed.

(** C8, amended: for a title made of a name that is not empty, holds no
    "(" and no newline and does not end in white space, then white space
    (possibly none), then a group "(id)" whose id is not empty and holds
    no ")" and no newline, then any text, the decoder returns id as the ID
    and the name as the Name: the ID is the contents of the first
    parenthesized group.  A string in which no "(" is followed by a ")" is
    a format error.  "Algebra II (ALG2-01)" decodes to Name "Algebra II"
    and ID "ALG2-01". *)
Theorem title_decodes_to_first_group (name ws id rest other : string) :
  endsNonSpace name = true →
  allChars nameChar name = true →
  allChars isSpace ws = true →
  id ≠ "" →
  allChars idChar id = true →
  UnmarshalCourseID (name ++ ws ++ "(" ++ id ++ ")" ++ rest)
  = Decoded (CourseID.mk id name)
  ∧ (hasGroup other = false → UnmarshalCourseID other = FormatError)
  ∧ UnmarshalCourseID "Algebra II (ALG2-01)"
    = Decoded (CourseID.mk "ALG2-01" "Algebra II").
Proof.
  intros Hends Hname Hws Hid Hidc. split_and!; [| | vm_compute; reflexivity].
  - unfold UnmarshalCourseID. rewrite FindStringSubmatch_title by done.
    cbn [length Nat.eqb negb tail pickGroup].
    destruct name as [|x name]; [done|].
    destruct (lastChar_nonempty x name) as [l ->]. cbn [String.get].
    simpl in Hname. apply andb_true_iff in Hname as [Hx _].
    unfold nameChar in Hx. apply andb_true_iff in Hx as [Hx%negb_true_iff _].
    rewrite Hx. cbn [andb].
    change ("(" ++ id ++ ")") with (String "(" (id ++ ")")).
    cbn [String.get]. change (String "(" (id ++ ")")) with (("(" ++ id) ++ ")").
    rewrite lastChar_snoc.
    change (("(" ++ id) ++ ")") with (String "(" (id ++ ")")).
    cbn [Ascii.eqb Bool.eqb andb lookup list_lookup].
    replace (substring 1 (String.length (String "(" (id ++ ")")) - 2)
               (String "(" (id ++ ")"))) with id.
    + by rewrite (proj2 (String.eqb_neq _ _) Hid).
    + simpl. rewrite length_append. simpl.
      replace (String.length id + 1 - 1)%nat with (String.length id) by lia.
      by rewrite substring_prefix.
  - intros Hother. unfold UnmarshalCourseID.
    by rewrite FindStringSubmatch_none.
Qed.

Lemma title_decodes_to_first_group_witness :
  UnmarshalCourseID ("Algebra II" ++ " " ++ "(" ++ "ALG2-01" ++ ")" ++ "")
  = Decoded (CourseID.mk "ALG2-01" "Algebra II")
  ∧ (hasGroup "Algebra II" = false → UnmarshalCourseID "Algebra II" = FormatError)
  ∧ UnmarshalCourseID "Algebra II (ALG2-01)"
    = Decoded (CourseID.mk "ALG2-01" "Algebra II").
Proof.
  apply (title_decodes_to_first_group "Algebra II" " " "ALG2-01" "" "Algebra II");
    (reflexivity || discriminate).
Defined.

(** * Further properties of the code *)

(** ** The guard on labels of one half *)

(** X1 (gradebookSemestersMatch): when neither label holds markers of
    both halves of the year, the guard refuses exactly the pairs whose
    labels fall in different halves, and exchanging the two snapshots
    exchanges the two semester numbers it reports. *)
Theorem guard_on_plain_labels (a b : Gradebook.t) :
  mixedLabel (label a) = false →
  mixedLabel (label b) = false →
  snd (gradebookSemestersMatch a b) = negb (differentHalves a b)
  ∧ gradebookSemestersMatch b a = swapSemesters (gradebookSemestersMatch a b).
Proof.
  unfold mixedLabel, differentHalves, gradebookSemestersMatch,
    firstSemesterLabel, secondSemesterLabel.
  fold (label a) (label b).
  destruct (Contains (label a) "Q1" || Contains (label a) "Q2"),
    (Contains (label a) "Q3" || Contains (label a) "Q4"),
    (Contains (label b) "Q1" || Contains (label b) "Q2"),
    (Contains (label b) "Q3" || Contains (label b) "Q4"); simpl; done.
Qed.

Lemma guard_on_plain_labels_witness :
  snd (gradebookSemestersMatch (Sample.gradebook "Q4" []) (Sample.gradebook "Q1 Progress" []))
  = negb (differentHalves (Sample.gradebook "Q4" []) (Sample.gradebook "Q1 Progress" []))
  ∧ gradebookSemestersMatch (Sample.gradebook "Q1 Progress" []) (Sample.gradebook "Q4" [])
    = swapSemesters (gradebookSemestersMatch (Sample.gradebook "Q4" [])
                                             (Sample.gradebook "Q1 Progress" [])).
Proof.
  apply (guard_on_plain_labels (Sample.gradebook "Q4" [])
           (Sample.gradebook "Q1 Progress" [])); reflexivity.
Defined.

(** ** coursesAsMap *)

Lemma byPeriod_foldl (cs : list Course.t) (m : gmap Z Course.t) (p : Z) :
  foldl (λ m c, <[Course.Period c := c]> m) m cs !! p
  = match last (atPeriod p cs) with
    | Some c => Some c
    | None => m !! p
    end.
Proof.
  revert m. induction cs as [|c cs IH]; intros m; [done|].
  cbn [foldl]. rewrite IH. unfold atPeriod. rewrite filter_cons.
  destruct (decide (Course.Period c = p)) as [Hp|Hp].
  - rewrite last_cons. destruct (last (filter _ cs)); [done|].
    by rewrite Hp, lookup_insert_eq.
  - destruct (last (filter _ cs)); [done|]. by rewrite lookup_insert_ne.
Qed.

Lemma same_period_same_course (cs : list Course.t) (c c' : Course.t) :
  NoDup (Course.Period <$> cs) → c ∈ cs → c' ∈ cs →
  Course.Period c = Course.Period c' → c = c'.
Proof.
  induction cs as [|x cs IH]; intros Hnd Hc Hc' Hp.
  { by apply elem_of_nil in Hc. }
  rewrite fmap_cons in Hnd. apply NoDup_cons in Hnd as [Hx Hnd].
  apply elem_of_cons in Hc as [->|Hc]; apply elem_of_cons in Hc' as [->|Hc'].
  - done.
  - destruct Hx. rewrite Hp. by apply list_elem_of_fmap_2.
  - destruct Hx. rewrite <- Hp. by apply list_elem_of_fmap_2.
  - by apply IH.
Qed.

(** X2 (coursesAsMap): the map built from a slice of courses holds, at
    each period, the last course of the slice with that period (earlier
    ones are overwritten) and nothing at a period no course has; when the
    periods of the slice are distinct, every course is found at its own
    period. *)
Theorem coursesAsMap_last_wins (acs bcs : list Course.t) (p : Z) :
  (coursesAsMap acs bcs).1 !! p = last (atPeriod p acs)
  ∧ (coursesAsMap acs bcs).2 !! p = last (atPeriod p bcs)
  ∧ (NoDup (Course.Period <$> acs) →
     ∀ c, c ∈ acs → (coursesAsMap acs bcs).1 !! Course.Period c = Some c).
Proof.
  unfold coursesAsMap, byPeriod. cbn [fst snd].
  split_and!; try (rewrite byPeriod_foldl; by destruct (last _)).
  intros Hnd c Hc. rewrite byPeriod_foldl.
  destruct (last (atPeriod (Course.Period c) acs)) as [c'|] eqn:Hlast.
  - f_equal. apply last_Some in Hlast as [l' Hl'].
    assert (c' ∈ atPeriod (Course.Period c) acs) as Hin
      by (rewrite Hl'; apply elem_of_app; right; by left).
    apply list_elem_of_filter in Hin as [Hp Hin].
    by apply (same_period_same_course acs).
  - apply last_None in Hlast.
    assert (c ∈ atPeriod (Course.Period c) acs) as Hin
      by by apply list_elem_of_filter.
    rewrite Hlast in Hin. by apply elem_of_nil in Hin.
Qed.

(** ** findCourse *)

Lemma findCourseIn_Some (courses : gmap Z Course.t) (id : string) (ks : list Z)
    (c : Course.t) (k : Z) :
  findCourseIn courses id ks = Some (c, k) →
  k ∈ ks ∧ courses !! k = Some c ∧ courseKey c = id.
Proof.
  induction ks as [|k' ks IH]; [done|]. simpl.
  destruct (courses !! k') as [c'|] eqn:Hk'.
  - destruct (String.eqb_spec (courseKey c') id) as [Heq|Hne].
    + intros [= <- <-]. split; [by left | done].
    + intros H. destruct (IH H) as (? & ? & ?). split; [by right | done].
  - intros H. destruct (IH H) as (? & ? & ?). split; [by right | done].
Qed.

Lemma findCourseIn_None (courses : gmap Z Course.t) (id : string) (ks : list Z) :
  findCourseIn courses id ks = None →
  ∀ k c, k ∈ ks → courses !! k = Some c → courseKey c ≠ id.
Proof.
  induction ks as [|k' ks IH]; intros Hnone k c Hk Hc.
  { by apply elem_of_nil in Hk. }
  simpl in Hnone. apply elem_of_cons in Hk as [->|Hk].
  - rewrite Hc in Hnone. by destruct (String.eqb_spec (courseKey c) id).
  - apply (IH (ltac:(by destruct (courses !! k') as [c'|];
                     [destruct (String.eqb (courseKey c') id)|])) k c Hk Hc).
Qed.

Lemma findCourse_Some (perm : list Z → list Z) (courses : gmap Z Course.t)
    (id : string) (c : Course.t) (k : Z) :
  findCourse perm courses id = Some (c, k) →
  courses !! k = Some c ∧ courseKey c = id.
Proof. intros H. by apply findCourseIn_Some in H as (_ & ? & ?). Qed.

Lemma findCourse_None (perm : list Z → list Z) (courses : gmap Z Course.t)
    (id : string) :
  (∀ l, perm l ≡ₚ l) →
  findCourse perm courses id = None → lacksID courses id.
Proof.
  intros Hperm Hnone k c Hc. eapply findCourseIn_None; [done | | done].
  apply elem_of_rangeKeys; [done | by eexists].
Qed.

(** X3 (findCourse): in whatever order the map is visited, the course
    findCourse returns is in the map at the key returned with it and
    carries the requested ID, and findCourse returns nothing only when no
    course of the map carries that ID. *)
Theorem findCourse_finds_the_ID (perm : list Z → list Z)
    (courses : gmap Z Course.t) (id : string) :
  (∀ l, perm l ≡ₚ l) →
  match findCourse perm courses id with
  | Some (c, k) => courses !! k = Some c ∧ courseKey c = id
  | None => lacksID courses id
  end.
Proof.
  intros Hperm. destruct (findCourse perm courses id) as [[c k]|] eqn:Hfind.
  - by apply findCourse_Some in Hfind.
  - by apply findCourse_None in Hfind.
Qed.

Lemma findCourse_finds_the_ID_witness :
  match findCourse (@rev Z) (byPeriod [Sample.algebra; Sample.ungraded]) "ART-03" with
  | Some (c, k) =>
      byPeriod [Sample.algebra; Sample.ungraded] !! k = Some c ∧ courseKey c = "ART-03"
  | None => lacksID (byPeriod [Sample.algebra; Sample.ungraded]) "ART-03"
  end.
Proof.
  apply (findCourse_finds_the_ID (@rev Z)). intros l. symmetry. apply Permutation_rev.
Defined.

(** ** The course-set diff, in every order of visit *)

Lemma poolInv_fresh (a b : Gradebook.t) (A B : gmap Z Course.t) :
  poolInv A B (freshChangeset a b A B) ∅.
Proof.
  constructor; simpl; try done.
  - intros c. split; [by intros ?%elem_of_nil | by intros (p & -> & ?)].
  - by intros k c ->.
  - by intros c ?%elem_of_nil.
Qed.

(** The closure findCourseSwitch, when it finds a course. *)
Lemma poolInv_switch (o : Order.t) (A B : gmap Z Course.t) (cs : Changeset.t)
    (nb : gmap Z Course.t) (p k : Z) (ac c : Course.t) :
  poolInv A B cs nb → nb !! p = None →
  Changeset.aMap cs !! p = Some ac →
  Changeset.bMap cs !! k = Some c → courseKey c = courseKey ac → p ≠ k →
  let cs1 := Changeset.addSwitch cs
               (CourseSwitch.mk ac c (Course.Period ac) (Course.Period c)) in
  poolInv A B (Changeset.setBMap cs1 (delete k (Changeset.bMap cs1)))
          (<[p := c]> nb).
Proof.
  intros [Hkept Hdrops Hpool Hcons Hpairs Hsw Hdid Hunm Hadd Hchg] Hp Ha Hk Hid Hpk.
  destruct cs as [a b aMap bMap sws adds drops chgs]. simpl in *.
  constructor; simpl; try done.
  - intros k' x. rewrite lookup_delete. case_decide; [done | apply Hpool].
  - intros k' x HB. rewrite lookup_delete. case_decide as Hkk.
    + subst k'. intros _. exists p. rewrite lookup_insert_eq.
      rewrite (Hpool _ _ Hk) in HB. done.
    + intros Hnone. destruct (Hcons k' x HB Hnone) as [p0 Hp0]. exists p0.
      rewrite lookup_insert_ne; [done|]. intros <-. congruence.
  - intros q x. rewrite lookup_insert. case_decide as Hq.
    + subst q. intros [= <-]. exists ac. split_and!; [done | done |].
      left. exists k. by apply Hpool.
    + apply Hpairs.
  - apply Forall_app. split; [done|]. constructor; [|done].
    unfold soundSwitch. simpl. split_and!; [|done..].
    exists p, k. split_and!; [by apply Hkept | by apply Hpool | done].
  - intros x Hx k' y. rewrite lookup_delete. case_decide; [done|].
    by apply Hdid.
  - intros k' x HB Hlack. rewrite lookup_delete. case_decide as Hkk.
    + subst k'. rewrite (Hpool _ _ Hk) in HB. injection HB as <-.
      destruct (Hlack p ac (Hkept _ _ Ha)). done.
    + by apply Hunm.
Qed.

(** One iteration of the first loop keeps the invariant, touches the
    pairing of no other period, and removes nothing but its own period
    from aMap. *)
Lemma poolInv_dropsStep (o : Order.t) (A B : gmap Z Course.t) (cs : Changeset.t)
    (nb : gmap Z Course.t) (p : Z) :
  Order.valid o → poolInv A B cs nb → nb !! p = None →
  poolInv A B (dropsStep o (cs, nb) p).1 (dropsStep o (cs, nb) p).2
  ∧ (∀ q, q ≠ p → (dropsStep o (cs, nb) p).2 !! q = nb !! q)
  ∧ (∀ q, q ≠ p → Changeset.aMap (dropsStep o (cs, nb) p).1 !! q
                  = Changeset.aMap cs !! q).
Proof.
  intros Ho Hinv Hp. unfold dropsStep.
  destruct (Changeset.aMap cs !! p) as [ac|] eqn:Ha; [|done].
  destruct (Changeset.bMap cs !! p) as [bc|] eqn:Hb.
  - destruct (String.eqb_spec (courseKey ac) (courseKey bc)) as [Heq|Hne].
    + cbn [fst snd]. split_and!.
      * destruct Hinv as [Hkept Hdrops Hpool Hcons Hpairs Hsw Hdid Hunm Hadd Hchg].
        destruct cs as [a b aMap bMap sws adds drops chgs]. simpl in *.
        constructor; simpl; try done.
        -- intros k' x. rewrite lookup_delete. case_decide; [done | apply Hpool].
        -- intros k' x HB. rewrite lookup_delete. case_decide as Hkk.
           ++ subst k'. intros _. exists p. rewrite lookup_insert_eq.
              rewrite (Hpool _ _ Hb) in HB. done.
           ++ intros Hnone. destruct (Hcons k' x HB Hnone) as [p0 Hp0]. exists p0.
              rewrite lookup_insert_ne; [done|]. intros <-. congruence.
        -- intros q x. rewrite lookup_insert. case_decide as Hq.
           ++ subst q. intros [= <-]. exists ac. split_and!; [done | done |].
              left. exists p. by apply Hpool.
           ++ apply Hpairs.
        -- intros x Hx k' y. rewrite lookup_delete. case_decide; [done|].
           by apply Hdid.
        -- intros k' x HB Hlack. rewrite lookup_delete. case_decide as Hkk.
           ++ subst k'. rewrite (Hpool _ _ Hb) in HB. injection HB as <-.
              destruct (Hlack p ac (Hkept _ _ Ha)). done.
           ++ by apply Hunm.
      * intros q Hq. by rewrite lookup_insert_ne.
      * intros q Hq. by destruct cs.
    + unfold findCourseSwitch.
      destruct (findCourse _ _ _) as [[c k]|] eqn:Hfind; cbn [fst snd]; [|done].
      apply findCourse_Some in Hfind as [Hk Hid]. split_and!.
      * apply (poolInv_switch o); try done. intros <-. congruence.
      * intros q Hq. by rewrite lookup_insert_ne.
      * intros q Hq. by destruct cs.
  - unfold findCourseSwitch.
    destruct (findCourse _ _ _) as [[c k]|] eqn:Hfind; cbn [fst snd].
    + apply findCourse_Some in Hfind as [Hk Hid]. split_and!.
      * apply (poolInv_switch o); try done. intros <-. congruence.
      * intros q Hq. by rewrite lookup_insert_ne.
      * intros q Hq. by destruct cs.
    + apply findCourse_None in Hfind; [|apply Ho]. split_and!; [|done|].
      * destruct Hinv as [Hkept Hdrops Hpool Hcons Hpairs Hsw Hdid Hunm Hadd Hchg].
        destruct cs as [a b aMap bMap sws adds drops chgs]. simpl in *.
        constructor; simpl; try done.
        -- intros q x. rewrite lookup_delete. case_decide; [done | apply Hkept].
        -- intros x. rewrite elem_of_app, list_elem_of_singleton, Hdrops. split.
           ++ intros [(q & HA & Hq) | ->].
              ** exists q. split; [done|]. rewrite lookup_delete. by case_decide.
              ** exists p. split; [by apply Hkept | apply lookup_delete_eq].
           ++ intros (q & HA & Hq). rewrite lookup_delete in Hq.
              case_decide as Hqp.
              ** subst q. right. rewrite (Hkept _ _ Ha) in HA. congruence.
              ** left. eauto.
        -- intros q x Hq. destruct (Hpairs q x Hq) as (ac' & Hac' & ? & ?).
           exists ac'. split_and!; try done.
           rewrite lookup_delete_ne; [done|]. intros <-. congruence.
        -- intros x. rewrite elem_of_app, list_elem_of_singleton.
           intros [Hx | ->]; [by apply Hdid | done].
      * intros q Hq. destruct cs. simpl. by rewrite lookup_delete_ne.
Qed.

(** The whole first loop, over any list of distinct, still unpaired
    periods. *)
Lemma poolInv_dropsLoop (o : Order.t) (A B : gmap Z Course.t) (ks : list Z) :
  Order.valid o → NoDup ks →
  ∀ cs nb, poolInv A B cs nb → (∀ p, p ∈ ks → nb !! p = None) →
    poolInv A B (foldl (dropsStep o) (cs, nb) ks).1
                (foldl (dropsStep o) (cs, nb) ks).2
    ∧ (∀ q, q ∉ ks →
         (foldl (dropsStep o) (cs, nb) ks).2 !! q = nb !! q
         ∧ Changeset.aMap (foldl (dropsStep o) (cs, nb) ks).1 !! q
           = Changeset.aMap cs !! q).
Proof.
  intros Ho Hnd. induction Hnd as [|p ks Hp Hnd IH]; intros cs nb Hinv Hun.
  { by split. }
  cbn [foldl].
  destruct (poolInv_dropsStep o A B cs nb p Ho Hinv) as (Hinv1 & Hnb1 & Ha1).
  { apply Hun. by left. }
  destruct (dropsStep o (cs, nb) p) as [cs1 nb1]. cbn [fst snd] in *.
  destruct (IH cs1 nb1 Hinv1) as [Hfin Hframe].
  { intros q Hq. rewrite Hnb1; [apply Hun; by right|]. by intros ->. }
  split; [done|]. intros q Hq. apply not_elem_of_cons in Hq as [Hqp Hq].
  destruct (Hframe q Hq) as [-> ->]. split; [by apply Hnb1 | by apply Ha1].
Qed.

(** The recorded switches are never taken back by a later iteration. *)
Lemma dropsStep_keeps_switches (o : Order.t) (st : SetsState) (p : Z)
    (sw : CourseSwitch.t) :
  sw ∈ Changeset.CourseSwitches st.1 →
  sw ∈ Changeset.CourseSwitches (dropsStep o st p).1.
Proof.
  destruct st as [cs nb]. unfold dropsStep, findCourseSwitch. simpl. intros Hsw.
  destruct (Changeset.aMap cs !! p) as [ac|]; [|done].
  destruct (Changeset.bMap cs !! p) as [bc|].
  - destruct (String.eqb _ _); [by destruct cs|].
    destruct (findCourse _ _ _) as [[c k]|]; [|done].
    destruct cs; simpl in *. apply elem_of_app. by left.
  - destruct (findCourse _ _ _) as [[c k]|].
    + destruct cs; simpl in *. apply elem_of_app. by left.
    + by destruct cs.
Qed.

Lemma dropsLoop_keeps_switches (o : Order.t) (ks : list Z) (st : SetsState)
    (sw : CourseSwitch.t) :
  sw ∈ Changeset.CourseSwitches st.1 →
  sw ∈ Changeset.CourseSwitches (foldl (dropsStep o) st ks).1.
Proof.
  apply (foldl_preserves (λ st, sw ∈ Changeset.CourseSwitches st.1)).
  intros s k. apply dropsStep_keeps_switches.
Qed.

(** The moment at which the first loop visits the period [p]: the
    invariant holds there, [p] is still untouched, and the periods left
    to visit do not include [p]. *)
Lemma dropsLoop_moment (o : Order.t) (A B : gmap Z Course.t) (ks : list Z)
    (p : Z) (cs : Changeset.t) (nb : gmap Z Course.t) :
  Order.valid o → NoDup ks → p ∈ ks →
  poolInv A B cs nb → (∀ q, q ∈ ks → nb !! q = None) →
  ∃ cs1 nb1 ks2,
    poolInv A B cs1 nb1 ∧ nb1 !! p = None
    ∧ Changeset.aMap cs1 !! p = Changeset.aMap cs !! p
    ∧ NoDup ks2 ∧ (p ∉ ks2) ∧ (∀ q, q ∈ ks2 → nb1 !! q = None)
    ∧ foldl (dropsStep o) (cs, nb) ks
      = foldl (dropsStep o) (dropsStep o (cs1, nb1) p) ks2.
Proof.
  intros Ho Hnd Hin Hinv Hun.
  apply list_elem_of_split in Hin as (ks1 & ks2 & ->).
  apply NoDup_app in Hnd as (Hnd1 & Hdisj & Hnd2).
  apply NoDup_cons in Hnd2 as [Hp2 Hnd2].
  destruct (poolInv_dropsLoop o A B ks1 Ho Hnd1 cs nb Hinv) as [Hinv1 Hframe].
  { intros q Hq. apply Hun, elem_of_app. by left. }
  destruct (foldl (dropsStep o) (cs, nb) ks1) as [cs1 nb1] eqn:Hloop.
  cbn [fst snd] in *.
  assert (p ∉ ks1) as Hp1.
  { intros Hp1. apply (Hdisj p Hp1). by left. }
  exists cs1, nb1, ks2. split_and!; try done.
  - destruct (Hframe p Hp1) as [-> _]. apply Hun, elem_of_app. right. by left.
  - by destruct (Hframe p Hp1) as [_ ->].
  - intros q Hq.
    assert (q ∉ ks1) as Hq1.
    { intros Hq1. apply (Hdisj q Hq1). by right. }
    destruct (Hframe q Hq1) as [-> _]. apply Hun, elem_of_app. right. by right.
  - by rewrite foldl_app, Hloop.
Qed.

(** The state between the two loops. *)
Lemma poolInv_afterDropsLoop (o : Order.t) (a b : Gradebook.t)
    (A B : gmap Z Course.t) :
  Order.valid o →
  poolInv A B (afterDropsLoop o (freshChangeset a b A B)).1
              (afterDropsLoop o (freshChangeset a b A B)).2.
Proof.
  intros Ho. unfold afterDropsLoop.
  apply poolInv_dropsLoop; [done | | apply poolInv_fresh | done].
  apply NoDup_rangeKeys, Ho.
Qed.

(** One iteration of the second loop. *)
Lemma leftoverInv_additionsStep (o : Order.t) (cs1 cs : Changeset.t)
    (nb1 nb : gmap Z Course.t) (p : Z) :
  Order.valid o → leftoverInv cs1 nb1 cs nb →
  leftoverInv cs1 nb1 (additionsStep o (cs, nb) p).1 (additionsStep o (cs, nb) p).2
  ∧ ∀ k, Changeset.bMap (additionsStep o (cs, nb) p).1 !! k
         = if decide (k = p) then None else Changeset.bMap cs !! k.
Proof.
  intros Ho [HaM Hdr Hsw Hch Hpool Hadd Hpairs]. unfold additionsStep.
  destruct (Changeset.bMap cs !! p) as [bc|] eqn:Hp; cbn [fst snd].
  2:{ split; [done|]. intros k. case_decide; [by subst | done]. }
  destruct (findCourse _ _ _) as [[c k0]|] eqn:Hfind; cbn [fst snd].
  - apply findCourse_Some in Hfind as [Hk0 Hid]. rewrite HaM in Hk0.
    split.
    + destruct cs as [a b aMap bMap sws adds drops chgs]. simpl in *.
      constructor; simpl; try done.
      * intros k x. rewrite lookup_delete. case_decide; [done | apply Hpool].
      * intros x. rewrite Hadd. split.
        -- intros (k & Hk & Hnone & Hlack). exists k. split_and!; try done.
           rewrite lookup_delete. by case_decide.
        -- intros (k & Hk & Hnone & Hlack). rewrite lookup_delete in Hnone.
           case_decide as Hkp; [|eauto]. subst k.
           rewrite (Hpool _ _ Hp) in Hk. injection Hk as <-.
           by destruct (Hlack k0 c Hk0).
      * intros q. rewrite lookup_insert. case_decide as Hq; [|apply Hpairs].
        subst q. right. exists c, p, bc. split_and!; try done. by apply Hpool.
    + intros k. destruct cs. simpl. rewrite lookup_delete.
      repeat case_decide; congruence.
  - apply findCourse_None in Hfind; [|apply Ho]. rewrite HaM in Hfind.
    split.
    + destruct cs as [a b aMap bMap sws adds drops chgs]. simpl in *.
      constructor; simpl; try done.
      * intros k x. rewrite lookup_delete. case_decide; [done | apply Hpool].
      * intros x. rewrite elem_of_app, list_elem_of_singleton, Hadd. split.
        -- intros [(k & Hk & Hnone & Hlack) | ->].
           ++ exists k. split_and!; try done. rewrite lookup_delete. by case_decide.
           ++ exists p. split_and!; [by apply Hpool | apply lookup_delete_eq | done].
        -- intros (k & Hk & Hnone & Hlack). rewrite lookup_delete in Hnone.
           case_decide as Hkp; [|left; eauto]. subst k.
           rewrite (Hpool _ _ Hp) in Hk. injection Hk as <-. by right.
    + intros k. destruct cs. simpl. rewrite lookup_delete.
      repeat case_decide; congruence.
Qed.

(** The whole second loop. *)
Lemma leftoverInv_additionsLoop (o : Order.t) (cs1 : Changeset.t)
    (nb1 : gmap Z Course.t) (ks : list Z) :
  Order.valid o →
  ∀ cs nb, leftoverInv cs1 nb1 cs nb →
    leftoverInv cs1 nb1 (foldl (additionsStep o) (cs, nb) ks).1
                        (foldl (additionsStep o) (cs, nb) ks).2
    ∧ ∀ k, Changeset.bMap (foldl (additionsStep o) (cs, nb) ks).1 !! k
           = if decide (k ∈ ks) then None else Changeset.bMap cs !! k.
Proof.
  intros Ho. induction ks as [|p ks IH]; intros cs nb Hinv.
  { split; [done|]. intros k. case_decide as Hk; [|done]. by apply elem_of_nil in Hk. }
  cbn [foldl].
  destruct (leftoverInv_additionsStep o cs1 cs nb1 nb p Ho Hinv) as [Hinv' Hb].
  destruct (additionsStep o (cs, nb) p) as [cs' nb']. cbn [fst snd] in *.
  destruct (IH cs' nb' Hinv') as [Hfin Hbfin]. split; [done|].
  intros k. rewrite Hbfin, Hb.
  destruct (decide (k = p)) as [->|Hkp].
  - rewrite (decide_True (P := p ∈ p :: ks)) by (by left). by case_decide.
  - destruct (decide (k ∈ ks)) as [Hk|Hk].
    + rewrite decide_True; [done | by right].
    + rewrite decide_False; [done|]. by intros [?|?]%elem_of_cons.
Qed.

Lemma leftoverInv_start (cs1 : Changeset.t) (nb1 : gmap Z Course.t) :
  Changeset.CourseAdditions cs1 = [] → leftoverInv cs1 nb1 cs1 nb1.
Proof.
  intros Hadd. constructor; try done; [|by left].
  intros bc. rewrite Hadd. split; [by intros ?%elem_of_nil|].
  intros (k & Hk & Hnone & _). congruence.
Qed.

(** diffCourseSets as its two loops: the state between them satisfies
    the invariant of the first, the state after them that of the second,
    and the pool is then empty. *)
Lemma diffCourseSets_loops (o : Order.t) (a b : Gradebook.t)
    (A B : gmap Z Course.t) :
  Order.valid o →
  ∃ cs1 nb1 cs2 nb2,
    afterDropsLoop o (freshChangeset a b A B) = (cs1, nb1)
    ∧ poolInv A B cs1 nb1
    ∧ leftoverInv cs1 nb1 cs2 nb2
    ∧ (∀ k, Changeset.bMap cs2 !! k = None)
    ∧ diffCourseSets o (freshChangeset a b A B) = Changeset.setBMap cs2 nb2.
Proof.
  intros Ho. pose proof (poolInv_afterDropsLoop o a b A B Ho) as Hinv1.
  unfold diffCourseSets. fold (afterDropsLoop o (freshChangeset a b A B)).
  destruct (afterDropsLoop o (freshChangeset a b A B)) as [cs1 nb1].
  cbn [fst snd] in *.
  destruct (leftoverInv_additionsLoop o cs1 nb1
              (rangeKeys (Order.additionsLoop o) (Changeset.bMap cs1)) Ho cs1 nb1)
    as [Hinv2 Hb].
  { apply leftoverInv_start, Hinv1. }
  destruct (foldl (additionsStep o) (cs1, nb1) _) as [cs2 nb2].
  cbn [fst snd] in *.
  exists cs1, nb1, cs2, nb2. split_and!; try done.
  intros k. rewrite Hb. case_decide as Hk; [done|].
  destruct (Changeset.bMap cs1 !! k) eqn:Hlook; [|done].
  destruct Hk. apply elem_of_rangeKeys; [apply Ho | by eexists].
Qed.

(** X4 (diffCourseSets): in every order of visit, each pairing that
    diffCourseSets leaves in bMap sits at a period whose older course is
    still in aMap and carries the same ID as the course paired with it;
    the paired course comes from the newer snapshot, or is the older
    course itself (what the second loop stores). *)
Theorem diffCourseSets_pairs_same_ID (o : Order.t) (a b : Gradebook.t)
    (A B : gmap Z Course.t) (p : Z) (bc : Course.t) :
  Order.valid o →
  Changeset.bMap (diffCourseSets o (freshChangeset a b A B)) !! p = Some bc →
  ∃ ac, Changeset.aMap (diffCourseSets o (freshChangeset a b A B)) !! p = Some ac
        ∧ A !! p = Some ac
        ∧ courseKey ac = courseKey bc
        ∧ ((∃ k, B !! k = Some bc) ∨ bc = ac).
Proof.
  intros Ho.
  destruct (diffCourseSets_loops o a b A B Ho)
    as (cs1 & nb1 & cs2 & nb2 & _ & Hinv1 & Hinv2 & _ & ->).
  destruct Hinv2 as [HaM _ _ _ _ _ Hpairs].
  assert (Changeset.aMap (Changeset.setBMap cs2 nb2) = Changeset.aMap cs1) as ->
    by (by destruct cs2).
  assert (Changeset.bMap (Changeset.setBMap cs2 nb2) = nb2) as ->
    by (by destruct cs2).
  intros Hp. destruct (Hpairs p) as [Hsame | (ac & k & x & Hac & Ha1 & _ & _)].
  - rewrite Hsame in Hp. destruct (inv_pairs _ _ _ _ Hinv1 p bc Hp) as (ac & ? & ? & ?).
    exists ac. split_and!; try done. by apply (inv_kept _ _ _ _ Hinv1).
  - rewrite Hac in Hp. injection Hp as <-. exists ac.
    split_and!; [done | by apply (inv_kept _ _ _ _ Hinv1) | done | by right].
Qed.

Lemma diffCourseSets_pairs_same_ID_witness :
  ∃ ac, Changeset.aMap
          (diffCourseSets Order.reversed
             (freshChangeset emptyBook emptyBook
                (byPeriod [Sample.algebra; Sample.ungraded])
                (byPeriod [Sample.biology; movedAlgebra])))
          !! 1 = Some ac
        ∧ byPeriod [Sample.algebra; Sample.ungraded] !! 1 = Some ac
        ∧ courseKey ac = courseKey movedAlgebra
        ∧ ((∃ k, byPeriod [Sample.biology; movedAlgebra] !! k
                 = Some movedAlgebra)
           ∨ movedAlgebra = ac).
Proof.
  apply (diffCourseSets_pairs_same_ID Order.reversed _ _ _ _ 1 _ reversed_valid).
  reflexivity.
Defined.

(** X5 (diffCourseSets): in every order of visit, each CourseSwitch
    recorded joins a course of the older map and a course of the newer map
    that carry the same ID and sit at different keys, with the two courses'
    own periods; so with maps keyed by period, as coursesAsMap builds them,
    no switch has BeforePeriod equal to AfterPeriod. *)
Theorem diffCourseSets_switches_sound (o : Order.t) (a b : Gradebook.t)
    (A B : gmap Z Course.t) :
  Order.valid o →
  Forall (soundSwitch A B)
         (Changeset.CourseSwitches (diffCourseSets o (freshChangeset a b A B)))
  ∧ (keyedByPeriod A → keyedByPeriod B →
     Forall (λ sw, CourseSwitch.BeforePeriod sw ≠ CourseSwitch.AfterPeriod sw)
            (Changeset.CourseSwitches (diffCourseSets o (freshChangeset a b A B)))).
Proof.
  intros Ho.
  destruct (diffCourseSets_loops o a b A B Ho)
    as (cs1 & nb1 & cs2 & nb2 & _ & Hinv1 & Hinv2 & _ & ->).
  assert (Changeset.CourseSwitches (Changeset.setBMap cs2 nb2)
          = Changeset.CourseSwitches cs1) as ->.
  { rewrite <- (left_switches _ _ _ _ Hinv2). by destruct cs2. }
  pose proof (inv_switches _ _ _ _ Hinv1) as Hsound. split; [done|].
  intros HA HB. eapply Forall_impl; [exact Hsound|].
  intros sw ((p & k & Hp & Hk & Hpk) & _ & -> & ->).
  by rewrite (HA _ _ Hp), (HB _ _ Hk).
Qed.

Lemma diffCourseSets_switches_sound_witness :
  Forall (soundSwitch (byPeriod [Sample.algebra; Sample.ungraded])
            (byPeriod [Sample.biology; movedAlgebra]))
    (Changeset.CourseSwitches
       (diffCourseSets Order.reversed
          (freshChangeset emptyBook emptyBook
             (byPeriod [Sample.algebra; Sample.ungraded])
             (byPeriod [Sample.biology; movedAlgebra])))).
Proof.
  exact (proj1 (diffCourseSets_switches_sound Order.reversed _ _ _ _ reversed_valid)).
Defined.

(** The courses of the older map that are missing from aMap at the end
    are the recorded drops, and the others are where they were. *)
Lemma diffCourseSets_conserves (o : Order.t) (a b : Gradebook.t)
    (A B : gmap Z Course.t) :
  Order.valid o →
  ∃ cs1 nb1,
    afterDropsLoop o (freshChangeset a b A B) = (cs1, nb1)
    ∧ poolInv A B cs1 nb1
    ∧ Changeset.aMap (diffCourseSets o (freshChangeset a b A B)) = Changeset.aMap cs1
    ∧ Changeset.CourseDrops (diffCourseSets o (freshChangeset a b A B))
      = Changeset.CourseDrops cs1
    ∧ Changeset.CourseSwitches (diffCourseSets o (freshChangeset a b A B))
      = Changeset.CourseSwitches cs1.
Proof.
  intros Ho.
  destruct (diffCourseSets_loops o a b A B Ho)
    as (cs1 & nb1 & cs2 & nb2 & Hst & Hinv1 & Hinv2 & _ & ->).
  exists cs1, nb1. destruct Hinv2 as [HaM Hdr Hsw _ _ _ _].
  split_and!; try done; by destruct cs2.
Qed.

(** X6 (diffCourseSets): in every order of visit, aMap only loses
    entries, and the courses it lost are exactly the recorded CourseDrops;
    when the older snapshot has no two courses with the same ID, no course
    of the newer snapshot carries the ID of a dropped course. *)
Theorem diffCourseSets_drops (o : Order.t) (a b : Gradebook.t)
    (A B : gmap Z Course.t) :
  Order.valid o →
  (∀ p c, Changeset.aMap (diffCourseSets o (freshChangeset a b A B)) !! p = Some c →
          A !! p = Some c)
  ∧ (∀ c, c ∈ Changeset.CourseDrops (diffCourseSets o (freshChangeset a b A B))
          ↔ ∃ p, A !! p = Some c
                 ∧ Changeset.aMap (diffCourseSets o (freshChangeset a b A B)) !! p = None)
  ∧ (distinctIDs A →
     ∀ c, c ∈ Changeset.CourseDrops (diffCourseSets o (freshChangeset a b A B)) →
          lacksID B (courseKey c)).
Proof.
  intros Ho.
  destruct (diffCourseSets_conserves o a b A B Ho)
    as (cs1 & nb1 & _ & Hinv & -> & -> & _).
  split_and!.
  - apply (inv_kept _ _ _ _ Hinv).
  - apply (inv_drops _ _ _ _ Hinv).
  - intros Hdist c Hc k x Hk Hid.
    destruct (Changeset.bMap cs1 !! k) as [y|] eqn:Hpool.
    + pose proof (inv_pool _ _ _ _ Hinv k y Hpool) as Hy.
      rewrite Hk in Hy. injection Hy as <-.
      by apply (inv_drop_ids _ _ _ _ Hinv c Hc k x).
    + destruct (inv_consumed _ _ _ _ Hinv k x Hk Hpool) as [p0 Hp0].
      destruct (inv_pairs _ _ _ _ Hinv p0 x Hp0) as (ac & Hac & Hidac & _).
      apply (inv_drops _ _ _ _ Hinv) in Hc as (p & HAp & Hnone).
      pose proof (inv_kept _ _ _ _ Hinv p0 ac Hac) as HA0.
      assert (p0 = p) as -> by (apply (Hdist p0 p ac c); congruence).
      congruence.
Qed.

Lemma diffCourseSets_drops_witness :
  ∃ p, byPeriod [Sample.algebra; Sample.ungraded] !! p = Some Sample.ungraded
       ∧ Changeset.aMap
           (diffCourseSets Order.reversed
              (freshChangeset emptyBook emptyBook
                 (byPeriod [Sample.algebra; Sample.ungraded])
                 (byPeriod [movedAlgebra])))
           !! p = None.
Proof.
  apply (proj1 (proj2 (diffCourseSets_drops Order.reversed _ _ _ _ reversed_valid))).
  vm_compute. apply list_elem_of_here.
Defined.

(** X7 (diffCourseSets): in every order of visit, the recorded
    CourseAdditions are exactly the courses of the newer map whose ID no
    course of the older map carries. *)
Theorem diffCourseSets_additions (o : Order.t) (a b : Gradebook.t)
    (A B : gmap Z Course.t) (bc : Course.t) :
  Order.valid o →
  bc ∈ Changeset.CourseAdditions (diffCourseSets o (freshChangeset a b A B))
  ↔ (∃ k, B !! k = Some bc) ∧ lacksID A (courseKey bc).
Proof.
  intros Ho.
  destruct (diffCourseSets_loops o a b A B Ho)
    as (cs1 & nb1 & cs2 & nb2 & _ & Hinv1 & Hinv2 & Hempty & ->).
  assert (Changeset.CourseAdditions (Changeset.setBMap cs2 nb2)
          = Changeset.CourseAdditions cs2) as -> by (by destruct cs2).
  rewrite (left_additions _ _ _ _ Hinv2). split.
  - intros (k & Hk & _ & Hlack). split.
    + exists k. by apply (inv_pool _ _ _ _ Hinv1).
    + intros q y Hq Hid.
      destruct (Changeset.aMap cs1 !! q) as [y'|] eqn:Hq1.
      * pose proof (inv_kept _ _ _ _ Hinv1 q y' Hq1) as Hy'.
        rewrite Hq in Hy'. injection Hy' as <-. by apply (Hlack q y).
      * assert (y ∈ Changeset.CourseDrops cs1) as Hdrop
          by (apply (inv_drops _ _ _ _ Hinv1); eauto).
        by apply (inv_drop_ids _ _ _ _ Hinv1 y Hdrop k bc).
  - intros [[k Hk] Hlack]. exists k. split_and!.
    + by apply (inv_unmatched _ _ _ _ Hinv1).
    + apply Hempty.
    + intros q y Hq. apply (Hlack q y). by apply (inv_kept _ _ _ _ Hinv1).
Qed.

Lemma diffCourseSets_additions_witness :
  Sample.biology
  ∈ Changeset.CourseAdditions
      (diffCourseSets Order.reversed
         (freshChangeset emptyBook emptyBook
            (byPeriod [Sample.algebra; Sample.ungraded])
            (byPeriod [Sample.biology; movedAlgebra]))).
Proof.
  apply (proj2 (diffCourseSets_additions Order.reversed emptyBook emptyBook
                  (byPeriod [Sample.algebra; Sample.ungraded])
                  (byPeriod [Sample.biology; movedAlgebra])
                  Sample.biology reversed_valid)).
  split.
  - by exists 1.
  - intros k c Hk. unfold byPeriod in Hk. simpl in Hk.
    rewrite !lookup_insert in Hk. repeat case_decide; by simplify_eq.
Defined.

(** ** What the first loop does at one period *)

(** A course that left the pool never comes back. *)
Lemma dropsStep_pool_gone (o : Order.t) (st : SetsState) (p k : Z) :
  Changeset.bMap st.1 !! k = None →
  Changeset.bMap (dropsStep o st p).1 !! k = None.
Proof.
  destruct st as [cs nb]. unfold dropsStep, findCourseSwitch. cbn [fst snd].
  intros Hk.
  destruct (Changeset.aMap cs !! p) as [ac|]; [|done].
  destruct (Changeset.bMap cs !! p) as [bc|].
  - destruct (String.eqb _ _).
    + destruct cs; simpl in *. rewrite lookup_delete. by case_decide.
    + destruct (findCourse _ _ _) as [[c k0]|]; [|done].
      destruct cs; simpl in *. rewrite lookup_delete. by case_decide.
  - destruct (findCourse _ _ _) as [[c k0]|].
    + destruct cs; simpl in *. rewrite lookup_delete. by case_decide.
    + by destruct cs.
Qed.

Lemma dropsLoop_pool_gone (o : Order.t) (ks : list Z) (st : SetsState) (k : Z) :
  Changeset.bMap st.1 !! k = None →
  Changeset.bMap (foldl (dropsStep o) st ks).1 !! k = None.
Proof.
  apply (foldl_preserves (λ st, Changeset.bMap st.1 !! k = None)).
  intros s q. apply dropsStep_pool_gone.
Qed.

(** The first loop seen from one period [p] of the older map: the state
    [(cs0, nb0)] in which [p] is visited satisfies the invariant and has
    not touched [p]; what the iteration at [p] leaves at [p] is what the
    loop leaves there. *)
Lemma dropsLoop_at (o : Order.t) (a b : Gradebook.t) (A B : gmap Z Course.t)
    (p : Z) :
  Order.valid o → is_Some (A !! p) →
  ∃ cs0 nb0,
    poolInv A B cs0 nb0 ∧ nb0 !! p = None
    ∧ Changeset.aMap cs0 !! p = A !! p
    ∧ (afterDropsLoop o (freshChangeset a b A B)).2 !! p
      = (dropsStep o (cs0, nb0) p).2 !! p
    ∧ Changeset.aMap (afterDropsLoop o (freshChangeset a b A B)).1 !! p
      = Changeset.aMap (dropsStep o (cs0, nb0) p).1 !! p
    ∧ (∀ sw, sw ∈ Changeset.CourseSwitches (dropsStep o (cs0, nb0) p).1 →
             sw ∈ Changeset.CourseSwitches
                    (afterDropsLoop o (freshChangeset a b A B)).1)
    ∧ (∀ k, Changeset.bMap (dropsStep o (cs0, nb0) p).1 !! k = None →
            Changeset.bMap (afterDropsLoop o (freshChangeset a b A B)).1 !! k
            = None).
Proof.
  intros Ho Hp. unfold afterDropsLoop.
  destruct (dropsLoop_moment o A B
              (rangeKeys (Order.dropsLoop o) (Changeset.aMap (freshChangeset a b A B)))
              p (freshChangeset a b A B) ∅ Ho)
    as (cs0 & nb0 & ks2 & Hinv & Hnb & Ha & Hnd & Hp2 & Hun & ->).
  { apply NoDup_rangeKeys, Ho. }
  { apply elem_of_rangeKeys; [apply Ho | done]. }
  { apply poolInv_fresh. }
  { done. }
  exists cs0, nb0.
  destruct (poolInv_dropsStep o A B cs0 nb0 p Ho Hinv Hnb) as (Hinv' & Hnb' & Ha').
  destruct (poolInv_dropsLoop o A B ks2 Ho Hnd
              (dropsStep o (cs0, nb0) p).1 (dropsStep o (cs0, nb0) p).2 Hinv')
    as [_ Hframe].
  { intros q Hq. rewrite Hnb'; [by apply Hun|]. by intros ->. }
  rewrite <- surjective_pairing in Hframe.
  destruct (Hframe p Hp2) as [Hnbp Hap].
  split_and!; try done.
  - intros sw. apply dropsLoop_keeps_switches.
  - intros k. apply dropsLoop_pool_gone.
Qed.

(** With distinct IDs in the older map, a course of the newer map stays
    in the pool until the period of the older course with its ID is
    visited. *)
Lemma pool_keeps_unvisited (A B : gmap Z Course.t) (cs : Changeset.t)
    (nb : gmap Z Course.t) (p q : Z) (ac bc : Course.t) :
  poolInv A B cs nb → distinctIDs A →
  A !! p = Some ac → nb !! p = None →
  B !! q = Some bc → courseKey ac = courseKey bc →
  Changeset.bMap cs !! q = Some bc.
Proof.
  intros Hinv Hdist Hp Hnb Hq Hid.
  destruct (Changeset.bMap cs !! q) as [y|] eqn:Hpool.
  - pose proof (inv_pool _ _ _ _ Hinv q y Hpool). congruence.
  - destruct (inv_consumed _ _ _ _ Hinv q bc Hq Hpool) as [p0 Hp0].
    destruct (inv_pairs _ _ _ _ Hinv p0 bc Hp0) as (ac0 & Hac0 & Hid0 & _).
    pose proof (inv_kept _ _ _ _ Hinv p0 ac0 Hac0) as HA0.
    assert (p0 = p) as -> by (apply (Hdist p0 p ac0 ac); congruence).
    congruence.
Qed.

(** One iteration at the period of a course whose ID is still in the
    pool: the course is kept and paired with a course of the pool that
    carries its ID, which leaves the pool; when that course sat at another
    key, the switch is recorded. *)
Lemma dropsStep_covered (o : Order.t) (cs : Changeset.t) (nb : gmap Z Course.t)
    (p q : Z) (ac bc : Course.t) :
  Order.valid o →
  Changeset.aMap cs !! p = Some ac →
  Changeset.bMap cs !! q = Some bc → courseKey ac = courseKey bc →
  Changeset.aMap (dropsStep o (cs, nb) p).1 !! p = Some ac
  ∧ ∃ x k, (dropsStep o (cs, nb) p).2 !! p = Some x
           ∧ Changeset.bMap cs !! k = Some x
           ∧ courseKey x = courseKey ac
           ∧ Changeset.bMap (dropsStep o (cs, nb) p).1 !! k = None
           ∧ (k ≠ p →
              CourseSwitch.mk ac x (Course.Period ac) (Course.Period x)
              ∈ Changeset.CourseSwitches (dropsStep o (cs, nb) p).1).
Proof.
  intros Ho Ha Hq Hid. unfold dropsStep, findCourseSwitch. rewrite Ha.
  assert (∃ c k, findCourse (Order.findInB o p) (Changeset.bMap cs) (courseKey ac)
                 = Some (c, k)) as (c & k & Hfind).
  { destruct (findCourse _ _ _) as [[c k]|] eqn:Hfind; [by eauto|].
    apply findCourse_None in Hfind; [|apply Ho]. by destruct (Hfind q bc Hq). }
  rewrite Hfind. apply findCourse_Some in Hfind as [Hk Hidc].
  assert (Changeset.aMap
            (Changeset.setBMap
               (Changeset.addSwitch cs
                  (CourseSwitch.mk ac c (Course.Period ac) (Course.Period c)))
               (delete k (Changeset.bMap
                            (Changeset.addSwitch cs
                               (CourseSwitch.mk ac c (Course.Period ac)
                                                (Course.Period c)))))) !! p
          = Some ac
          ∧ ∃ x k0, <[p := c]> nb !! p = Some x
              ∧ Changeset.bMap cs !! k0 = Some x
              ∧ courseKey x = courseKey ac
              ∧ Changeset.bMap
                  (Changeset.setBMap
                     (Changeset.addSwitch cs
                        (CourseSwitch.mk ac c (Course.Period ac) (Course.Period c)))
                     (delete k (Changeset.bMap
                                  (Changeset.addSwitch cs
                                     (CourseSwitch.mk ac c (Course.Period ac)
                                                      (Course.Period c)))))) !! k0
                = None
              ∧ (k0 ≠ p →
                 CourseSwitch.mk ac x (Course.Period ac) (Course.Period x)
                 ∈ Changeset.CourseSwitches
                     (Changeset.setBMap
                        (Changeset.addSwitch cs
                           (CourseSwitch.mk ac c (Course.Period ac) (Course.Period c)))
                        (delete k (Changeset.bMap
                                     (Changeset.addSwitch cs
                                        (CourseSwitch.mk ac c (Course.Period ac)
                                                         (Course.Period c))))))))
    as Hswitch.
  { destruct cs as [a0 b0 aMap bMap sws adds drops chgs]. simpl in *.
    split; [done|]. exists c, k. rewrite lookup_insert_eq, lookup_delete_eq.
    split_and!; try done. intros _. apply elem_of_app. right. by left. }
  destruct (Changeset.bMap cs !! p) as [y|] eqn:Hp; cbn [fst snd].
  - destruct (String.eqb_spec (courseKey ac) (courseKey y)) as [Heq|Hne];
      cbn [fst snd]; [|done].
    split; [by destruct cs|]. exists y, p. rewrite lookup_insert_eq.
    split_and!; try done. destruct cs; simpl. apply lookup_delete_eq.
  - done.
Qed.

(** After the first loop, with distinct IDs in the older map: a course
    whose ID the newer map carries is kept, and paired with a course of the
    newer map that carries its ID and has left the pool. *)
Lemma dropsLoop_covered (o : Order.t) (a b : Gradebook.t) (A B : gmap Z Course.t)
    (p q : Z) (ac bc : Course.t) :
  Order.valid o → distinctIDs A →
  A !! p = Some ac → B !! q = Some bc → courseKey ac = courseKey bc →
  Changeset.aMap (afterDropsLoop o (freshChangeset a b A B)).1 !! p = Some ac
  ∧ ∃ x k, (afterDropsLoop o (freshChangeset a b A B)).2 !! p = Some x
           ∧ B !! k = Some x
           ∧ courseKey x = courseKey ac
           ∧ Changeset.bMap (afterDropsLoop o (freshChangeset a b A B)).1 !! k = None
           ∧ (k ≠ p →
              CourseSwitch.mk ac x (Course.Period ac) (Course.Period x)
              ∈ Changeset.CourseSwitches
                  (afterDropsLoop o (freshChangeset a b A B)).1).
Proof.
  intros Ho Hdist Hp Hq Hid.
  destruct (dropsLoop_at o a b A B p Ho) as
    (cs0 & nb0 & Hinv & Hnb & Ha & -> & -> & Hsw & Hgone); [by eexists|].
  rewrite Hp in Ha.
  pose proof (pool_keeps_unvisited A B cs0 nb0 p q ac bc Hinv Hdist Hp Hnb Hq Hid)
    as Hpool.
  destruct (dropsStep_covered o cs0 nb0 p q ac bc Ho Ha Hpool Hid)
    as (Hkept & x & k & Hx & Hk & Hidx & Hnone & Hswitch).
  split; [done|]. exists x, k. split_and!; try done.
  - by apply (inv_pool _ _ _ _ Hinv).
  - by apply Hgone.
  - intros Hkp. by apply Hsw, Hswitch.
Qed.

(** X8 (diffCourseSets): in every order of visit, a course of the
    older map whose period is free in the newer map and whose ID no course
    of the newer map carries is recorded in CourseDrops and removed from
    aMap. *)
Theorem diffCourseSets_drops_vanished (o : Order.t) (a b : Gradebook.t)
    (A B : gmap Z Course.t) (p : Z) (ac : Course.t) :
  Order.valid o →
  A !! p = Some ac → B !! p = None → lacksID B (courseKey ac) →
  ac ∈ Changeset.CourseDrops (diffCourseSets o (freshChangeset a b A B))
  ∧ Changeset.aMap (diffCourseSets o (freshChangeset a b A B)) !! p = None.
Proof.
  intros Ho Hp HBp Hlack.
  destruct (diffCourseSets_conserves o a b A B Ho)
    as (cs1 & nb1 & Hst & Hinv & -> & -> & _).
  destruct (dropsLoop_at o a b A B p Ho) as
    (cs0 & nb0 & Hinv0 & Hnb & Ha & _ & Hafter & _); [by eexists|].
  rewrite Hst, Hp in *. cbn [fst snd] in *.
  assert (Changeset.aMap cs1 !! p = None) as Hgone.
  { rewrite Hafter, (dropsStep_drops_not_found o cs0 nb0 p ac); try done.
    - destruct cs0. simpl. apply lookup_delete_eq.
    - destruct (Changeset.bMap cs0 !! p) as [y|] eqn:Hy; [|done].
      pose proof (inv_pool _ _ _ _ Hinv0 p y Hy). congruence.
    - intros k c Hk. apply (Hlack k c). by apply (inv_pool _ _ _ _ Hinv0). }
  split; [|done]. apply (inv_drops _ _ _ _ Hinv). eauto.
Qed.

Lemma diffCourseSets_drops_vanished_witness :
  Sample.ungraded
  ∈ Changeset.CourseDrops
      (diffCourseSets Order.reversed
         (freshChangeset emptyBook emptyBook
            (byPeriod [Sample.algebra; Sample.ungraded])
            (byPeriod [Sample.biology; movedAlgebra])))
  ∧ Changeset.aMap
      (diffCourseSets Order.reversed
         (freshChangeset emptyBook emptyBook
            (byPeriod [Sample.algebra; Sample.ungraded])
            (byPeriod [Sample.biology; movedAlgebra]))) !! 2 = None.
Proof.
  apply (diffCourseSets_drops_vanished Order.reversed emptyBook emptyBook
           (byPeriod [Sample.algebra; Sample.ungraded])
           (byPeriod [Sample.biology; movedAlgebra])
           2 Sample.ungraded reversed_valid); [reflexivity | reflexivity |].
  intros k c Hk. unfold byPeriod in Hk. simpl in Hk.
  rewrite !lookup_insert in Hk. repeat case_decide; by simplify_eq.
Defined.

(** X9 (diffCourseSets): when neither map has two courses with the
    same ID, in every order of visit a course of the older map whose ID a
    course of the newer map carries is kept in aMap and paired with that
    course; when the two sit at different keys the switch between them is
    recorded, and when they sit at the same key no switch names the older
    course. *)
Theorem diffCourseSets_pairs_by_ID (o : Order.t) (a b : Gradebook.t)
    (A B : gmap Z Course.t) (p q : Z) (ac bc : Course.t) :
  Order.valid o → distinctIDs A → distinctIDs B →
  A !! p = Some ac → B !! q = Some bc → courseKey ac = courseKey bc →
  Changeset.aMap (diffCourseSets o (freshChangeset a b A B)) !! p = Some ac
  ∧ Changeset.bMap (diffCourseSets o (freshChangeset a b A B)) !! p = Some bc
  ∧ (p ≠ q →
     CourseSwitch.mk ac bc (Course.Period ac) (Course.Period bc)
     ∈ Changeset.CourseSwitches (diffCourseSets o (freshChangeset a b A B)))
  ∧ (p = q →
     ∀ sw, sw ∈ Changeset.CourseSwitches (diffCourseSets o (freshChangeset a b A B)) →
           CourseSwitch.Before sw ≠ ac).
Proof.
  intros Ho HdA HdB Hp Hq Hid.
  destruct (dropsLoop_covered o a b A B p q ac bc Ho HdA Hp Hq Hid)
    as (Hkept & x & k & Hx & Hk & Hidx & Hgone & Hswitch).
  destruct (diffCourseSets_loops o a b A B Ho)
    as (cs1 & nb1 & cs2 & nb2 & Hst & Hinv1 & Hinv2 & _ & ->).
  rewrite Hst in *. cbn [fst snd] in *.
  assert (k = q) as -> by (apply (HdB k q x bc); congruence).
  assert (x = bc) as -> by congruence.
  destruct Hinv2 as [HaM _ Hsw _ _ _ Hpairs].
  assert (Changeset.aMap (Changeset.setBMap cs2 nb2) = Changeset.aMap cs1) as ->
    by (by destruct cs2).
  assert (Changeset.bMap (Changeset.setBMap cs2 nb2) = nb2) as ->
    by (by destruct cs2).
  assert (Changeset.CourseSwitches (Changeset.setBMap cs2 nb2)
          = Changeset.CourseSwitches cs1) as -> by (by destruct cs2).
  split_and!.
  - done.
  - destruct (Hpairs p) as [-> | (ac' & k' & y & _ & Hac' & Hy & Hidy)]; [done|].
    pose proof (inv_pool _ _ _ _ Hinv1 k' y Hy) as HBy.
    assert (k' = q) as -> by (apply (HdB k' q y bc); congruence).
    congruence.
  - intros Hpq. apply Hswitch. by intros ->.
  - intros <- sw Hin <-.
    pose proof (inv_switches _ _ _ _ Hinv1) as Hsound.
    rewrite Forall_forall in Hsound.
    destruct (Hsound sw Hin) as ((p' & k' & Hp' & Hk' & Hne) & Hids & _).
    assert (p' = p) as -> by (apply (HdA p' p _ _ Hp' Hp); done).
    assert (k' = p) as -> by (apply (HdB k' p _ _ Hk' Hq); congruence).
    done.
Qed.

(** Lookups in a map built from a literal slice. *)
Ltac literal_lookups :=
  unfold byPeriod in *; cbn [foldl] in *;
  repeat match goal with
         | H : _ !! _ = Some _ |- _ =>
             progress (rewrite ?lookup_insert, ?lookup_empty in H)
         end;
  repeat case_decide; simplify_eq; try done.

Lemma diffCourseSets_pairs_by_ID_witness :
  Changeset.aMap
    (diffCourseSets Order.reversed
       (freshChangeset emptyBook emptyBook
          (byPeriod [Sample.algebra; Sample.ungraded])
          (byPeriod [movedAlgebra; Sample.ungraded']))) !! 1 = Some Sample.algebra
  ∧ Changeset.bMap
      (diffCourseSets Order.reversed
         (freshChangeset emptyBook emptyBook
            (byPeriod [Sample.algebra; Sample.ungraded])
            (byPeriod [movedAlgebra; Sample.ungraded']))) !! 1 = Some movedAlgebra
  ∧ (1 ≠ 3 →
     CourseSwitch.mk Sample.algebra movedAlgebra
                     (Course.Period Sample.algebra) (Course.Period movedAlgebra)
     ∈ Changeset.CourseSwitches
         (diffCourseSets Order.reversed
            (freshChangeset emptyBook emptyBook
               (byPeriod [Sample.algebra; Sample.ungraded])
               (byPeriod [movedAlgebra; Sample.ungraded']))))
  ∧ (1 = 3 →
     ∀ sw, sw ∈ Changeset.CourseSwitches
                  (diffCourseSets Order.reversed
                     (freshChangeset emptyBook emptyBook
                        (byPeriod [Sample.algebra; Sample.ungraded])
                        (byPeriod [movedAlgebra; Sample.ungraded']))) →
           CourseSwitch.Before sw ≠ Sample.algebra).
Proof.
  apply (diffCourseSets_pairs_by_ID Order.reversed emptyBook emptyBook
           (byPeriod [Sample.algebra; Sample.ungraded])
           (byPeriod [movedAlgebra; Sample.ungraded'])
           1 3 Sample.algebra movedAlgebra reversed_valid);
    try reflexivity.
  - intros p p' c c' H1 H2 Hid. literal_lookups.
  - intros p p' c c' H1 H2 Hid. literal_lookups.
Defined.

(** ** The assignment stage as a whole *)

(** X10 (diffCourseAssignments): the test
    [cc.GradeChange != nil || len(additions)|len(changes)|len(removals) > 0]
    holds exactly when the record has a grade change or one of its three
    lists is not empty: the bitwise or of the lengths is positive exactly
    when one of them is. *)
Theorem worthReporting_iff_nonEmpty (cc : CourseChange.t) :
  worthReporting cc = true ↔ nonEmptyChange cc.
Proof.
  unfold worthReporting, nonEmptyChange.
  destruct cc as [c g chs adds rems]. simpl.
  rewrite orb_true_iff, bool_decide_eq_true, Z.ltb_lt.
  pose proof (Nat2Z.is_nonneg (length adds)) as Ha.
  pose proof (Nat2Z.is_nonneg (length chs)) as Hc.
  pose proof (Nat2Z.is_nonneg (length rems)) as Hr.
  assert (0 ≤ Z.lor (Z.of_nat (length adds)) (Z.of_nat (length chs)))%Z as Hac
    by (by apply Z.lor_nonneg).
  assert (0 ≤ Z.lor (Z.lor (Z.of_nat (length adds)) (Z.of_nat (length chs)))
                (Z.of_nat (length rems)))%Z as Hall
    by (by apply Z.lor_nonneg).
  split.
  - intros [[x ->] | Hpos]; [by left|]. right.
    destruct adds as [|? ?]; [|by left].
    destruct chs as [|? ?]; [|by right; left].
    destruct rems as [|? ?]; [|by right; right].
    by vm_compute in Hpos.
  - intros [Hg | Hlists].
    { left. destruct g; [by eexists | done]. }
    right.
    destruct (decide (Z.lor (Z.lor (Z.of_nat (length adds)) (Z.of_nat (length chs)))
                        (Z.of_nat (length rems)) = 0)%Z) as [Hz|Hnz]; [|lia].
    apply Z.lor_eq_0_iff in Hz as [Hz Hr0]. apply Z.lor_eq_0_iff in Hz as [Ha0 Hc0].
    destruct Hlists as [H | [H | H]]; destruct H.
    + apply length_zero_iff_nil. lia.
    + apply length_zero_iff_nil. lia.
    + apply length_zero_iff_nil. lia.
Qed.

Lemma sameSets_refl (cs : Changeset.t) : sameSets cs cs.
Proof. by repeat split. Qed.

Lemma sameSets_trans (cs1 cs2 cs3 : Changeset.t) :
  sameSets cs1 cs2 → sameSets cs2 cs3 → sameSets cs1 cs3.
Proof.
  unfold sameSets. intros (?&?&?&?&?&?&?) (?&?&?&?&?&?&?).
  split_and!; congruence.
Qed.

Lemma reportedAt_sameSets (o : Order.t) (cs cs' : Changeset.t) (p : Z)
    (cc : CourseChange.t) :
  sameSets cs cs' → reportedAt o cs' p cc ↔ reportedAt o cs p cc.
Proof.
  intros (_ & _ & Ha & Hb & _). unfold reportedAt. by rewrite Ha, Hb.
Qed.

(** One iteration of the loop of diffCourseAssignments that does not
    panic. *)
Lemma coursesStep_reports (o : Order.t) (cs cs' : Changeset.t) (p : Z) :
  coursesStep o cs p = Some cs' →
  sameSets cs cs'
  ∧ ∀ cc, cc ∈ Changeset.CourseChanges cs'
          ↔ cc ∈ Changeset.CourseChanges cs ∨ reportedAt o cs p cc.
Proof.
  unfold coursesStep, reportedAt.
  destruct (Changeset.aMap cs !! p) as [ac|] eqn:Ha.
  2:{ intros [= <-]. split; [apply sameSets_refl|]. intros cc. split; [by left|].
      by intros [? | (? & ? & ? & _)]. }
  destruct (Changeset.bMap cs !! p) as [bc|] eqn:Hb; [|done].
  destruct (diffCoursePair o p ac (Some bc)) as [cc0|] eqn:Hpair; [|done].
  cbn [mbind option_bind]. intros [= <-].
  destruct (worthReporting cc0) eqn:Hworth.
  - split; [by destruct cs|]. intros cc.
    assert (Changeset.CourseChanges (Changeset.addChange cs cc0)
            = (Changeset.CourseChanges cs ++ [cc0])%list) as -> by (by destruct cs).
    rewrite elem_of_app, list_elem_of_singleton. split.
    + intros [? | ->]; [by left|]. right. by exists ac, bc.
    + intros [? | (ac' & bc' & Hac' & Hbc' & Hcc & _)]; [by left|]. right.
      congruence.
  - split; [apply sameSets_refl|]. intros cc. split; [by left|].
    intros [? | (ac' & bc' & Hac' & Hbc' & Hcc & Hw)]; [done|].
    congruence.
Qed.

Lemma coursesLoop_reports (o : Order.t) (ks : list Z) :
  ∀ cs cs', forEach (coursesStep o) cs ks = Some cs' →
    sameSets cs cs'
    ∧ ∀ cc, cc ∈ Changeset.CourseChanges cs'
            ↔ cc ∈ Changeset.CourseChanges cs
              ∨ ∃ p, p ∈ ks ∧ reportedAt o cs p cc.
Proof.
  induction ks as [|k ks IH]; intros cs cs'; cbn [forEach].
  { intros [= <-]. split; [apply sameSets_refl|]. intros cc. split; [by left|].
    intros [? | (p & Hp & _)]; [done|]. by apply elem_of_nil in Hp. }
  destruct (coursesStep o cs k) as [cs1|] eqn:Hstep; [|done].
  cbn [mbind option_bind]. intros Hrest.
  destruct (coursesStep_reports o cs cs1 k Hstep) as [Hsame1 Hch1].
  destruct (IH cs1 cs' Hrest) as [Hsame2 Hch2].
  split; [by eapply sameSets_trans|]. intros cc. rewrite Hch2, Hch1. split.
  - intros [[? | ?] | (p & Hp & Hrep)].
    + by left.
    + right. exists k. split; [by left | done].
    + right. exists p. split; [by right|]. by apply (reportedAt_sameSets o cs cs1).
  - intros [? | (p & Hp & Hrep)]; [by left; left|].
    apply elem_of_cons in Hp as [-> | Hp]; [by left; right|].
    right. exists p. split; [done|]. by apply (reportedAt_sameSets o cs cs1).
Qed.

(** The loop changes nothing but CourseChanges, and appends exactly the
    records worth reporting of the paired courses. *)
Lemma diffCourseAssignments_changes (o : Order.t) (cs cs' : Changeset.t) :
  Order.valid o → diffCourseAssignments o cs = Some cs' →
  sameSets cs cs'
  ∧ ∀ cc, cc ∈ Changeset.CourseChanges cs'
          ↔ cc ∈ Changeset.CourseChanges cs ∨ ∃ p, reportedAt o cs p cc.
Proof.
  intros Ho Hrun. destruct (coursesLoop_reports o _ cs cs' Hrun) as [Hsame Hch].
  split; [done|]. intros cc. rewrite Hch. split.
  - intros [? | (p & _ & ?)]; [by left | right; by exists p].
  - intros [? | (p & Hrep)]; [by left|]. right. exists p. split; [|done].
    destruct Hrep as (ac & _ & Hac & _).
    apply elem_of_rangeKeys; [apply Ho | by eexists].
Qed.

(** X11 (diffCourseAssignments): when the loop over the paired courses
    does not panic, it leaves the maps, the switches, the additions and the
    drops as they were, and CourseChanges gains exactly the change records
    of the periods paired in bMap that pass the test of the loop, each
    naming the course of aMap at its period. *)
Theorem diffCourseAssignments_reports (o : Order.t) (cs cs' : Changeset.t) :
  Order.valid o → diffCourseAssignments o cs = Some cs' →
  sameSets cs cs'
  ∧ (∀ cc, cc ∈ Changeset.CourseChanges cs'
           ↔ cc ∈ Changeset.CourseChanges cs ∨ ∃ p, reportedAt o cs p cc)
  ∧ (∀ p cc, reportedAt o cs p cc →
             Changeset.aMap cs !! p = Some (CourseChange.Course cc)).
Proof.
  intros Ho Hrun.
  destruct (diffCourseAssignments_changes o cs cs' Ho Hrun) as [Hsame Hch].
  split_and!; try done.
  intros p cc (ac & bc & Hac & Hbc & Hpair & Hworth).
  rewrite Hac. f_equal. unfold diffCoursePair in Hpair. simpl in Hpair.
  destruct (Course.CurrentMark bc) as [bm|]; [|done].
  destruct (Course.CurrentMark ac) as [am|]; [|done]. simpl in Hpair.
  destruct (reconcileAssignments o p ac am bm) as [cc0|] eqn:Hrec; [|done].
  simpl in Hpair. injection Hpair as <-.
  apply reconcileAssignments_head in Hrec as [<- _].
  unfold gradeChange. by destruct (nonZero _).
Qed.

Lemma diffCourseAssignments_reports_witness :
  ∃ cs', diffCourseAssignments Order.reversed Sample.paired = Some cs'
         ∧ sameSets Sample.paired cs'.
Proof.
  eexists. split; [reflexivity|].
  refine (proj1 (diffCourseAssignments_reports Order.reversed Sample.paired _
                   reversed_valid _)).
  reflexivity.
Defined.

(** ** CalcChangeset as the composition of its stages *)

Lemma diffCourseSets_no_changes (o : Order.t) (a b : Gradebook.t)
    (A B : gmap Z Course.t) :
  Order.valid o →
  Changeset.CourseChanges (diffCourseSets o (freshChangeset a b A B)) = [].
Proof.
  intros Ho.
  destruct (diffCourseSets_loops o a b A B Ho)
    as (cs1 & nb1 & cs2 & nb2 & _ & Hinv1 & Hinv2 & _ & ->).
  rewrite <- (inv_changes _ _ _ _ Hinv1), <- (left_changes _ _ _ _ Hinv2).
  by destruct cs2.
Qed.

(** X12 (CalcChangeset): a changeset that CalcChangeset returns passed
    the semester guard, carries the maps, switches, additions and drops
    exactly as diffCourseSets left them for the maps of the two course
    lists, and its CourseChanges are exactly the records that pass the
    test of the assignment loop at the periods paired by diffCourseSets. *)
Theorem CalcChangeset_composes (o : Order.t) (a b : Gradebook.t)
    (cs : Changeset.t) :
  Order.valid o → CalcChangeset o a b = Returned cs →
  (gradebookSemestersMatch a b).2 = true
  ∧ sameSets (diffCourseSets o (freshChangeset a b (byPeriod (Gradebook.Courses a))
                                               (byPeriod (Gradebook.Courses b))))
             cs
  ∧ ∀ cc, cc ∈ Changeset.CourseChanges cs
          ↔ ∃ p, reportedAt o
                   (diffCourseSets o
                      (freshChangeset a b (byPeriod (Gradebook.Courses a))
                                      (byPeriod (Gradebook.Courses b))))
                   p cc.
Proof.
  intros Ho. unfold CalcChangeset.
  destruct (gradebookSemestersMatch a b) as [[as_ bs] ok]. destruct ok; [|done].
  cbn [negb snd]. unfold diffStages, coursesAsMap.
  fold (freshChangeset a b (byPeriod (Gradebook.Courses a))
                       (byPeriod (Gradebook.Courses b))).
  destruct (diffCourseAssignments o _) as [cs'|] eqn:Hrun; [|done].
  intros [= <-].
  destruct (diffCourseAssignments_changes o _ cs' Ho Hrun) as [Hsame Hch].
  split_and!; try done.
  intros cc. rewrite Hch, diffCourseSets_no_changes by done. split.
  - by intros [?%elem_of_nil | ?].
  - by right.
Qed.

Lemma CalcChangeset_composes_witness :
  ∃ cs, CalcChangeset Order.reversed
          (Sample.gradebook "Q1" [Sample.algebra; Sample.ungraded])
          (Sample.gradebook "Q1" [movedAlgebra; Sample.ungraded'])
        = Returned cs
        ∧ sameSets
            (diffCourseSets Order.reversed
               (freshChangeset
                  (Sample.gradebook "Q1" [Sample.algebra; Sample.ungraded])
                  (Sample.gradebook "Q1" [movedAlgebra; Sample.ungraded'])
                  (byPeriod [Sample.algebra; Sample.ungraded])
                  (byPeriod [movedAlgebra; Sample.ungraded'])))
            cs.
Proof.
  eexists. split; [reflexivity|].
  refine (proj1 (proj2 (CalcChangeset_composes Order.reversed
                          (Sample.gradebook "Q1" [Sample.algebra; Sample.ungraded])
                          (Sample.gradebook "Q1" [movedAlgebra; Sample.ungraded'])
                          _ reversed_valid _))).
  reflexivity.
Defined.

(** With distinct IDs in the older map, a course whose ID the newer map
    carries is still in aMap at the end, with a pairing that holds a course
    of the newer map or the course itself. *)
Lemma diffCourseSets_covered (o : Order.t) (a b : Gradebook.t)
    (A B : gmap Z Course.t) (p q : Z) (ac bc : Course.t) :
  Order.valid o → distinctIDs A →
  A !! p = Some ac → B !! q = Some bc → courseKey ac = courseKey bc →
  Changeset.aMap (diffCourseSets o (freshChangeset a b A B)) !! p = Some ac
  ∧ ∃ x, Changeset.bMap (diffCourseSets o (freshChangeset a b A B)) !! p = Some x
         ∧ ((∃ k, B !! k = Some x) ∨ x = ac).
Proof.
  intros Ho HdA Hp Hq Hid.
  destruct (dropsLoop_covered o a b A B p q ac bc Ho HdA Hp Hq Hid)
    as (Hkept & x & k & Hx & Hk & _).
  destruct (diffCourseSets_loops o a b A B Ho)
    as (cs1 & nb1 & cs2 & nb2 & Hst & Hinv1 & Hinv2 & _ & ->).
  rewrite Hst in *. cbn [fst snd] in *.
  destruct Hinv2 as [HaM _ _ _ _ _ Hpairs].
  assert (Changeset.aMap (Changeset.setBMap cs2 nb2) = Changeset.aMap cs1) as ->
    by (by destruct cs2).
  assert (Changeset.bMap (Changeset.setBMap cs2 nb2) = nb2) as ->
    by (by destruct cs2).
  split; [done|].
  destruct (Hpairs p) as [-> | (ac' & k' & y & Hnb2 & Hac' & _)].
  - exists x. split; [done|]. left. by exists k.
  - exists ac'. split; [done|]. right. congruence.
Qed.

(** X13 (CalcChangeset): when the guard passes, every course of both
    maps has its CurrentMark set, no two courses of the older map carry the
    same ID and every one of them has its ID carried by a course of the
    newer map, CalcChangeset returns a changeset, in every order of visit;
    it records no drop and keeps every course of the older map in aMap. *)
Theorem covered_courses_return (o : Order.t) (a b : Gradebook.t) :
  Order.valid o →
  (gradebookSemestersMatch a b).2 = true →
  distinctIDs (byPeriod (Gradebook.Courses a)) →
  coveredBy (byPeriod (Gradebook.Courses a)) (byPeriod (Gradebook.Courses b)) →
  marksSet (byPeriod (Gradebook.Courses a)) →
  marksSet (byPeriod (Gradebook.Courses b)) →
  ∃ cs, CalcChangeset o a b = Returned cs
        ∧ Changeset.CourseDrops cs = []
        ∧ Changeset.aMap cs = byPeriod (Gradebook.Courses a).
Proof.
  intros Ho Hguard HdA Hcov HmA HmB. unfold CalcChangeset.
  destruct (gradebookSemestersMatch a b) as [[as_ bs] ok]. simpl in Hguard.
  subst ok. cbn [negb]. unfold diffStages, coursesAsMap.
  fold (freshChangeset a b (byPeriod (Gradebook.Courses a))
                       (byPeriod (Gradebook.Courses b))).
  set (A := byPeriod (Gradebook.Courses a)) in *.
  set (B := byPeriod (Gradebook.Courses b)) in *.
  destruct (diffCourseSets_conserves o a b A B Ho)
    as (cs1 & nb1 & _ & Hinv & HaM & Hdr & _).
  assert (∀ p ac, A !! p = Some ac →
            Changeset.aMap (diffCourseSets o (freshChangeset a b A B)) !! p = Some ac
            ∧ ∃ x, Changeset.bMap (diffCourseSets o (freshChangeset a b A B)) !! p
                   = Some x
                   ∧ ((∃ k, B !! k = Some x) ∨ x = ac)) as Hpaired.
  { intros p ac Hp. destruct (Hcov p ac Hp) as (q & bc & Hq & Hid).
    by apply (diffCourseSets_covered o a b A B p q ac bc). }
  assert (Changeset.aMap (diffCourseSets o (freshChangeset a b A B)) = A) as HaMap.
  { apply map_eq. intros p. destruct (A !! p) as [ac|] eqn:Hp.
    - by apply Hpaired.
    - rewrite HaM. destruct (Changeset.aMap cs1 !! p) as [c|] eqn:Hc; [|done].
      pose proof (inv_kept _ _ _ _ Hinv p c Hc). congruence. }
  assert (Changeset.CourseDrops (diffCourseSets o (freshChangeset a b A B)) = [])
    as Hdrops.
  { apply elem_of_nil_inv. intros c Hc. rewrite Hdr in Hc.
    apply (inv_drops _ _ _ _ Hinv) in Hc as (p & Hp & Hnone).
    rewrite <- HaM in Hnone. destruct (Hpaired p c Hp) as [Hsome _]. congruence. }
  destruct (paired_courses_return o (diffCourseSets o (freshChangeset a b A B)))
    as [cs' Hrun].
  { intros p ac Hp. rewrite HaMap in Hp. split; [by apply (HmA p)|].
    destruct (Hpaired p ac Hp) as (_ & x & Hx & [[k Hk] | ->]).
    - exists x. split; [done|]. by apply (HmB k).
    - exists ac. split; [done|]. by apply (HmA p). }
  rewrite Hrun. exists cs'. split; [done|].
  destruct (diffCourseAssignments_changes o _ cs' Ho Hrun)
    as [(_ & _ & Ha' & _ & _ & _ & Hd') _].
  split; congruence.
Qed.

Lemma covered_courses_return_witness :
  ∃ cs, CalcChangeset Order.reversed
          (Sample.gradebook "Q1" [Sample.algebra; Sample.ungraded])
          (Sample.gradebook "Q1" [movedAlgebra; Sample.ungraded'; Sample.biology])
        = Returned cs
        ∧ Changeset.CourseDrops cs = []
        ∧ Changeset.aMap cs = byPeriod [Sample.algebra; Sample.ungraded].
Proof.
  apply (covered_courses_return Order.reversed
           (Sample.gradebook "Q1" [Sample.algebra; Sample.ungraded])
           (Sample.gradebook "Q1" [movedAlgebra; Sample.ungraded'; Sample.biology])
           reversed_valid eq_refl).
  - intros p p' c c' H1 H2 Hid. simpl in H1, H2. literal_lookups.
  - intros p ac Hp. simpl in Hp. literal_lookups.
    + exists 2, Sample.ungraded'. by split.
    + exists 3, movedAlgebra. by split.
  - intros p c Hp. simpl in Hp. literal_lookups.
  - intros p c Hp. simpl in Hp. literal_lookups.
Defined.

(** ** The assignment reconciliation, pass by pass *)

Lemma diffAssignments_cases (x y : Assignment.t) :
  (∀ cc, diffAssignments cc x y = cc) ∨ (∃ ca, recorded x y ca).
Proof.
  unfold recorded, diffAssignments. destruct (_ && _); [by left|].
  right. eexists. intros cc. reflexivity.
Qed.

Lemma addChange_changes (cc : CourseChange.t) (ca : CourseAssignmentChange.t) :
  CourseChange.AssignmentChanges (CourseChange.addChange cc ca)
  = (CourseChange.AssignmentChanges cc ++ [ca])%list.
Proof. done. Qed.

Lemma recorded_functional (x y : Assignment.t) (ca ca' : CourseAssignmentChange.t) :
  recorded x y ca → recorded x y ca' → ca = ca'.
Proof.
  intros H H'. pose proof (H (CourseChange.new Sample.algebra)) as E.
  rewrite (H' (CourseChange.new Sample.algebra)) in E.
  apply (f_equal CourseChange.AssignmentChanges) in E. simpl in E. congruence.
Qed.

Lemma recorded_changes (cc : CourseChange.t) (x y : Assignment.t)
    (ca : CourseAssignmentChange.t) :
  ca ∈ CourseChange.AssignmentChanges (diffAssignments cc x y)
  ↔ ca ∈ CourseChange.AssignmentChanges cc ∨ recorded x y ca.
Proof.
  destruct (diffAssignments_cases x y) as [Hsame | [ca0 Hrec]].
  - rewrite Hsame. split; [by left|]. intros [? | Hrec]; [done|].
    pose proof (Hrec (CourseChange.new Sample.algebra)) as E.
    rewrite Hsame in E. apply (f_equal CourseChange.AssignmentChanges) in E.
    discriminate E.
  - rewrite Hrec, addChange_changes, elem_of_app, list_elem_of_singleton. split.
    + intros [? | ->]; [by left | by right].
    + intros [? | Hrec']; [by left|]. right. by apply (recorded_functional x y).
Qed.

Lemma matchInv_empty (cc : CourseChange.t) :
  CourseChange.AssignmentChanges cc = [] → matchInv [] [] cc ∅ ∅.
Proof.
  intros Hcc. constructor.
  - by intros g x.
  - by intros g y.
  - by intros x ?%elem_of_nil.
  - by intros y ?%elem_of_nil.
  - intros ca. rewrite Hcc. split; [by intros ?%elem_of_nil|].
    by intros (x & y & ?%elem_of_nil & _).
Qed.

(** Membership is all the invariant knows of the two lists met so far. *)
Lemma matchInv_ext (da da' db db' : list Assignment.t) (cc : CourseChange.t)
    (nfA nfB : gmap string Assignment.t) :
  (∀ x, x ∈ da ↔ x ∈ da') → (∀ y, y ∈ db ↔ y ∈ db') →
  matchInv da db cc nfA nfB → matchInv da' db' cc nfA nfB.
Proof.
  intros HA HB [IA IB IdA IdB Ich]. constructor.
  - intros g x Hx. rewrite <- HA. by apply IA.
  - intros g y Hy. rewrite <- HB. by apply IB.
  - intros x Hx Hn. apply HA in Hx. destruct (IdA x Hx Hn) as (y & ? & ? & ?).
    exists y. by rewrite <- HB.
  - intros y Hy Hn. apply HB in Hy. destruct (IdB y Hy Hn) as (x & ? & ? & ?).
    exists x. by rewrite <- HA.
  - intros ca. rewrite Ich. split; intros (x & y & Hx & Hy & H);
      exists x, y; [rewrite <- HA, <- HB | rewrite HA, HB]; done.
Qed.

(** Two assignments with one GradebookID met at the same moment are
    compared. *)
Lemma matchInv_pair (da db : list Assignment.t) (cc : CourseChange.t)
    (nfA nfB : gmap string Assignment.t) (a b : Assignment.t) :
  matchInv da db cc nfA nfB →
  Assignment.GradebookID a = Assignment.GradebookID b →
  freshFor da a → freshFor db b →
  matchInv (a :: da) (b :: db) (diffAssignments cc a b) nfA nfB.
Proof.
  intros [IA IB IdA IdB Ich] Hid Ha Hb.
  assert (nfA !! Assignment.GradebookID a = None) as HnA.
  { destruct (nfA !! _) as [x|] eqn:Hx; [|done].
    destruct (IA _ _ Hx) as [Hin Hidx]. by destruct (Ha x Hin). }
  assert (nfB !! Assignment.GradebookID b = None) as HnB.
  { destruct (nfB !! _) as [y|] eqn:Hy; [|done].
    destruct (IB _ _ Hy) as [Hin Hidy]. by destruct (Hb y Hin). }
  constructor.
  - intros g x Hx. destruct (IA g x Hx). split; [by right | done].
  - intros g y Hy. destruct (IB g y Hy). split; [by right | done].
  - intros x [-> | Hx]%elem_of_cons Hn.
    + exists b. split_and!; [by left | done | done].
    + destruct (IdA x Hx Hn) as (y & ? & ? & ?). exists y.
      split_and!; [by right | done | done].
  - intros y [-> | Hy]%elem_of_cons Hn.
    + exists a. split_and!; [by left | done | done].
    + destruct (IdB y Hy Hn) as (x & ? & ? & ?). exists x.
      split_and!; [by right | done | done].
  - intros ca. rewrite recorded_changes, Ich. split.
    + intros [(x & y & Hx & Hy & H) | Hrec].
      * exists x, y. split_and!; [by right | by right | apply H..].
      * exists a, b. split_and!; [by left | by left | done..].
    + intros (x & y & [-> | Hx]%elem_of_cons & [-> | Hy]%elem_of_cons
              & Hxy & HxA & HyB & Hrec).
      * by right.
      * destruct (Hb y Hy). congruence.
      * destruct (Ha x Hx). congruence.
      * left. by exists x, y.
Qed.

(** An assignment of the older list goes to its pool. *)
Lemma matchInv_stageA (da db : list Assignment.t) (cc : CourseChange.t)
    (nfA nfB : gmap string Assignment.t) (a : Assignment.t) :
  matchInv da db cc nfA nfB → freshFor da a →
  matchInv (a :: da) db cc (<[Assignment.GradebookID a := a]> nfA) nfB.
Proof.
  intros [IA IB IdA IdB Ich] Ha. constructor.
  - intros g x. rewrite lookup_insert. case_decide as Hg.
    + intros [= <-]. split; [by left | done].
    + intros Hx. destruct (IA g x Hx). split; [by right | done].
  - done.
  - intros x [-> | Hx]%elem_of_cons; [by rewrite lookup_insert_eq|].
    rewrite lookup_insert_ne by (intros E; by destruct (Ha x Hx)).
    apply IdA, Hx.
  - intros y Hy Hn. destruct (IdB y Hy Hn) as (x & Hx & Hxy & HxA).
    exists x. split_and!; [by right | done |].
    rewrite lookup_insert_ne; [done|]. intros E. by destruct (Ha x Hx).
  - intros ca. rewrite Ich. split.
    + intros (x & y & Hx & Hy & Hxy & HxA & H). exists x, y.
      split_and!; [by right | done | done | | apply H..].
      rewrite lookup_insert_ne; [done|]. intros E. by destruct (Ha x Hx).
    + intros (x & y & [-> | Hx]%elem_of_cons & Hy & Hxy & HxA & H).
      * by rewrite lookup_insert_eq in HxA.
      * rewrite lookup_insert_ne in HxA by (intros E; by destruct (Ha x Hx)).
        by exists x, y.
Qed.

(** An assignment of the newer list goes to its pool. *)
Lemma matchInv_stageB (da db : list Assignment.t) (cc : CourseChange.t)
    (nfA nfB : gmap string Assignment.t) (b : Assignment.t) :
  matchInv da db cc nfA nfB → freshFor db b →
  matchInv da (b :: db) cc nfA (<[Assignment.GradebookID b := b]> nfB).
Proof.
  intros [IA IB IdA IdB Ich] Hb. constructor.
  - done.
  - intros g y. rewrite lookup_insert. case_decide as Hg.
    + intros [= <-]. split; [by left | done].
    + intros Hy. destruct (IB g y Hy). split; [by right | done].
  - intros x Hx Hn. destruct (IdA x Hx Hn) as (y & Hy & Hxy & HyB).
    exists y. split_and!; [by right | done |].
    rewrite lookup_insert_ne; [done|]. intros E. by destruct (Hb y Hy).
  - intros y [-> | Hy]%elem_of_cons; [by rewrite lookup_insert_eq|].
    rewrite lookup_insert_ne by (intros E; by destruct (Hb y Hy)).
    apply IdB, Hy.
  - intros ca. rewrite Ich. split.
    + intros (x & y & Hx & Hy & Hxy & HxA & HyB & H). exists x, y.
      split_and!; [done | by right | done | done | | done].
      rewrite lookup_insert_ne; [done|]. intros E. by destruct (Hb y Hy).
    + intros (x & y & Hx & [-> | Hy]%elem_of_cons & Hxy & HxA & HyB & H).
      * by rewrite lookup_insert_eq in HyB.
      * rewrite lookup_insert_ne in HyB by (intros E; by destruct (Hb y Hy)).
        by exists x, y.
Qed.

(** An assignment of the newer list meets its counterpart waiting in the
    pool of the older one. *)
Lemma matchInv_matchA (da db : list Assignment.t) (cc : CourseChange.t)
    (nfA nfB : gmap string Assignment.t) (a b : Assignment.t) :
  matchInv da db cc nfA nfB →
  nfA !! Assignment.GradebookID b = Some a →
  freshFor db b → oneByID da →
  matchInv da (b :: db) (diffAssignments cc a b)
           (delete (Assignment.GradebookID b) nfA) nfB.
Proof.
  intros [IA IB IdA IdB Ich] Hab Hb Hone.
  destruct (IA _ _ Hab) as [Ha Hid].
  assert (nfB !! Assignment.GradebookID b = None) as HnB.
  { destruct (nfB !! _) as [y|] eqn:Hy; [|done].
    destruct (IB _ _ Hy) as [Hin Hidy]. by destruct (Hb y Hin). }
  constructor.
  - intros g x. rewrite lookup_delete. case_decide; [done | apply IA].
  - intros g y Hy. destruct (IB g y Hy). split; [by right | done].
  - intros x Hx. rewrite lookup_delete. case_decide as Hg.
    + intros _. exists b. split_and!; [by left | done | done].
    + intros Hn. destruct (IdA x Hx Hn) as (y & ? & ? & ?). exists y.
      split_and!; [by right | done | done].
  - intros y [-> | Hy]%elem_of_cons Hn.
    + exists a. split_and!; [done | done |]. rewrite Hid. apply lookup_delete_eq.
    + destruct (IdB y Hy Hn) as (x & ? & ? & HxA). exists x.
      split_and!; [done | done |]. rewrite lookup_delete. by case_decide.
  - intros ca. rewrite recorded_changes, Ich. split.
    + intros [(x & y & Hx & Hy & Hxy & HxA & H) | Hrec].
      * exists x, y. split_and!; [done | by right | done | | apply H..].
        rewrite lookup_delete. by case_decide.
      * exists a, b. split_and!; [done | by left | done | | done | done].
        rewrite Hid. apply lookup_delete_eq.
    + intros (x & y & Hx & [-> | Hy]%elem_of_cons & Hxy & HxA & HyB & Hrec).
      * right. assert (x = a) as -> by (apply Hone; congruence). done.
      * left. exists x, y. split_and!; try done.
        rewrite lookup_delete in HxA. case_decide as Hg; [|done].
        destruct (Hb y Hy). congruence.
Qed.

(** Two assignments waiting in the two pools under one GradebookID are
    compared and leave the pools. *)
Lemma matchInv_matchBoth (da db : list Assignment.t) (cc : CourseChange.t)
    (nfA nfB : gmap string Assignment.t) (g : string) (a b : Assignment.t) :
  matchInv da db cc nfA nfB →
  nfA !! g = Some a → nfB !! g = Some b →
  oneByID da → oneByID db →
  matchInv da db (diffAssignments cc a b) (delete g nfA) (delete g nfB).
Proof.
  intros [IA IB IdA IdB Ich] HgA HgB HoneA HoneB.
  destruct (IA _ _ HgA) as [Ha Hida]. destruct (IB _ _ HgB) as [Hb Hidb].
  constructor.
  - intros g' x. rewrite lookup_delete. case_decide; [done | apply IA].
  - intros g' y. rewrite lookup_delete. case_decide; [done | apply IB].
  - intros x Hx. rewrite lookup_delete. case_decide as Hg.
    + intros _. exists b. split_and!; [done | congruence |].
      rewrite Hidb. apply lookup_delete_eq.
    + intros Hn. destruct (IdA x Hx Hn) as (y & ? & ? & ?). exists y.
      split_and!; [done | done |]. rewrite lookup_delete. by case_decide.
  - intros y Hy. rewrite lookup_delete. case_decide as Hg.
    + intros _. exists a. split_and!; [done | congruence |].
      rewrite Hida. apply lookup_delete_eq.
    + intros Hn. destruct (IdB y Hy Hn) as (x & ? & ? & ?). exists x.
      split_and!; [done | done |]. rewrite lookup_delete. by case_decide.
  - intros ca. rewrite recorded_changes, Ich. split.
    + intros [(x & y & Hx & Hy & Hxy & HxA & HyB & H) | Hrec].
      * exists x, y. split_and!; try done; rewrite lookup_delete; by case_decide.
      * exists a, b. split_and!; try done; [congruence | |].
        -- rewrite Hida. apply lookup_delete_eq.
        -- rewrite Hidb. apply lookup_delete_eq.
    + intros (x & y & Hx & Hy & Hxy & HxA & HyB & Hrec).
      destruct (decide (g = Assignment.GradebookID x)) as [Hg|Hg].
      * right. assert (x = a) as -> by (apply HoneA; congruence).
        assert (y = b) as -> by (apply HoneB; congruence). done.
      * left. exists x, y. rewrite lookup_delete_ne in HxA by done.
        rewrite lookup_delete_ne in HyB by congruence. done.
Qed.

Lemma freshFor_cons (a : Assignment.t) (la da : list Assignment.t) :
  NoDup (gradebookIDs (a :: la)) →
  (∀ x, x ∈ a :: la → freshFor da x) →
  ∀ a', a' ∈ la → freshFor (a :: da) a'.
Proof.
  intros Hnd Hfresh a' Ha' x [-> | Hx]%elem_of_cons.
  - apply NoDup_cons in Hnd as [Hnotin _]. intros E. apply Hnotin.
    unfold gradebookIDs. rewrite E. by apply list_elem_of_fmap_2.
  - apply (Hfresh a'); [by right | done].
Qed.

(** Pass 1, over the two lists side by side. *)
Lemma sideBySide_matchInv (la : list Assignment.t) :
  ∀ (lb da db : list Assignment.t) (cc : CourseChange.t)
    (nfA nfB : gmap string Assignment.t),
    matchInv da db cc nfA nfB →
    NoDup (gradebookIDs la) → NoDup (gradebookIDs lb) →
    (∀ a, a ∈ la → freshFor da a) → (∀ b, b ∈ lb → freshFor db b) →
    matchInv (reverse la ++ da) (reverse (take (length la) lb) ++ db)
             (sideBySide la lb cc nfA nfB).1.1
             (sideBySide la lb cc nfA nfB).1.2
             (sideBySide la lb cc nfA nfB).2.
Proof.
  induction la as [|a la IH]; intros lb da db cc nfA nfB Hinv HndA HndB HfA HfB.
  { done. }
  pose proof (freshFor_cons a la da HndA HfA) as HfA'.
  assert (freshFor da a) as Ha by (apply HfA; by left).
  apply NoDup_cons in HndA as [_ HndA].
  rewrite reverse_cons, <- app_assoc. cbn [app].
  destruct lb as [|b lb]; cbn [sideBySide].
  - rewrite take_nil.
    pose proof (IH [] (a :: da) db cc (<[Assignment.GradebookID a := a]> nfA) nfB)
      as IH'.
    rewrite take_nil in IH'. apply IH'; try done. by apply matchInv_stageA.
  - pose proof (freshFor_cons b lb db HndB HfB) as HfB'.
    assert (freshFor db b) as Hb by (apply HfB; by left).
    apply NoDup_cons in HndB as [_ HndB].
    cbn [length take]. rewrite reverse_cons, <- app_assoc. cbn [app].
    destruct (String.eqb_spec (Assignment.GradebookID a) (Assignment.GradebookID b))
      as [Heq|Hne].
    + apply IH; try done. by apply matchInv_pair.
    + apply IH; try done.
      apply matchInv_stageB; [|done]. by apply matchInv_stageA.
Qed.

(** The slots pass 1 leaves: the consumed ones, then the untouched
    assignments of the newer list beyond the length of the older one. *)
Lemma slotsAfter_eq (la lb : list Assignment.t) :
  slotsAfter la lb
  = (replicate (length la `min` length lb) None
     ++ (Some <$> drop (length la) lb))%list.
Proof.
  revert lb. induction la as [|a la IH]; intros [|b lb]; simpl; try done.
  by rewrite IH.
Qed.

(** Pass 2 does nothing at a consumed slot. *)
Lemma lookupStep_dead (ks : list nat) (f : Frame.t) :
  (∀ k, k ∈ ks → Frame.bAssignments f !! k = Some None) →
  foldl lookupStep f ks = f.
Proof.
  intros Hdead. induction ks as [|k ks IH]; [done|]. simpl.
  replace (lookupStep f k) with f.
  - apply IH. intros k' Hk'. apply Hdead. by right.
  - destruct f as [cc bAs nfA nfB]. simpl in *.
    by rewrite (Hdead k) by (by left).
Qed.

(** Pass 2, over the untouched assignments of the newer list. *)
Lemma lookupPass_matchInv (tail : list Assignment.t) :
  ∀ (pre : list (option Assignment.t)) (da db : list Assignment.t)
    (cc : CourseChange.t) (nfA nfB : gmap string Assignment.t),
    matchInv da db cc nfA nfB →
    NoDup (gradebookIDs tail) → (∀ b, b ∈ tail → freshFor db b) → oneByID da →
    ∃ cc' slots nfA' nfB',
      foldl lookupStep (Frame.mk cc (pre ++ (Some <$> tail)) nfA nfB)
            (seq (length pre) (length tail))
      = Frame.mk cc' slots nfA' nfB'
      ∧ matchInv da (reverse tail ++ db) cc' nfA' nfB'
      ∧ sameHead cc cc' ∧ sameEnds cc cc'.
Proof.
  induction tail as [|b tail IH]; intros pre da db cc nfA nfB Hinv Hnd Hfresh Hone.
  { exists cc, (pre ++ [])%list, nfA, nfB. by split_and!. }
  pose proof (freshFor_cons b tail db Hnd Hfresh) as Hfresh'.
  assert (freshFor db b) as Hb by (apply Hfresh; by left).
  apply NoDup_cons in Hnd as [_ Hnd].
  cbn [length seq foldl fmap list_fmap].
  assert (∀ slot, <[length pre := slot]> (pre ++ Some b :: (Some <$> tail))%list
                  = ((pre ++ [slot]) ++ (Some <$> tail))%list) as Hins.
  { intros slot. rewrite <- app_assoc.
    pose proof (insert_app_r pre (Some b :: (Some <$> tail)) 0 slot) as E.
    rewrite Nat.add_0_r in E. by rewrite E. }
  assert (S (length pre) = length (pre ++ [None (A:=Assignment.t)])%list) as HlenN
    by (rewrite length_app; simpl; lia).
  assert (S (length pre) = length (pre ++ [Some b])%list) as HlenS
    by (rewrite length_app; simpl; lia).
  rewrite reverse_cons, <- app_assoc. cbn [app].
  cbn [lookupStep]. rewrite list_lookup_middle by done.
  destruct (nfA !! Assignment.GradebookID b) as [a|] eqn:Ha.
  - rewrite Hins, HlenN.
    destruct (IH (pre ++ [None])%list da (b :: db) (diffAssignments cc a b)
                 (delete (Assignment.GradebookID b) nfA) nfB)
      as (cc' & slots & nfA' & nfB' & -> & Hinv' & Hh & He); try done.
    { by apply matchInv_matchA. }
    exists cc', slots, nfA', nfB'. split_and!; try done.
    + eapply sameHead_trans; [apply diffAssignments_sameHead | done].
    + eapply sameEnds_trans; [apply diffAssignments_sameEnds | done].
  - replace (pre ++ Some b :: (Some <$> tail))%list
      with ((pre ++ [Some b]) ++ (Some <$> tail))%list by (by rewrite <- app_assoc).
    rewrite HlenS.
    destruct (IH (pre ++ [Some b])%list da (b :: db) cc nfA
                 (<[Assignment.GradebookID b := b]> nfB))
      as (cc' & slots & nfA' & nfB' & -> & Hinv' & Hh & He); try done.
    { by apply matchInv_stageB. }
    by exists cc', slots, nfA', nfB'.
Qed.

Lemma matchInv_same_changes (da db : list Assignment.t) (cc cc' : CourseChange.t)
    (nfA nfB : gmap string Assignment.t) :
  CourseChange.AssignmentChanges cc' = CourseChange.AssignmentChanges cc →
  matchInv da db cc nfA nfB → matchInv da db cc' nfA nfB.
Proof. intros E [IA IB IdA IdB Ich]. constructor; try done. by rewrite E. Qed.

Lemma oneByID_NoDup (l : list Assignment.t) :
  NoDup (gradebookIDs l) → oneByID l.
Proof.
  intros Hnd x x' Hx Hx' Hid.
  apply list_elem_of_lookup in Hx as [i Hi]. apply list_elem_of_lookup in Hx' as [j Hj].
  assert (i = j) as ->; [|congruence].
  apply (NoDup_lookup _ i j (Assignment.GradebookID x) Hnd); unfold gradebookIDs;
    rewrite list_lookup_fmap; [by rewrite Hi | by rewrite Hj, Hid].
Qed.

(** Pass 3, one iteration: at the GradebookID [g], either nothing, or a
    comparison that empties both pools at [g], or a removal that leaves
    the pools alone. *)
Lemma leftoverStep_matchInv (da db : list Assignment.t) (f : Frame.t) (g : string) :
  matchInv da db (Frame.cc f) (Frame.notFoundAAssignments f)
           (Frame.notFoundBAssignments f) →
  oneByID da → oneByID db →
  matchInv da db (Frame.cc (leftoverStep f g))
           (Frame.notFoundAAssignments (leftoverStep f g))
           (Frame.notFoundBAssignments (leftoverStep f g))
  ∧ (∀ g', g' ≠ g →
       Frame.notFoundAAssignments (leftoverStep f g) !! g'
       = Frame.notFoundAAssignments f !! g'
       ∧ Frame.notFoundBAssignments (leftoverStep f g) !! g'
         = Frame.notFoundBAssignments f !! g')
  ∧ (∀ r, Frame.notFoundAAssignments (leftoverStep f g) !! g = Some r →
          Frame.notFoundBAssignments (leftoverStep f g) !! g = None
          ∧ r ∈ CourseChange.AssignmentRemovals (Frame.cc (leftoverStep f g)))
  ∧ (∀ r, r ∈ CourseChange.AssignmentRemovals (Frame.cc (leftoverStep f g)) →
          r ∈ CourseChange.AssignmentRemovals (Frame.cc f)
          ∨ (Frame.notFoundAAssignments (leftoverStep f g) !! g = Some r
             ∧ Frame.notFoundBAssignments (leftoverStep f g) !! g = None))
  ∧ (∀ r, r ∈ CourseChange.AssignmentRemovals (Frame.cc f) →
          r ∈ CourseChange.AssignmentRemovals (Frame.cc (leftoverStep f g)))
  ∧ CourseChange.AssignmentAdditions (Frame.cc (leftoverStep f g))
    = CourseChange.AssignmentAdditions (Frame.cc f)
  ∧ (∀ g' x, Frame.notFoundAAssignments (leftoverStep f g) !! g' = Some x →
             Frame.notFoundAAssignments f !! g' = Some x)
  ∧ (∀ g' y, Frame.notFoundBAssignments (leftoverStep f g) !! g' = Some y →
             Frame.notFoundBAssignments f !! g' = Some y).
Proof.
  destruct f as [cc bAs nfA nfB]. cbn [Frame.cc Frame.notFoundAAssignments
    Frame.notFoundBAssignments leftoverStep]. intros Hinv HoneA HoneB.
  destruct (nfA !! g) as [a|] eqn:Ha.
  2:{ cbn. split_and!; try done; intros r Hr; [congruence | by left]. }
  destruct (nfB !! g) as [b|] eqn:Hb; cbn.
  - split_and!.
    + by apply matchInv_matchBoth.
    + intros g' Hg'. by rewrite !lookup_delete_ne.
    + intros r. by rewrite lookup_delete_eq.
    + intros r Hr. left.
      by rewrite (proj2 (diffAssignments_sameEnds cc a b)) in Hr.
    + intros r Hr. by rewrite (proj2 (diffAssignments_sameEnds cc a b)).
    + apply (diffAssignments_sameEnds cc a b).
    + intros g' x. rewrite lookup_delete. by case_decide.
    + intros g' y. rewrite lookup_delete. by case_decide.
  - split_and!; try done.
    + by apply (matchInv_same_changes da db cc).
    + intros r Hr. rewrite Ha in Hr. injection Hr as <-. split; [done|].
      apply elem_of_app. right. by left.
    + intros r [Hr | ->%list_elem_of_singleton]%elem_of_app; [by left | by right].
    + intros r Hr. apply elem_of_app. by left.
Qed.

(** Pass 3, over distinct GradebookIDs. *)
Lemma leftoverLoop_matchInv (da db : list Assignment.t) (ks : list string) :
  NoDup ks → oneByID da → oneByID db →
  ∀ f,
    matchInv da db (Frame.cc f) (Frame.notFoundAAssignments f)
             (Frame.notFoundBAssignments f) →
    matchInv da db (Frame.cc (foldl leftoverStep f ks))
             (Frame.notFoundAAssignments (foldl leftoverStep f ks))
             (Frame.notFoundBAssignments (foldl leftoverStep f ks))
    ∧ (∀ g r, g ∈ ks →
         Frame.notFoundAAssignments (foldl leftoverStep f ks) !! g = Some r →
         Frame.notFoundBAssignments (foldl leftoverStep f ks) !! g = None
         ∧ r ∈ CourseChange.AssignmentRemovals (Frame.cc (foldl leftoverStep f ks)))
    ∧ (∀ r, r ∈ CourseChange.AssignmentRemovals (Frame.cc (foldl leftoverStep f ks)) →
            r ∈ CourseChange.AssignmentRemovals (Frame.cc f)
            ∨ ∃ g, Frame.notFoundAAssignments (foldl leftoverStep f ks) !! g = Some r
                   ∧ Frame.notFoundBAssignments (foldl leftoverStep f ks) !! g = None)
    ∧ (∀ r, r ∈ CourseChange.AssignmentRemovals (Frame.cc f) →
            r ∈ CourseChange.AssignmentRemovals (Frame.cc (foldl leftoverStep f ks)))
    ∧ CourseChange.AssignmentAdditions (Frame.cc (foldl leftoverStep f ks))
      = CourseChange.AssignmentAdditions (Frame.cc f)
    ∧ (∀ g x, Frame.notFoundAAssignments (foldl leftoverStep f ks) !! g = Some x →
              Frame.notFoundAAssignments f !! g = Some x)
    ∧ (∀ g y, Frame.notFoundBAssignments (foldl leftoverStep f ks) !! g = Some y →
              Frame.notFoundBAssignments f !! g = Some y)
    ∧ (∀ g, g ∉ ks →
         Frame.notFoundAAssignments (foldl leftoverStep f ks) !! g
         = Frame.notFoundAAssignments f !! g
         ∧ Frame.notFoundBAssignments (foldl leftoverStep f ks) !! g
           = Frame.notFoundBAssignments f !! g).
Proof.
  intros Hnd HoneA HoneB. induction Hnd as [|g ks Hg Hnd IH]; intros f Hinv.
  { cbn [foldl]. split_and!; try done; [|by left].
    intros g r Hin. by apply elem_of_nil in Hin. }
  cbn [foldl].
  destruct (leftoverStep_matchInv da db f g Hinv HoneA HoneB)
    as (S1 & S2 & S3 & S4 & S5 & S6 & S7 & S8).
  destruct (IH (leftoverStep f g) S1) as (I1 & I2 & I3 & I4 & I5 & I6 & I7 & I8).
  set (f1 := leftoverStep f g) in *. set (f' := foldl leftoverStep f1 ks) in *.
  destruct (I8 g Hg) as [IgA IgB].
  split_and!.
  - done.
  - intros g' r [-> | Hin]%elem_of_cons Hr; [|by apply I2].
    rewrite IgA in Hr. destruct (S3 r Hr) as [HnB Hrem].
    split; [by rewrite IgB | by apply I4].
  - intros r Hr. destruct (I3 r Hr) as [Hr1 | Hex]; [|by right].
    destruct (S4 r Hr1) as [? | [HrA HrB]]; [by left|].
    right. exists g. by rewrite IgA, IgB.
  - intros r Hr. by apply I4, S5.
  - by rewrite I5.
  - intros g' x Hx. by apply S7, I6.
  - intros g' y Hy. by apply S8, I7.
  - intros g' [Hne Hnotin]%not_elem_of_cons.
    destruct (I8 g' Hnotin) as [-> ->]. by apply S2.
Qed.

(** The last loop: every assignment left in the pool of the newer list
    is an addition. *)
Lemma additionLoop_additions (ks : list string) :
  ∀ f,
    Frame.notFoundBAssignments (foldl additionStep f ks) = Frame.notFoundBAssignments f
    ∧ CourseChange.AssignmentChanges (Frame.cc (foldl additionStep f ks))
      = CourseChange.AssignmentChanges (Frame.cc f)
    ∧ CourseChange.AssignmentRemovals (Frame.cc (foldl additionStep f ks))
      = CourseChange.AssignmentRemovals (Frame.cc f)
    ∧ ∀ y, y ∈ CourseChange.AssignmentAdditions (Frame.cc (foldl additionStep f ks))
           ↔ y ∈ CourseChange.AssignmentAdditions (Frame.cc f)
             ∨ ∃ g, g ∈ ks ∧ Frame.notFoundBAssignments f !! g = Some y.
Proof.
  induction ks as [|g ks IH]; intros f; cbn [foldl].
  { split_and!; try done. intros y. split; [by left|].
    intros [? | (g & Hg & _)]; [done|]. by apply elem_of_nil in Hg. }
  destruct (IH (additionStep f g)) as (I1 & I2 & I3 & I4).
  destruct f as [cc bAs nfA nfB]. cbn [additionStep] in *.
  destruct (nfB !! g) as [b|] eqn:Hb; cbn in *.
  - split_and!; try done. intros y. rewrite I4, elem_of_app, list_elem_of_singleton.
    split.
    + intros [[? | ->] | (g' & Hg' & Hy)].
      * by left.
      * right. exists g. split; [by left | done].
      * right. exists g'. split; [by right | done].
    + intros [? | (g' & [-> | Hg']%elem_of_cons & Hy)].
      * by left; left.
      * left. right. congruence.
      * right. by exists g'.
  - split_and!; try done. intros y. rewrite I4. split.
    + intros [? | (g' & Hg' & Hy)]; [by left|].
      right. exists g'. split; [by right | done].
    + intros [? | (g' & [-> | Hg']%elem_of_cons & Hy)]; [by left | congruence |].
      right. by exists g'.
Qed.

Lemma freshFor_nil (a : Assignment.t) : freshFor [] a.
Proof. by intros x ?%elem_of_nil. Qed.

(** The two parts pass 1 and pass 2 see of a list without repeated
    GradebookIDs share no GradebookID. *)
Lemma freshFor_take_drop (n : nat) (lb : list Assignment.t) (b : Assignment.t) :
  NoDup (gradebookIDs lb) → b ∈ drop n lb → freshFor (reverse (take n lb) ++ []) b.
Proof.
  intros Hnd Hb x Hx. rewrite app_nil_r, elem_of_reverse in Hx.
  rewrite <- (take_drop n lb) in Hnd. unfold gradebookIDs in Hnd.
  rewrite fmap_app in Hnd. apply NoDup_app in Hnd as (_ & Hdisj & _).
  intros E. apply (Hdisj (Assignment.GradebookID x)).
  - by apply list_elem_of_fmap_2.
  - rewrite E. by apply list_elem_of_fmap_2.
Qed.

(** The reconciliation of two assignment lists without repeated
    GradebookIDs. *)
Lemma reconcile_by_ID (o : Order.t) (p : Z) (ac : Course.t) (am bm : CourseMark.t) :
  Order.valid o →
  NoDup (gradebookIDs (CourseMark.Assignments am)) →
  NoDup (gradebookIDs (CourseMark.Assignments bm)) →
  ∃ cc, reconcileAssignments o p ac am bm = Some cc
    ∧ (∀ r, r ∈ CourseChange.AssignmentRemovals cc
            ↔ r ∈ CourseMark.Assignments am
              ∧ Assignment.GradebookID r ∉ gradebookIDs (CourseMark.Assignments bm))
    ∧ (∀ y, y ∈ CourseChange.AssignmentAdditions cc
            ↔ y ∈ CourseMark.Assignments bm
              ∧ Assignment.GradebookID y ∉ gradebookIDs (CourseMark.Assignments am))
    ∧ (∀ ca, ca ∈ CourseChange.AssignmentChanges cc
             ↔ ∃ x y, x ∈ CourseMark.Assignments am ∧ y ∈ CourseMark.Assignments bm
                      ∧ Assignment.GradebookID x = Assignment.GradebookID y
                      ∧ recorded x y ca).
Proof.
  intros Ho HndA HndB. unfold reconcileAssignments. rewrite length_fmap.
  set (la := CourseMark.Assignments am) in *.
  set (lb := CourseMark.Assignments bm) in *.
  rewrite (positionalPass_sideBySide la lb [] _ ∅ ∅) by done.
  pose proof (sideBySide_matchInv la lb [] [] (CourseChange.new ac) ∅ ∅
                (matchInv_empty (CourseChange.new ac) eq_refl) HndA HndB
                (λ a _, freshFor_nil a) (λ b _, freshFor_nil b)) as H1.
  pose proof (sideBySide_same la lb (CourseChange.new ac) ∅ ∅) as [Hh1 He1].
  destruct (sideBySide la lb (CourseChange.new ac) ∅ ∅) as [[cc1 nfA1] nfB1].
  cbn [fst snd] in *. cbn [mbind option_bind app].
  eexists. split; [reflexivity|].
  (* pass 2 *)
  rewrite slotsAfter_eq.
  set (n := length la) in *. set (m := (n `min` length lb)%nat).
  assert (length lb = (m + length (drop n lb))%nat) as Hlen
    by (rewrite length_drop; unfold m; lia).
  rewrite Hlen, seq_app, foldl_app.
  rewrite (lookupStep_dead (seq 0 m)).
  2:{ intros k Hk. apply elem_of_seq in Hk. cbn [Frame.bAssignments].
      rewrite lookup_app_l by (rewrite length_replicate; lia).
      apply lookup_replicate_2. lia. }
  replace (0 + m)%nat with (length (replicate m (None (A:=Assignment.t))))
    by (rewrite length_replicate; lia).
  destruct (lookupPass_matchInv (drop n lb) (replicate m None)
              (reverse la ++ []) (reverse (take n lb) ++ []) cc1 nfA1 nfB1 H1)
    as (cc2 & slots & nfA2 & nfB2 & -> & H2 & Hh2 & He2).
  { unfold gradebookIDs in *. rewrite <- (take_drop n lb), fmap_app in HndB.
    by apply NoDup_app in HndB as (_ & _ & ?). }
  { intros b Hb. by apply freshFor_take_drop. }
  { intros x x' Hx Hx'. rewrite app_nil_r, elem_of_reverse in Hx, Hx'.
    by apply (oneByID_NoDup la HndA). }
  apply (matchInv_ext _ la _ lb) in H2.
  2:{ intros x. by rewrite app_nil_r, elem_of_reverse. }
  2:{ intros y. rewrite app_nil_r, elem_of_app, !elem_of_reverse.
      rewrite <- (take_drop n lb) at 3. rewrite elem_of_app. tauto. }
  pose proof (oneByID_NoDup la HndA) as HoneA.
  pose proof (oneByID_NoDup lb HndB) as HoneB.
  (* pass 3 *)
  set (f2 := Frame.mk cc2 slots nfA2 nfB2).
  set (ks3 := rangeKeys (Order.notFoundALoop o p) (Frame.notFoundAAssignments f2)).
  destruct (leftoverLoop_matchInv la lb ks3
              (NoDup_rangeKeys _ _ (Order.notFoundALoop_perm o Ho p)) HoneA HoneB f2 H2)
    as (H3 & Q3 & R3 & M3 & A3 & SA3 & SB3 & _).
  set (f3 := foldl leftoverStep f2 ks3) in *.
  (* the last loop *)
  set (ks4 := rangeKeys (Order.notFoundBLoop o p) (Frame.notFoundBAssignments f3)).
  destruct (additionLoop_additions ks4 f3) as (_ & C4 & R4 & A4).
  set (f4 := foldl additionStep f3 ks4) in *.
  assert (∀ g r, Frame.notFoundAAssignments f3 !! g = Some r →
                 Frame.notFoundBAssignments f3 !! g = None
                 ∧ r ∈ CourseChange.AssignmentRemovals (Frame.cc f3)) as Q3'.
  { intros g r Hr. apply (Q3 g r); [|done].
    apply elem_of_rangeKeys; [apply (Order.notFoundALoop_perm o Ho) |].
    exists r. by apply SA3. }
  assert (CourseChange.AssignmentRemovals cc2 = []) as Rem2.
  { destruct He1 as [_ E1]. destruct He2 as [_ E2]. by rewrite E2, E1. }
  assert (CourseChange.AssignmentAdditions cc2 = []) as Add2.
  { destruct He1 as [E1 _]. destruct He2 as [E2 _]. by rewrite E2, E1. }
  split_and!.
  - intros r. rewrite R4. split.
    + intros Hr. destruct (R3 r Hr) as [Hr2 | (g & HgA & HgB)].
      { cbn in Hr2. rewrite Rem2 in Hr2. by apply elem_of_nil in Hr2. }
      destruct (mi_A _ _ _ _ _ H3 g r HgA) as [Hin Hid]. split; [done|].
      intros (y & Hy & Hyin)%list_elem_of_fmap.
      destruct (mi_doneB _ _ _ _ _ H3 y Hyin) as (x & Hx & Hxy & HxA);
        [congruence|].
      congruence.
    + intros [Hin Hnot].
      destruct (Frame.notFoundAAssignments f3 !! Assignment.GradebookID r)
        as [x|] eqn:Hx.
      * destruct (mi_A _ _ _ _ _ H3 _ x Hx) as [Hxin Hxid].
        assert (x = r) as -> by (by apply HoneA).
        by apply (Q3' _ r Hx).
      * destruct (mi_doneA _ _ _ _ _ H3 r Hin Hx) as (y & Hy & Hyid & _).
        destruct Hnot. rewrite <- Hyid. by apply list_elem_of_fmap_2.
  - intros y. rewrite A4, A3. cbn [Frame.cc f2]. rewrite Add2. split.
    + intros [Hy | (g & Hg & Hy)]; [by apply elem_of_nil in Hy|].
      destruct (mi_B _ _ _ _ _ H3 g y Hy) as [Hin Hid]. split; [done|].
      intros (x & Hxid & Hxin)%list_elem_of_fmap.
      destruct (Frame.notFoundAAssignments f3 !! g) as [x'|] eqn:Hx'.
      * destruct (Q3' g x' Hx') as [HnB _]. congruence.
      * destruct (mi_doneA _ _ _ _ _ H3 x Hxin) as (y' & Hy' & Hy'id & Hy'B);
          [congruence|].
        congruence.
    + intros [Hin Hnot]. right.
      destruct (Frame.notFoundBAssignments f3 !! Assignment.GradebookID y)
        as [y'|] eqn:Hy'.
      * destruct (mi_B _ _ _ _ _ H3 _ y' Hy') as [Hyin Hyid].
        assert (y' = y) as -> by (by apply HoneB).
        exists (Assignment.GradebookID y). split; [|done].
        apply elem_of_rangeKeys; [apply (Order.notFoundBLoop_perm o Ho) | by eexists].
      * destruct (mi_doneB _ _ _ _ _ H3 y Hin Hy') as (x & Hx & Hxid & _).
        destruct Hnot. rewrite <- Hxid. by apply list_elem_of_fmap_2.
  - intros ca. rewrite C4, (mi_changes _ _ _ _ _ H3). split.
    + intros (x & y & Hx & Hy & Hxy & _ & _ & Hrec). by exists x, y.
    + intros (x & y & Hx & Hy & Hxy & Hrec). exists x, y.
      assert (Frame.notFoundAAssignments f3 !! Assignment.GradebookID x = None) as HxA.
      { destruct (Frame.notFoundAAssignments f3 !! Assignment.GradebookID x)
          as [x'|] eqn:Hx'; [|done].
        destruct (Q3' _ x' Hx') as [HnB _].
        destruct (mi_doneB _ _ _ _ _ H3 y Hy) as (x'' & Hx'' & Hx''id & Hx''A);
          congruence. }
      destruct (mi_doneA _ _ _ _ _ H3 x Hx HxA) as (y' & Hy' & Hy'id & Hy'B).
      split_and!; try done. congruence.
Qed.

(** X14 (diffCourseAssignments): for a paired course whose two current
    marks hold no repeated GradebookID, in every order of visit of the
    pools: AssignmentRemovals holds exactly the older assignments whose
    GradebookID the newer list lacks, AssignmentAdditions exactly the newer
    assignments whose GradebookID the older list lacks, and
    AssignmentChanges exactly the records diffAssignments builds for the
    pairs of assignments that carry one GradebookID, wherever the two
    stand in their lists. *)
Theorem assignments_reconciled_by_ID (o : Order.t) (p : Z) (ac bc : Course.t)
    (am bm : CourseMark.t) :
  Order.valid o →
  Course.CurrentMark ac = Some am → Course.CurrentMark bc = Some bm →
  NoDup (gradebookIDs (CourseMark.Assignments am)) →
  NoDup (gradebookIDs (CourseMark.Assignments bm)) →
  ∃ cc, diffCoursePair o p ac (Some bc) = Some cc
    ∧ (∀ r, r ∈ CourseChange.AssignmentRemovals cc
            ↔ r ∈ CourseMark.Assignments am
              ∧ Assignment.GradebookID r ∉ gradebookIDs (CourseMark.Assignments bm))
    ∧ (∀ y, y ∈ CourseChange.AssignmentAdditions cc
            ↔ y ∈ CourseMark.Assignments bm
              ∧ Assignment.GradebookID y ∉ gradebookIDs (CourseMark.Assignments am))
    ∧ (∀ ca, ca ∈ CourseChange.AssignmentChanges cc
             ↔ ∃ x y, x ∈ CourseMark.Assignments am ∧ y ∈ CourseMark.Assignments bm
                      ∧ Assignment.GradebookID x = Assignment.GradebookID y
                      ∧ recorded x y ca).
Proof.
  intros Ho Ham Hbm HndA HndB.
  destruct (reconcile_by_ID o p ac am bm Ho HndA HndB) as (cc & Hcc & Hrem & Hadd & Hch).
  unfold diffCoursePair. cbn [mbind option_bind]. rewrite Hbm, Ham.
  cbn [mbind option_bind]. rewrite Hcc. cbn [mbind option_bind].
  eexists. split; [reflexivity|].
  unfold gradeChange. by destruct (nonZero _).
Qed.

Lemma assignments_reconciled_by_ID_witness :
  ∃ cc, diffCoursePair Order.reversed 1 Sample.algebra (Some movedAlgebra) = Some cc
    ∧ (∀ r, r ∈ CourseChange.AssignmentRemovals cc
            ↔ r ∈ [Sample.g1; Sample.g2]
              ∧ Assignment.GradebookID r ∉ gradebookIDs [Sample.g2; Sample.g1'])
    ∧ (∀ y, y ∈ CourseChange.AssignmentAdditions cc
            ↔ y ∈ [Sample.g2; Sample.g1']
              ∧ Assignment.GradebookID y ∉ gradebookIDs [Sample.g1; Sample.g2])
    ∧ (∀ ca, ca ∈ CourseChange.AssignmentChanges cc
             ↔ ∃ x y, x ∈ [Sample.g1; Sample.g2] ∧ y ∈ [Sample.g2; Sample.g1']
                      ∧ Assignment.GradebookID x = Assignment.GradebookID y
                      ∧ recorded x y ca).
Proof.
  refine (assignments_reconciled_by_ID Order.reversed 1 Sample.algebra movedAlgebra
            _ _ reversed_valid eq_refl eq_refl _ _).
  - apply (bool_decide_unpack _). vm_compute. reflexivity.
  - apply (bool_decide_unpack _). vm_compute. reflexivity.
Defined.

(** ** A period whose course was replaced *)

(** The pairing of a period that the first loop left unpaired stays
    absent in the second loop, unless a course left in the pool carries
    the ID of the older course at that period. *)
Lemma diffCourseSets_stays_unpaired (o : Order.t) (a b : Gradebook.t)
    (A B : gmap Z Course.t) (p : Z) (x : Course.t) :
  Order.valid o →
  Changeset.aMap (afterDropsLoop o (freshChangeset a b A B)).1 !! p = Some x →
  (afterDropsLoop o (freshChangeset a b A B)).2 !! p = None →
  lacksID B (courseKey x) →
  Changeset.aMap (diffCourseSets o (freshChangeset a b A B)) !! p = Some x
  ∧ Changeset.bMap (diffCourseSets o (freshChangeset a b A B)) !! p = None.
Proof.
  intros Ho Hkept Hnone Hlack.
  destruct (diffCourseSets_loops o a b A B Ho)
    as (cs1 & nb1 & cs2 & nb2 & Hst & Hinv1 & Hinv2 & _ & ->).
  rewrite Hst in *. cbn [fst snd] in *.
  destruct Hinv2 as [HaM _ _ _ _ _ Hpairs].
  assert (Changeset.aMap (Changeset.setBMap cs2 nb2) = Changeset.aMap cs1) as ->
    by (by destruct cs2).
  assert (Changeset.bMap (Changeset.setBMap cs2 nb2) = nb2) as ->
    by (by destruct cs2).
  split; [done|].
  destruct (Hpairs p) as [-> | (ac & k & y & _ & Hac & Hy & Hid)]; [done|].
  pose proof (inv_pool _ _ _ _ Hinv1 k y Hy) as HB.
  destruct (Hlack k y HB). congruence.
Qed.

(** X15 (CalcChangeset): when the guard passes and some period holds,
    in the older map, a course whose ID no course of the newer map carries
    and, in the newer map, a course whose ID no course of the older map
    carries, CalcChangeset panics, in every order of visit and whatever
    the other courses are: the older course is neither dropped nor paired,
    and the assignment stage dereferences its absent pairing. *)
Theorem replaced_course_panics (o : Order.t) (a b : Gradebook.t) (p : Z)
    (x bc : Course.t) :
  Order.valid o →
  (gradebookSemestersMatch a b).2 = true →
  byPeriod (Gradebook.Courses a) !! p = Some x →
  byPeriod (Gradebook.Courses b) !! p = Some bc →
  lacksID (byPeriod (Gradebook.Courses b)) (courseKey x) →
  lacksID (byPeriod (Gradebook.Courses a)) (courseKey bc) →
  CalcChangeset o a b = Panicked.
Proof.
  intros Ho Hguard Hx Hbc HlackB HlackA. unfold CalcChangeset.
  destruct (gradebookSemestersMatch a b) as [[as_ bs] ok]. simpl in Hguard.
  subst ok. cbn [negb]. unfold diffStages, coursesAsMap.
  fold (freshChangeset a b (byPeriod (Gradebook.Courses a))
                       (byPeriod (Gradebook.Courses b))).
  set (A := byPeriod (Gradebook.Courses a)) in *.
  set (B := byPeriod (Gradebook.Courses b)) in *.
  destruct (dropsLoop_at o a b A B p Ho) as
    (cs0 & nb0 & Hinv0 & Hnb0 & Ha0 & Hnb & Ha & _); [by eexists|].
  rewrite Hx in Ha0.
  assert (dropsStep o (cs0, nb0) p = (cs0, nb0)) as Hstep.
  { apply (dropsStep_discards_not_found o cs0 nb0 p x bc).
    - done.
    - by apply (inv_unmatched _ _ _ _ Hinv0).
    - intros E. by destruct (HlackB p bc Hbc).
    - intros k c Hk. apply (HlackB k c). by apply (inv_pool _ _ _ _ Hinv0). }
  rewrite Hstep in Hnb, Ha. cbn [fst snd] in Hnb, Ha.
  rewrite Hnb0 in Hnb. rewrite Ha0 in Ha.
  destruct (diffCourseSets_stays_unpaired o a b A B p x Ho Ha Hnb HlackB)
    as [Hkept Hnone].
  by rewrite (unpaired_course_panics o _ p x Ho Hkept Hnone).
Qed.

Lemma replaced_course_panics_witness :
  CalcChangeset Order.reversed
    (Sample.gradebook "Q1" [Sample.algebra; Sample.ungraded])
    (Sample.gradebook "Q1" [Sample.biology; Sample.ungraded'])
  = Panicked.
Proof.
  apply (replaced_course_panics Order.reversed
           (Sample.gradebook "Q1" [Sample.algebra; Sample.ungraded])
           (Sample.gradebook "Q1" [Sample.biology; Sample.ungraded'])
           1 Sample.algebra Sample.biology reversed_valid eq_refl eq_refl eq_refl).
  - intros k c Hk. simpl in Hk. literal_lookups.
  - intros k c Hk. simpl in Hk. literal_lookups.
Defined.

(** ** The outcome depends on the order of visit *)

Lemma startingAt_valid (p : Z) : Order.valid (startingAt p).
Proof. constructor; try done. intros l. apply filter_app_complement. Qed.

Lemma NoDup_only (l : list Z) (p : Z) :
  NoDup l → (∀ k, k ∈ l ↔ k = p) → l = [p].
Proof.
  intros Hnd Hin. destruct l as [|k l].
  { by pose proof (proj2 (Hin p) eq_refl) as ?%elem_of_nil. }
  assert (k = p) as -> by (apply Hin; by left).
  destruct l as [|k' l]; [done|].
  assert (k' = p) as -> by (apply Hin; right; by left).
  apply NoDup_cons in Hnd as [Hnot _]. destruct Hnot. by left.
Qed.

(** The first loop of [startingAt p] starts at [p] when [p] is a key. *)
Lemma startingAt_first {V : Type} (p : Z) (m : gmap Z V) :
  is_Some (m !! p) →
  rangeKeys (Order.dropsLoop (startingAt p)) m
  = p :: filter (λ k, k ≠ p) ((map_to_list m).*1).
Proof.
  intros Hp. unfold rangeKeys. cbn [startingAt Order.dropsLoop].
  rewrite (NoDup_only (filter (λ k, k = p) ((map_to_list m).*1)) p); [done | |].
  - apply NoDup_filter, NoDup_fst_map_to_list.
  - intros k. rewrite list_elem_of_filter. split; [by intros [-> _]|].
    intros ->. split; [done|]. destruct Hp as [v Hv].
    apply list_elem_of_fmap. exists (p, v). split; [done|].
    by apply elem_of_map_to_list.
Qed.

(** The keys of a map of two courses, the period [q] first. *)
Lemma startingAt_two (p q : Z) (x y : Course.t) :
  p ≠ q →
  rangeKeys (Order.dropsLoop (startingAt q)) (<[q := y]> (<[p := x]> ∅)) = [q; p].
Proof.
  intros Hpq. rewrite startingAt_first by (rewrite lookup_insert_eq; by eexists).
  f_equal. apply NoDup_only.
  - apply NoDup_filter, NoDup_fst_map_to_list.
  - intros k. rewrite list_elem_of_filter, list_elem_of_fmap. split.
    + intros [Hk ([k' v] & -> & Hin)]. apply elem_of_map_to_list in Hin.
      simpl in *. rewrite !lookup_insert, lookup_empty in Hin.
      repeat case_decide; congruence.
    + intros ->. split; [done|]. exists (p, x). split; [done|].
      apply elem_of_map_to_list. rewrite lookup_insert_ne by done.
      apply lookup_insert_eq.
Qed.

(** A course whose period is taken by a course with another ID, whose
    ID the newer map lacks, and whose period is the first one visited:
    nothing can have taken the newer course out of the pool yet, so the
    older course is left unpaired. *)
Lemma first_visited_unpaired (o : Order.t) (a b : Gradebook.t)
    (A B : gmap Z Course.t) (p : Z) (rest : list Z) (x bc : Course.t) :
  Order.valid o →
  rangeKeys (Order.dropsLoop o) A = p :: rest →
  A !! p = Some x → B !! p = Some bc → lacksID B (courseKey x) →
  Changeset.aMap (diffCourseSets o (freshChangeset a b A B)) !! p = Some x
  ∧ Changeset.bMap (diffCourseSets o (freshChangeset a b A B)) !! p = None.
Proof.
  intros Ho Hkeys Hx Hbc Hlack.
  pose proof (NoDup_rangeKeys (Order.dropsLoop o) A (Order.dropsLoop_perm o Ho)) as Hnd.
  rewrite Hkeys in Hnd. apply NoDup_cons in Hnd as [Hp Hnd].
  assert (afterDropsLoop o (freshChangeset a b A B)
          = foldl (dropsStep o) (freshChangeset a b A B, ∅) rest) as Hloop.
  { unfold afterDropsLoop. cbn [freshChangeset Changeset.aMap]. rewrite Hkeys.
    cbn [foldl]. f_equal.
    apply (dropsStep_discards_not_found o _ _ p x bc); try done.
    intros E. by destruct (Hlack p bc Hbc). }
  destruct (poolInv_dropsLoop o A B rest Ho Hnd (freshChangeset a b A B) ∅
              (poolInv_fresh a b A B)) as [_ Hframe]; [done|].
  destruct (Hframe p Hp) as [Hnb Ha]. rewrite <- Hloop in Hnb, Ha.
  apply diffCourseSets_stays_unpaired; try done.
  by rewrite Ha.
Qed.

(** Two older courses, one newer course that carries the ID of the
    second and sits at the period of the first: when the period of the
    second is visited first, the newer course is switched away and the
    first course is dropped. *)
Lemma diffCourseSets_switch_then_drop (a b : Gradebook.t) (p q : Z)
    (x y y' : Course.t) :
  p ≠ q → courseKey y' = courseKey y → courseKey x ≠ courseKey y →
  diffCourseSets (startingAt q)
                 (freshChangeset a b (<[q := y]> (<[p := x]> ∅)) {[p := y']})
  = Changeset.mk a b (delete p (<[q := y]> (<[p := x]> ∅))) (<[q := y']> ∅)
                 [CourseSwitch.mk y y' (Course.Period y) (Course.Period y')]
                 [] [x] [].
Proof.
  intros Hpq Hyy Hxy. unfold diffCourseSets, freshChangeset.
  cbn [Changeset.aMap]. rewrite startingAt_two by done.
  cbn [foldl].
  rewrite (dropsStep_switches_found (startingAt q) _ _ q p y y').
  2:{ apply lookup_insert_eq. }
  2:{ intros bc. cbn [Changeset.bMap]. rewrite lookup_singleton_ne; done. }
  2:{ cbn [Changeset.bMap]. unfold findCourse.
      rewrite rangeKeys_singleton by done. cbn [findCourseIn].
      rewrite lookup_singleton_eq. by rewrite (proj2 (String.eqb_eq _ _) Hyy). }
  cbn [Changeset.bMap]. rewrite delete_singleton_eq.
  rewrite (dropsStep_drops_not_found (startingAt q) _ _ p x).
  2:{ cbn. rewrite lookup_insert_ne by done. apply lookup_insert_eq. }
  2:{ done. }
  2:{ by intros k c. }
  cbn [fst Changeset.bMap Changeset.setAMap Changeset.addDrop Changeset.setBMap
       Changeset.addSwitch Changeset.aMap Changeset.a Changeset.b
       Changeset.CourseSwitches Changeset.CourseAdditions Changeset.CourseDrops
       Changeset.CourseChanges].
  unfold rangeKeys. rewrite map_to_list_empty. done.
Qed.

(** X16 (CalcChangeset): the outcome depends on the order in which Go
    visits the map.  Take two older courses and one newer course that
    carries the ID of the second and sits at the period of the first.  If
    the first loop of diffCourseSets visits the first course first,
    CalcChangeset panics; if it visits the second course first,
    CalcChangeset returns a changeset that records the switch of the
    second course and the drop of the first. *)
Theorem visit_order_decides (a b : Gradebook.t) (x y y' : Course.t) :
  (gradebookSemestersMatch a b).2 = true →
  Gradebook.Courses a = [x; y] → Gradebook.Courses b = [y'] →
  Course.Period x ≠ Course.Period y → Course.Period y' = Course.Period x →
  courseKey y' = courseKey y → courseKey x ≠ courseKey y →
  is_Some (Course.CurrentMark y) → is_Some (Course.CurrentMark y') →
  Order.valid (startingAt (Course.Period x))
  ∧ Order.valid (startingAt (Course.Period y))
  ∧ CalcChangeset (startingAt (Course.Period x)) a b = Panicked
  ∧ ∃ cs, CalcChangeset (startingAt (Course.Period y)) a b = Returned cs
          ∧ Changeset.CourseDrops cs = [x]
          ∧ Changeset.CourseSwitches cs
            = [CourseSwitch.mk y y' (Course.Period y) (Course.Period y')].
Proof.
  intros Hguard Ha Hb Hpq Hp' Hyy Hxy Hmy Hmy'.
  split; [apply startingAt_valid|]. split; [apply startingAt_valid|].
  unfold CalcChangeset.
  destruct (gradebookSemestersMatch a b) as [[as_ bs] ok]. simpl in Hguard.
  subst ok. cbn [negb]. unfold diffStages, coursesAsMap.
  fold (freshChangeset a b (byPeriod (Gradebook.Courses a))
                       (byPeriod (Gradebook.Courses b))).
  rewrite Ha, Hb, byPeriod_single, Hp'. unfold byPeriod. cbn [foldl].
  set (p := Course.Period x) in *. set (q := Course.Period y) in *.
  split.
  - destruct (first_visited_unpaired (startingAt p) a b
                (<[q := y]> (<[p := x]> ∅)) {[p := y']} p
                (filter (λ k, k ≠ p) ((map_to_list (<[q := y]> (<[p := x]> ∅))).*1))
                x y' (startingAt_valid p)) as [Hkept Hnone].
    + apply startingAt_first. rewrite lookup_insert_ne by done.
      rewrite lookup_insert_eq. by eexists.
    + rewrite lookup_insert_ne by done. apply lookup_insert_eq.
    + apply lookup_singleton_eq.
    + intros k c [_ <-]%lookup_singleton_Some. congruence.
    + by rewrite (unpaired_course_panics (startingAt p) _ p x
                    (startingAt_valid p) Hkept Hnone).
  - rewrite diffCourseSets_switch_then_drop by done.
    destruct (paired_courses_return (startingAt q)
                (Changeset.mk a b (delete p (<[q := y]> (<[p := x]> ∅)))
                   (<[q := y']> ∅)
                   [CourseSwitch.mk y y' (Course.Period y) (Course.Period y')]
                   [] [x] [])) as [cs Hrun].
    { intros k c. cbn [Changeset.aMap Changeset.bMap].
      rewrite lookup_delete, !lookup_insert, lookup_empty.
      repeat case_decide; try done. intros [= <-]. split; [done|].
      by exists y'. }
    rewrite Hrun. exists cs. split; [done|].
    destruct (diffCourseAssignments_changes (startingAt q) _ cs
                (startingAt_valid q) Hrun) as [(_ & _ & _ & _ & Hs & _ & Hd) _].
    rewrite Hs, Hd. cbn. by rewrite Hp'.
Qed.

Lemma visit_order_decides_witness :
  Order.valid (startingAt 1)
  ∧ Order.valid (startingAt 2)
  ∧ CalcChangeset (startingAt 1)
      (Sample.gradebook "Q1" [Sample.algebra; Sample.ungraded])
      (Sample.gradebook "Q1" [Sample.course 1 "ART-03" (Sample.mark "C" 71.25 [])])
    = Panicked
  ∧ ∃ cs, CalcChangeset (startingAt 2)
            (Sample.gradebook "Q1" [Sample.algebra; Sample.ungraded])
            (Sample.gradebook "Q1" [Sample.course 1 "ART-03" (Sample.mark "C" 71.25 [])])
          = Returned cs
          ∧ Changeset.CourseDrops cs = [Sample.algebra]
          ∧ Changeset.CourseSwitches cs
            = [CourseSwitch.mk Sample.ungraded
                 (Sample.course 1 "ART-03" (Sample.mark "C" 71.25 [])) 2 1].
Proof.
  apply (visit_order_decides
           (Sample.gradebook "Q1" [Sample.algebra; Sample.ungraded])
           (Sample.gradebook "Q1" [Sample.course 1 "ART-03" (Sample.mark "C" 71.25 [])])
           Sample.algebra Sample.ungraded
           (Sample.course 1 "ART-03" (Sample.mark "C" 71.25 []))
           eq_refl eq_refl eq_refl); done.
Defined.

(** ** Two newer courses with one ID *)

Lemma diffCourseSets_unfold (o : Order.t) (cs : Changeset.t) :
  diffCourseSets o cs
  = Changeset.setBMap
      (foldl (additionsStep o) (afterDropsLoop o cs)
             (rangeKeys (Order.additionsLoop o)
                        (Changeset.bMap (afterDropsLoop o cs).1))).1
      (foldl (additionsStep o) (afterDropsLoop o cs)
             (rangeKeys (Order.additionsLoop o)
                        (Changeset.bMap (afterDropsLoop o cs).1))).2.
Proof.
  unfold diffCourseSets. fold (afterDropsLoop o cs).
  by destruct (foldl (additionsStep o) _ _).
Qed.

(** One iteration of the second loop leaves aMap alone and removes its
    own key from the pool. *)
Lemma additionsStep_maps (o : Order.t) (cs : Changeset.t) (nb : gmap Z Course.t)
    (k : Z) :
  Changeset.aMap (additionsStep o (cs, nb) k).1 = Changeset.aMap cs
  ∧ ∀ k', k' ≠ k →
          Changeset.bMap (additionsStep o (cs, nb) k).1 !! k'
          = Changeset.bMap cs !! k'.
Proof.
  unfold additionsStep. destruct (Changeset.bMap cs !! k) as [bc|]; [|done].
  destruct (findCourse _ _ _) as [[c k0]|]; cbn [fst snd];
    (split; [by destruct cs|]); intros k' Hk'; destruct cs; simpl;
    by rewrite lookup_delete_ne.
Qed.

(** A period paired with its own older course stays so. *)
Lemma additionsStep_keeps_self (o : Order.t) (p : Z) (ac : Course.t)
    (st : SetsState) (k : Z) :
  Changeset.aMap st.1 !! p = Some ac ∧ st.2 !! p = Some ac →
  Changeset.aMap (additionsStep o st k).1 !! p = Some ac
  ∧ (additionsStep o st k).2 !! p = Some ac.
Proof.
  destruct st as [cs nb]. cbn [fst snd]. intros [Ha Hnb].
  destruct (additionsStep_maps o cs nb k) as [-> _]. split; [done|].
  unfold additionsStep. destruct (Changeset.bMap cs !! k) as [bc|]; [|done].
  destruct (findCourse _ _ _) as [[c k0]|] eqn:Hfind; cbn [fst snd]; [|done].
  apply findCourse_Some in Hfind as [Hk0 _].
  rewrite lookup_insert. case_decide; [congruence | done].
Qed.

(** A course left in the pool that carries the ID of an older course
    makes the second loop pair that older course with itself. *)
Lemma additionsLoop_self_pairs (o : Order.t) (p kb : Z) (ac b : Course.t)
    (ks : list Z) :
  Order.valid o → kb ∈ ks → courseKey b = courseKey ac →
  ∀ cs nb,
    Changeset.aMap cs !! p = Some ac →
    (∀ k c, Changeset.aMap cs !! k = Some c → courseKey c = courseKey ac → k = p) →
    Changeset.bMap cs !! kb = Some b →
    (foldl (additionsStep o) (cs, nb) ks).2 !! p = Some ac.
Proof.
  intros Ho Hin Hid. induction ks as [|k ks IH]; intros cs nb Ha Huniq Hb.
  { by apply elem_of_nil in Hin. }
  cbn [foldl]. destruct (additionsStep_maps o cs nb k) as [HaM HbM].
  destruct (decide (k = kb)) as [-> | Hne].
  - assert (Changeset.aMap (additionsStep o (cs, nb) kb).1 !! p = Some ac
            ∧ (additionsStep o (cs, nb) kb).2 !! p = Some ac) as Hself.
    { rewrite HaM. split; [done|]. unfold additionsStep. rewrite Hb.
      destruct (findCourse _ _ _) as [[c k0]|] eqn:Hfind; cbn [fst snd].
      - apply findCourse_Some in Hfind as [Hk0 Hidc].
        assert (k0 = p) as -> by (apply (Huniq k0 c); congruence).
        rewrite lookup_insert_eq. congruence.
      - apply findCourse_None in Hfind; [|apply Ho].
        by destruct (Hfind p ac Ha). }
    apply (foldl_preserves
             (λ st, Changeset.aMap st.1 !! p = Some ac ∧ st.2 !! p = Some ac));
      [|done].
    intros s k'. apply additionsStep_keeps_self.
  - apply elem_of_cons in Hin as [? | Hin]; [congruence|].
    destruct (additionsStep o (cs, nb) k) as [cs' nb'] eqn:Hstep.
    cbn [fst snd] in *. apply IH; try done.
    + by rewrite HaM.
    + intros k' c. rewrite HaM. apply Huniq.
    + rewrite HbM by done. done.
Qed.

(** With distinct IDs in the older map and two different newer courses
    that carry the ID of one older course, that course ends up paired
    with itself. *)
Lemma diffCourseSets_self_pairs (o : Order.t) (a b : Gradebook.t)
    (A B : gmap Z Course.t) (p k1 k2 : Z) (ac b1 b2 : Course.t) :
  Order.valid o → distinctIDs A →
  A !! p = Some ac → B !! k1 = Some b1 → B !! k2 = Some b2 → b1 ≠ b2 →
  courseKey b1 = courseKey ac → courseKey b2 = courseKey ac →
  Changeset.aMap (diffCourseSets o (freshChangeset a b A B)) !! p = Some ac
  ∧ Changeset.bMap (diffCourseSets o (freshChangeset a b A B)) !! p = Some ac.
Proof.
  intros Ho HdA Hp Hk1 Hk2 Hne Hid1 Hid2.
  destruct (dropsLoop_covered o a b A B p k1 ac b1 Ho HdA Hp Hk1 (eq_sym Hid1))
    as (Hkept & x & k & Hx & _).
  pose proof (poolInv_afterDropsLoop o a b A B Ho) as Hinv.
  rewrite diffCourseSets_unfold.
  destruct (afterDropsLoop o (freshChangeset a b A B)) as [cs1 nb1].
  cbn [fst snd] in *.
  assert (∀ k c, Changeset.aMap cs1 !! k = Some c → courseKey c = courseKey ac →
                 k = p) as Huniq.
  { intros k' c Hc Hidc. apply (HdA k' p c ac); [|done..].
    by apply (inv_kept _ _ _ _ Hinv). }
  assert (∀ ki bi, B !! ki = Some bi → courseKey bi = courseKey ac →
                   Changeset.bMap cs1 !! ki = Some bi ∨ x = bi) as Hleft.
  { intros ki bi Hki Hidi.
    destruct (Changeset.bMap cs1 !! ki) as [y|] eqn:Hy.
    - left. pose proof (inv_pool _ _ _ _ Hinv ki y Hy). congruence.
    - right. destruct (inv_consumed _ _ _ _ Hinv ki bi Hki Hy) as [p0 Hp0].
      destruct (inv_pairs _ _ _ _ Hinv p0 bi Hp0) as (ac0 & Hac0 & Hid0 & _).
      assert (p0 = p) as -> by (apply (Huniq p0 ac0); congruence).
      congruence. }
  assert (∃ kb bb, Changeset.bMap cs1 !! kb = Some bb ∧ courseKey bb = courseKey ac)
    as (kb & bb & Hkb & Hidb).
  { destruct (Hleft k1 b1 Hk1 Hid1) as [? | E1]; [by eauto|].
    destruct (Hleft k2 b2 Hk2 Hid2) as [? | E2]; [by eauto|]. congruence. }
  set (ks := rangeKeys (Order.additionsLoop o) (Changeset.bMap cs1)).
  split.
  - assert (Changeset.aMap (Changeset.setBMap
                              (foldl (additionsStep o) (cs1, nb1) ks).1
                              (foldl (additionsStep o) (cs1, nb1) ks).2)
            = Changeset.aMap (foldl (additionsStep o) (cs1, nb1) ks).1) as ->
      by (by destruct (foldl (additionsStep o) (cs1, nb1) ks).1).
    apply (foldl_preserves (λ st, Changeset.aMap st.1 !! p = Some ac)); [|done].
    intros [cs nb] k'. cbn [fst]. by destruct (additionsStep_maps o cs nb k') as [-> _].
  - assert (Changeset.bMap (Changeset.setBMap
                              (foldl (additionsStep o) (cs1, nb1) ks).1
                              (foldl (additionsStep o) (cs1, nb1) ks).2)
            = (foldl (additionsStep o) (cs1, nb1) ks).2) as ->
      by (by destruct (foldl (additionsStep o) (cs1, nb1) ks).1).
    apply (additionsLoop_self_pairs o p kb ac bb); try done.
    apply elem_of_rangeKeys; [apply Ho | by eexists].
Qed.

(** X17 (CalcChangeset): when the older snapshot has no two courses
    with one ID and two different courses of the newer snapshot carry the
    ID of one older course, the second loop of diffCourseSets stores the
    older course itself as its pairing ([normalizedBMap[k] = c], where [c]
    comes from aMap).  A changeset that CalcChangeset returns then pairs
    that course with itself, and when its numbers are finite no
    CourseChange names it, whatever the newer courses hold. *)
Theorem duplicate_ID_hides_changes (o : Order.t) (a b : Gradebook.t)
    (cs : Changeset.t) (p k1 k2 : Z) (ac b1 b2 : Course.t) :
  Order.valid o →
  CalcChangeset o a b = Returned cs →
  distinctIDs (byPeriod (Gradebook.Courses a)) →
  byPeriod (Gradebook.Courses a) !! p = Some ac →
  byPeriod (Gradebook.Courses b) !! k1 = Some b1 →
  byPeriod (Gradebook.Courses b) !! k2 = Some b2 →
  b1 ≠ b2 → courseKey b1 = courseKey ac → courseKey b2 = courseKey ac →
  readyCourse ac = true →
  Changeset.bMap cs !! p = Some ac
  ∧ ∀ cc, cc ∈ Changeset.CourseChanges cs → CourseChange.Course cc ≠ ac.
Proof.
  intros Ho Hret HdA Hp Hk1 Hk2 Hne Hid1 Hid2 Hready.
  unfold CalcChangeset in Hret.
  destruct (gradebookSemestersMatch a b) as [[as_ bs] ok]. destruct ok; [|done].
  cbn [negb] in Hret. unfold diffStages, coursesAsMap in Hret.
  fold (freshChangeset a b (byPeriod (Gradebook.Courses a))
                       (byPeriod (Gradebook.Courses b))) in Hret.
  set (A := byPeriod (Gradebook.Courses a)) in *.
  set (B := byPeriod (Gradebook.Courses b)) in *.
  destruct (diffCourseSets_self_pairs o a b A B p k1 k2 ac b1 b2) as [Hkept Hself];
    try done.
  destruct (diffCourseSets_conserves o a b A B Ho) as (cs1 & nb1 & _ & Hinv & HaM & _).
  destruct (diffCourseAssignments o _) as [cs'|] eqn:Hrun; [|done].
  injection Hret as ->.
  destruct (diffCourseAssignments_changes o _ cs Ho Hrun)
    as [(_ & _ & Ha' & Hb' & _) Hch].
  split; [by rewrite Hb'|].
  intros cc Hcc Hcourse. apply Hch in Hcc as [Hcc | (p' & Hrep)].
  { rewrite diffCourseSets_no_changes in Hcc by done. by apply elem_of_nil in Hcc. }
  destruct Hrep as (ac' & bc' & Hac' & Hbc' & Hpair & Hworth).
  assert (ac' = ac) as ->.
  { unfold diffCoursePair in Hpair. simpl in Hpair.
    destruct (Course.CurrentMark bc') as [bm|]; [|done].
    destruct (Course.CurrentMark ac') as [am|]; [|done]. simpl in Hpair.
    destruct (reconcileAssignments o p' ac' am bm) as [cc0|] eqn:Hrec; [|done].
    simpl in Hpair. injection Hpair as <-.
    apply reconcileAssignments_head in Hrec as [<- _]. rewrite <- Hcourse.
    unfold gradeChange. by destruct (nonZero _). }
  assert (p' = p) as ->.
  { apply (HdA p' p ac ac); [|done..]. rewrite HaM in Hac'.
    by apply (inv_kept _ _ _ _ Hinv). }
  rewrite Hself in Hbc'. injection Hbc' as <-.
  rewrite diffCoursePair_self in Hpair by done. injection Hpair as <-.
  by rewrite worthReporting_new in Hworth.
Qed.

Lemma duplicate_ID_hides_changes_witness :
  ∃ cs, CalcChangeset Order.reversed
          (Sample.gradebook "Q1" [Sample.algebra])
          (Sample.gradebook "Q1" [Sample.algebra'; movedAlgebra])
        = Returned cs
        ∧ Changeset.bMap cs !! 1 = Some Sample.algebra
        ∧ ∀ cc, cc ∈ Changeset.CourseChanges cs →
                CourseChange.Course cc ≠ Sample.algebra.
Proof.
  eexists. split; [reflexivity|].
  apply (duplicate_ID_hides_changes Order.reversed
           (Sample.gradebook "Q1" [Sample.algebra])
           (Sample.gradebook "Q1" [Sample.algebra'; movedAlgebra])
           _ 1 1 3 Sample.algebra Sample.algebra' movedAlgebra reversed_valid);
    try reflexivity.
  - intros p p' c c' H1 H2 Hid. simpl in H1, H2. literal_lookups.
  - discriminate.
Defined.

(** ** When CalcChangeset panics *)

(** The body of the loop fails exactly on a missing pairing or a missing
    current mark. *)
Lemma diffCoursePair_None (o : Order.t) (p : Z) (ac : Course.t)
    (obc : option Course.t) :
  diffCoursePair o p ac obc = None
  ↔ obc = None ∨ Course.CurrentMark ac = None
    ∨ ∃ bc, obc = Some bc ∧ Course.CurrentMark bc = None.
Proof.
  unfold diffCoursePair. destruct obc as [bc|]; cbn [mbind option_bind].
  2:{ split; [by left | done]. }
  destruct (Course.CurrentMark bc) as [bm|] eqn:Hbm; cbn [mbind option_bind].
  2:{ split; [|done]. intros _. right. right. by exists bc. }
  destruct (Course.CurrentMark ac) as [am|] eqn:Ham; cbn [mbind option_bind].
  2:{ split; [|done]. intros _. right. by left. }
  destruct (reconcileAssignments_returns o p ac am bm) as [cc ->].
  cbn [mbind option_bind]. split; [done|].
  intros [? | [? | (bc' & [= <-] & ?)]]; congruence.
Qed.

Lemma coursesStep_None (o : Order.t) (cs : Changeset.t) (p : Z) :
  coursesStep o cs p = None ↔ blocked cs p.
Proof.
  unfold coursesStep, blocked. destruct (Changeset.aMap cs !! p) as [ac|].
  - destruct (diffCoursePair o p ac (Changeset.bMap cs !! p)) as [cc|] eqn:Hpair;
      cbn [mbind option_bind].
    + split; [done|]. intros (ac' & [= <-] & Hwhy).
      assert (diffCoursePair o p ac (Changeset.bMap cs !! p) = None) as E;
        [|congruence].
      apply diffCoursePair_None. destruct Hwhy as [? | [? | (bc & ? & ?)]]; eauto.
    + split; [|done]. intros _. exists ac. split; [done|].
      apply diffCoursePair_None in Hpair as [? | [? | (bc & ? & ?)]]; eauto.
  - split; [done|]. by intros (ac & ? & _).
Qed.

Lemma blocked_sameMaps (cs cs' : Changeset.t) (p : Z) :
  Changeset.aMap cs' = Changeset.aMap cs → Changeset.bMap cs' = Changeset.bMap cs →
  blocked cs' p ↔ blocked cs p.
Proof. unfold blocked. by intros -> ->. Qed.

Lemma coursesLoop_None (o : Order.t) (ks : list Z) :
  ∀ cs, forEach (coursesStep o) cs ks = None ↔ ∃ p, p ∈ ks ∧ blocked cs p.
Proof.
  induction ks as [|k ks IH]; intros cs; cbn [forEach].
  { split; [done|]. by intros (p & ?%elem_of_nil & _). }
  destruct (coursesStep o cs k) as [cs'|] eqn:Hstep; cbn [mbind option_bind].
  - destruct (coursesStep_maps _ _ _ _ Hstep) as [HA HB]. rewrite IH. split.
    + intros (p & Hp & Hblocked). exists p. split; [by right|].
      by apply (blocked_sameMaps cs cs').
    + intros (p & [-> | Hp]%elem_of_cons & Hblocked).
      * apply (proj2 (coursesStep_None o cs k)) in Hblocked. congruence.
      * exists p. split; [done|]. by apply (blocked_sameMaps cs cs').
  - split; [|done]. intros _. exists k. split; [by left|].
    by apply (proj1 (coursesStep_None o cs k)).
Qed.

(** The loop of diffCourseAssignments panics exactly when it cannot get
    past some period. *)
Lemma diffCourseAssignments_None (o : Order.t) (cs : Changeset.t) :
  Order.valid o →
  diffCourseAssignments o cs = None ↔ ∃ p, blocked cs p.
Proof.
  intros Ho. unfold diffCourseAssignments. rewrite coursesLoop_None. split.
  - intros (p & _ & ?). by exists p.
  - intros (p & Hblocked). exists p. split; [|done].
    destruct Hblocked as (ac & Hac & _).
    apply elem_of_rangeKeys; [apply Ho | by eexists].
Qed.

(** X18 (CalcChangeset, after the guard): in every order of visit, the
    two diffing stages that CalcChangeset runs once the semester guard has
    let the pair through (building the maps, diffCourseSets,
    diffCourseAssignments) panic exactly when, after diffCourseSets, some
    course left in aMap has no pairing or lacks a CurrentMark, or its
    pairing lacks one.  When every course of the two maps has its
    CurrentMark, the only cause is a course left without pairing.  (The
    guard itself reads the two current grading periods before these
    stages; the property says nothing of it.) *)
Theorem panics_iff_blocked (o : Order.t) (a b : Gradebook.t) :
  Order.valid o →
  (diffStages o a b = Panicked
   ↔ ∃ p, blocked (diffCourseSets o
                     (freshChangeset a b (byPeriod (Gradebook.Courses a))
                                     (byPeriod (Gradebook.Courses b)))) p)
  ∧ (marksSet (byPeriod (Gradebook.Courses a)) →
     marksSet (byPeriod (Gradebook.Courses b)) →
     diffStages o a b = Panicked →
     ∃ p ac,
       Changeset.aMap (diffCourseSets o
                         (freshChangeset a b (byPeriod (Gradebook.Courses a))
                                         (byPeriod (Gradebook.Courses b)))) !! p
       = Some ac
       ∧ Changeset.bMap (diffCourseSets o
                           (freshChangeset a b (byPeriod (Gradebook.Courses a))
                                           (byPeriod (Gradebook.Courses b)))) !! p
         = None).
Proof.
  intros Ho.
  assert (diffStages o a b = Panicked
          ↔ ∃ p, blocked (diffCourseSets o
                            (freshChangeset a b (byPeriod (Gradebook.Courses a))
                                            (byPeriod (Gradebook.Courses b)))) p)
    as Hiff.
  { unfold diffStages, coursesAsMap.
    fold (freshChangeset a b (byPeriod (Gradebook.Courses a))
                         (byPeriod (Gradebook.Courses b))).
    rewrite <- (diffCourseAssignments_None o _ Ho).
    by destruct (diffCourseAssignments o _). }
  split; [done|]. intros HmA HmB Hpanic.
  apply Hiff in Hpanic as (p & ac & Hac & Hwhy). exists p, ac. split; [done|].
  set (A := byPeriod (Gradebook.Courses a)) in *.
  set (B := byPeriod (Gradebook.Courses b)) in *.
  destruct (diffCourseSets_conserves o a b A B Ho) as (cs1 & nb1 & _ & Hinv & HaM & _).
  assert (A !! p = Some ac) as HA.
  { rewrite HaM in Hac. by apply (inv_kept _ _ _ _ Hinv). }
  destruct Hwhy as [? | [Hnone | (bc & Hbc & Hnone)]]; [done | |].
  - destruct (HmA p ac HA) as [m Hm]. congruence.
  - destruct (diffCourseSets_loops o a b A B Ho)
      as (cs1' & nb1' & cs2 & nb2 & _ & Hinv1 & Hinv2 & _ & E).
    rewrite E in Hbc, Hac.
    assert (Changeset.bMap (Changeset.setBMap cs2 nb2) = nb2) as Eb
      by (by destruct cs2).
    assert (Changeset.aMap (Changeset.setBMap cs2 nb2) = Changeset.aMap cs1') as Ea.
    { destruct Hinv2 as [<- _ _ _ _ _ _]. by destruct cs2. }
    rewrite Eb in Hbc. rewrite Ea in Hac.
    destruct (left_pairs _ _ _ _ Hinv2 p) as [Hsame | (ac' & k & y & Hnb & Hac' & _)].
    + rewrite Hsame in Hbc.
      destruct (inv_pairs _ _ _ _ Hinv1 p bc Hbc) as (ac' & Hac' & _ & [[k Hk] | ->]).
      * destruct (HmB k bc Hk) as [m Hm]. congruence.
      * assert (ac' = ac) as -> by congruence.
        destruct (HmA p ac HA) as [m Hm]. congruence.
    + assert (bc = ac) as -> by congruence.
      destruct (HmA p ac HA) as [m Hm]. congruence.
Qed.

Lemma panics_iff_blocked_witness :
  ∃ p ac,
    Changeset.aMap
      (diffCourseSets Order.reversed
         (freshChangeset
            (Sample.gradebook "Q1" [Sample.algebra; Sample.ungraded])
            (Sample.gradebook "Q1" [Sample.biology; Sample.ungraded'])
            (byPeriod [Sample.algebra; Sample.ungraded])
            (byPeriod [Sample.biology; Sample.ungraded']))) !! p
    = Some ac
    ∧ Changeset.bMap
        (diffCourseSets Order.reversed
           (freshChangeset
              (Sample.gradebook "Q1" [Sample.algebra; Sample.ungraded])
              (Sample.gradebook "Q1" [Sample.biology; Sample.ungraded'])
              (byPeriod [Sample.algebra; Sample.ungraded])
              (byPeriod [Sample.biology; Sample.ungraded']))) !! p
      = None.
Proof.
  refine (proj2 (panics_iff_blocked Order.reversed
                   (Sample.gradebook "Q1" [Sample.algebra; Sample.ungraded])
                   (Sample.gradebook "Q1" [Sample.biology; Sample.ungraded'])
                   reversed_valid) _ _ _).
  - intros p c Hp. simpl in Hp. literal_lookups.
  - intros p c Hp. simpl in Hp. literal_lookups.
  - reflexivity.
Defined.

(** ** Every result of the matcher is a match *)

Lemma lazyPlus_sound {R : Type} (c : charClass)
    (k : list string → string → option R) (caps : list string) (s : string) (r : R) :
  lazyPlus c k caps s = Some r →
  ∃ u s', s = u ++ s' ∧ u ≠ "" ∧ allChars (inClass c) u = true ∧ k caps s' = Some r.
Proof.
  induction s as [|x s IH]; [done|]. simpl.
  destruct (inClass c x) eqn:Hx; [|done].
  destruct (k caps s) as [r'|] eqn:Hk.
  - intros [= <-]. exists (String x ""), s. split_and!; try done.
    simpl. by rewrite Hx.
  - intros H. destruct (IH H) as (u & s' & -> & Hu & Hall & Hk').
    exists (String x u), s'. rewrite append_String. split_and!; try done.
    simpl. by rewrite Hx.
Qed.

Lemma greedyStar_sound {R : Type} (c : charClass)
    (k : list string → string → option R) (caps : list string) (s : string) (r : R) :
  greedyStar c k caps s = Some r →
  ∃ u s', s = u ++ s' ∧ allChars (inClass c) u = true ∧ k caps s' = Some r.
Proof.
  induction s as [|x s IH]; simpl.
  { intros H. by exists "", "". }
  destruct (inClass c x) eqn:Hx.
  - destruct (greedyStar c k caps s) as [r'|] eqn:Hrec.
    + intros [= <-]. destruct (IH eq_refl) as (u & s' & -> & Hall & Hk').
      exists (String x u), s'. rewrite append_String. split_and!; try done.
      simpl. by rewrite Hx.
    + intros H. by exists "", (String x s).
  - intros H. by exists "", (String x s).
Qed.

Lemma matchRe_sound {R : Type} (r : regex) :
  ∀ (k : list string → string → option R) (caps : list string) (s : string)
    (res : R),
    matchRe r k caps s = Some res →
    ∃ u s' gs, s = u ++ s' ∧ Matches r u gs ∧ k (caps ++ gs)%list s' = Some res.
Proof.
  induction r as [c | c | c | r1 IH1 r2 IH2 | r1 IH1]; intros k caps s res; simpl.
  - destruct s as [|x s]; [done|]. destruct (inClass c x) eqn:Hx; [|done].
    intros H. exists (String x ""), s, []. rewrite app_nil_r.
    split_and!; [done | by constructor | done].
  - intros H. destruct (lazyPlus_sound c k caps s res H) as (u & s' & -> & ? & ? & ?).
    exists u, s', []. rewrite app_nil_r. split_and!; [done | by constructor | done].
  - intros H. destruct (greedyStar_sound c k caps s res H) as (u & s' & -> & ? & ?).
    exists u, s', []. rewrite app_nil_r. split_and!; [done | by constructor | done].
  - intros H. destruct (IH1 _ _ _ _ H) as (u1 & s1 & g1 & -> & M1 & H1).
    destruct (IH2 _ _ _ _ H1) as (u2 & s2 & g2 & -> & M2 & H2).
    exists (u1 ++ u2), s2, (g1 ++ g2)%list.
    rewrite append_assoc, app_assoc. split_and!; [done | by constructor | done].
  - intros H. destruct (IH1 _ _ _ _ H) as (u & s' & g & -> & M & Hk).
    rewrite consumed_app in Hk.
    exists u, s', (g ++ [u])%list. rewrite app_assoc.
    split_and!; [done | by constructor | done].
Qed.

(** What FindStringSubmatch returns is the text of a match somewhere in
    the input, followed by its groups. *)
Lemma FindStringSubmatch_sound (r : regex) (s : string) (m : list string) :
  FindStringSubmatch r s = Some m →
  ∃ pre u post gs, s = pre ++ u ++ post ∧ m = u :: gs ∧ Matches r u gs.
Proof.
  induction s as [|x s IH]; rewrite FindStringSubmatch_unfold.
  - destruct (matchRe r _ [] "") as [m'|] eqn:Hm; [|done]. intros [= <-].
    destruct (matchRe_sound r _ _ _ _ Hm) as (u & s' & gs & E & M & Hk).
    rewrite E, consumed_app in Hk. injection Hk as <-.
    by exists "", u, s', gs.
  - destruct (matchRe r _ [] (String x s)) as [m'|] eqn:Hm.
    + intros [= <-].
      destruct (matchRe_sound r _ _ _ _ Hm) as (u & s' & gs & E & M & Hk).
      rewrite E, consumed_app in Hk. injection Hk as <-.
      exists "", u, s', gs. by rewrite E.
    + intros H. destruct (IH H) as (pre & u & post & gs & -> & -> & M).
      exists (String x pre), u, post, gs. by rewrite append_String.
Qed.

(** The matches of the pattern of course titles: a name of at least one
    character, white space, and a parenthesized group of at least one
    character. *)
Lemma Matches_nameRegex (u : string) (gs : list string) :
  Matches nameRegex u gs →
  ∃ n ws mid, n ≠ "" ∧ mid ≠ ""
    ∧ u = n ++ ws ++ String "(" (mid ++ ")")
    ∧ gs = [n; String "(" (mid ++ ")")].
Proof.
  unfold nameRegex. intros M.
  inversion M as [| | | ? ? n u23 g1 g23 M1 M23 |]; subst; clear M.
  inversion M1 as [| | | | ? ? gn Mn]; subst; clear M1.
  inversion Mn as [| ? ? Hn _ | | |]; subst; clear Mn.
  inversion M23 as [| | | ? ? ws u3 gw g3 Mw M3 |]; subst; clear M23.
  inversion Mw; subst; clear Mw.
  inversion M3 as [| | | | ? ? g' M'] ; subst; clear M3.
  inversion M' as [| | | ? ? o1 u45 go g45 Mo M45 |]; subst; clear M'.
  inversion Mo as [? x Hx | | | |]; subst; clear Mo.
  inversion M45 as [| | | ? ? mid c1 gm gc Mm Mc |]; subst; clear M45.
  inversion Mm as [| ? ? Hmid _ | | |]; subst; clear Mm.
  inversion Mc as [? z Hz | | | |]; subst; clear Mc.
  simpl in Hx, Hz. apply Ascii.eqb_eq in Hx as ->. apply Ascii.eqb_eq in Hz as ->.
  exists n, ws, mid. split_and!; try done.
Qed.

Lemma string_snoc (s : string) : s ≠ "" → ∃ i l, s = i ++ String l "".
Proof.
  induction s as [|c s IH]; [done|]. intros _. destruct s as [|d s].
  - by exists "", c.
  - destruct IH as (i & l & ->); [done|]. exists (String c i), l.
    by rewrite append_String.
Qed.

(** The text between the first and the last character. *)
Lemma strip_ends (c d : ascii) (mid : string) :
  substring 1 (String.length (String c (mid ++ String d "")) - 2)
            (String c (mid ++ String d ""))
  = mid.
Proof.
  cbn [String.length substring]. rewrite length_append. cbn [String.length].
  replace (S (String.length mid + 1) - 2)%nat with (String.length mid) by lia.
  apply substring_prefix.
Qed.

(** X19 (CourseID.UnmarshalXMLAttr): the decoder of course titles never
    indexes out of range, whatever the attribute holds: each group the
    pattern captures has at least one character.  When it decodes, the ID
    and the name are not empty, the name occurs in the attribute and so
    does the ID between parentheses. *)
Theorem UnmarshalCourseID_safe (value : string) :
  UnmarshalCourseID value ≠ AttrPanic
  ∧ ∀ cid, UnmarshalCourseID value = Decoded cid →
           CourseID.ID cid ≠ "" ∧ CourseID.Name cid ≠ ""
           ∧ Contains value (CourseID.Name cid) = true
           ∧ Contains value ("(" ++ CourseID.ID cid ++ ")") = true.
Proof.
  unfold UnmarshalCourseID.
  destruct (FindStringSubmatch nameRegex value) as [name|] eqn:Hfind; [|done].
  apply FindStringSubmatch_sound in Hfind as (pre & u & post & gs & -> & -> & M).
  apply Matches_nameRegex in M as (n & ws & mid & Hn & Hmid & -> & ->).
  cbn [length Nat.eqb negb tail pickGroup].
  destruct n as [|c n]; [done|]. clear Hn.
  destruct (lastChar_nonempty c n) as [l Hl]. rewrite Hl. cbn [String.get].
  assert (lastChar (String "(" (mid ++ ")")) = Some ")"%char) as Hlast.
  { change (String "(" (mid ++ ")")) with (String "(" mid ++ ")").
    apply lastChar_snoc. }
  assert (substring 1 (String.length (String "(" (mid ++ ")")) - 2)
                    (String "(" (mid ++ ")")) = mid) as Hstrip
    by apply strip_ends.
  assert (Contains (pre ++ (String c n ++ ws ++ String "(" (mid ++ ")")) ++ post)
                   (String c n ++ ws ++ String "(" (mid ++ ")")) = true) as Hwhole.
  { apply Contains_spec. by exists pre, post. }
  destruct (Ascii.eqb c "(" && Ascii.eqb l ")") eqn:Hparens.
  - cbn [lookup list_lookup].
    destruct (String.eqb_spec
                (substring 1 (String.length (String c n) - 2) (String c n)) "")
      as [Hempty | Hfull]; [done|].
    split; [done|]. intros cid [= <-]. cbn [CourseID.ID CourseID.Name].
    split_and!; try done.
    apply andb_true_iff in Hparens as [->%Ascii.eqb_eq ->%Ascii.eqb_eq].
    destruct n as [|d n]; [by vm_compute in Hl|].
    destruct (string_snoc (String d n)) as (i & z & Hi); [done|].
    rewrite Hi in *.
    assert (z = ")"%char) as ->.
    { change (String "(" (i ++ String z "")) with (String "(" i ++ String z "") in Hl.
      rewrite lastChar_snoc in Hl. congruence. }
    assert (substring 0 (String.length (i ++ ")") - 1) (i ++ ")") = i) as ->.
    { rewrite length_append. cbn [String.length].
      replace (String.length i + 1 - 1)%nat with (String.length i) by lia.
      apply substring_prefix. }
    apply Contains_spec.
    exists pre, (ws ++ String "(" (mid ++ ")") ++ post).
    change ("(" ++ i ++ ")") with (String "(" (i ++ ")")).
    by rewrite !append_assoc.
  - cbn [String.get]. rewrite Hlast. cbn [Ascii.eqb Bool.eqb andb lookup list_lookup].
    rewrite Hstrip. destruct (String.eqb_spec mid "") as [? | _]; [done|].
    split; [done|]. intros cid [= <-]. cbn [CourseID.ID CourseID.Name].
    split_and!; try done.
    + apply Contains_spec. exists pre, (ws ++ String "(" (mid ++ ")") ++ post).
      by rewrite !append_assoc.
    + apply Contains_spec. exists (pre ++ String c n ++ ws), post.
      change ("(" ++ mid ++ ")") with (String "(" (mid ++ ")")).
      by rewrite !append_assoc.
Qed.

(** ** The current marks a decoded gradebook carries *)

Lemma byPeriod_keyed (cs : list Course.t) (p : Z) (c : Course.t) :
  byPeriod cs !! p = Some c → Course.Period c = p.
Proof.
  unfold byPeriod. rewrite byPeriod_foldl, lookup_empty.
  destruct (last (atPeriod p cs)) as [c'|] eqn:Hlast; [|done]. intros [= ->].
  apply last_Some in Hlast as [l Hl].
  assert (c ∈ atPeriod p cs) as Hin by (rewrite Hl; apply elem_of_app; right; by left).
  unfold atPeriod in Hin. by apply list_elem_of_filter in Hin as [? _].
Qed.

(** X20 (decodeStudentGrades): when the loop that ends
    decodeStudentGrades does not panic, every course of the gradebook it
    returns has a CurrentMark, the mark of its own Marks at the index of
    the current grading period; the label of the current period, the
    periods and the IDs of the courses are untouched, so that the maps
    CalcChangeset builds from decoded gradebooks hold only courses with
    CurrentMark set, keyed by their periods. *)
Theorem decoded_marks_are_set (g g' : Gradebook.t) :
  selectCurrentMarks g = Some g' →
  Forall (λ c, Course.CurrentMark c
               = sliceAt (Course.Marks c) (CurrentGradingPeriodIndex g)
               ∧ is_Some (Course.CurrentMark c))
         (Gradebook.Courses g')
  ∧ label g' = label g
  ∧ Course.Period <$> Gradebook.Courses g' = Course.Period <$> Gradebook.Courses g
  ∧ courseKey <$> Gradebook.Courses g' = courseKey <$> Gradebook.Courses g
  ∧ marksSet (byPeriod (Gradebook.Courses g'))
  ∧ keyedByPeriod (byPeriod (Gradebook.Courses g')).
Proof.
  unfold selectCurrentMarks.
  destruct (setCurrentMarks _ _) as [cs|] eqn:Hcs; [|done].
  cbn [mbind option_bind]. intros [= <-]. cbn [Gradebook.Courses].
  apply setCurrentMarks_Some in Hcs as [Hall ->].
  assert (Forall (λ c, Course.CurrentMark c
                       = sliceAt (Course.Marks c) (CurrentGradingPeriodIndex g)
                       ∧ is_Some (Course.CurrentMark c))
                 (map (λ c, Course.setCurrentMark c
                              (sliceAt (Course.Marks c) (CurrentGradingPeriodIndex g)))
                      (Gradebook.Courses g))) as Hset.
  { apply Forall_forall. intros c' Hc'. apply list_elem_of_In, in_map_iff in Hc'.
    destruct Hc' as (c & <- & Hc). cbn. split; [done|].
    rewrite Forall_forall in Hall. apply Hall. by apply list_elem_of_In. }
  split_and!.
  - done.
  - done.
  - induction (Gradebook.Courses g) as [|c l IH]; [done|]. cbn.
    f_equal. apply IH.
    + by apply Forall_cons in Hall as [_ ?].
    + by apply Forall_cons in Hset as [_ ?].
  - induction (Gradebook.Courses g) as [|c l IH]; [done|]. cbn.
    f_equal. apply IH.
    + by apply Forall_cons in Hall as [_ ?].
    + by apply Forall_cons in Hset as [_ ?].
  - intros p c Hp. apply byPeriod_lookup in Hp.
    rewrite Forall_forall in Hset. by apply Hset.
  - intros p c. apply byPeriod_keyed.
Qed.

Lemma decoded_marks_are_set_witness :
  ∃ g', selectCurrentMarks rawBook = Some g'
        ∧ marksSet (byPeriod (Gradebook.Courses g'))
        ∧ label g' = label rawBook.
Proof.
  eexists. split; [reflexivity|].
  pose proof (decoded_marks_are_set rawBook _ eq_refl) as (_ & Hl & _ & _ & Hm & _).
  by split.
Defined.

(** ** The decoder of percentages *)

Lemma get_last_None (s : string) :
  String.get (String.length s - 1) s = None ↔ s = "".
Proof.
  split; [|by intros ->]. destruct s as [|c s]; [done|]. intros H.
  destruct (lastChar_nonempty c s) as [l Hl]. unfold lastChar in Hl. congruence.
Qed.

(** X21 (Percentage.UnmarshalXMLAttr): the decoder of percentages
    indexes the last byte of the attribute before any check, so it panics
    exactly on the empty attribute; it decodes exactly the attributes made
    of a text that strconv.ParseFloat accepts followed by a per cent sign,
    to the number ParseFloat gives for that text. *)
Theorem UnmarshalPercentage_cases (ParseFloat : string → option float)
    (pct : string) :
  (UnmarshalPercentage ParseFloat pct = PercentagePanic ↔ pct = "")
  ∧ ∀ f, UnmarshalPercentage ParseFloat pct = PercentageDecoded f
         ↔ ∃ body, pct = body ++ "%" ∧ ParseFloat body = Some f.
Proof.
  unfold UnmarshalPercentage. split.
  - rewrite <- get_last_None.
    destruct (String.get (String.length pct - 1) pct) as [l|]; [|done].
    destruct (negb (Ascii.eqb l "%")); [done|].
    by destruct (ParseFloat _).
  - intros f. split.
    + destruct (String.get (String.length pct - 1) pct) as [l|] eqn:Hl; [|done].
      destruct (Ascii.eqb_spec l "%") as [-> | ?]; [|done]. cbn [negb].
      destruct (ParseFloat _) as [f'|] eqn:Hf; [|done]. intros [= <-].
      destruct (string_snoc pct) as (i & z & ->).
      { intros ->. discriminate Hl. }
      assert (z = "%"%char) as ->.
      { fold (lastChar (i ++ String z "")) in Hl. rewrite lastChar_snoc in Hl.
        congruence. }
      exists i. split; [done|]. rewrite length_append in Hf. cbn [String.length] in Hf.
      replace (String.length i + 1 - 1)%nat with (String.length i) in Hf by lia.
      by rewrite substring_prefix in Hf.
    + intros (body & -> & Hf).
      fold (lastChar (body ++ "%")). rewrite lastChar_snoc. cbn.
      rewrite length_append. cbn [String.length].
      replace (String.length body + 1 - 1)%nat with (String.length body) by lia.
      by rewrite substring_prefix, Hf.
Qed.
